(** * tf2onnx: duplicate-node merging and TensorFlow loop rewriting

    A shallow embedding of
      - [tf2onnx/optimizer/merge_duplicated_nodes_optimizer.py]
      - [tf2onnx/rewriter/loop_rewriter_base.py]
    over a small functional model of the graph the two passes mutate.

    Python objects that the passes hold on to are nodes of the graph; the
    graph keeps them by name, so a node is identified by its [name].  A
    mutation of the graph is a function from graphs to graphs, and a method
    that may raise returns a [result]. *)

From Stdlib Require Import Ascii.
From stdpp Require Import gmap strings list.

Open Scope string_scope.
Open Scope nat_scope.
Open Scope list_scope.
Open Scope stdpp_scope.

(* ===================================================================== *)
(** * The graph                                                           *)
(* ===================================================================== *)

(** A tensor id as Python holds it: a string, or [None]. *)
Abbreviation tensor_id := (option string).

(** ONNX attribute values, compared with [==]. *)
Inductive attr_value :=
| AttrInt (i : Z)
| AttrString (s : string)
| AttrInts (l : list Z).

Global Instance attr_value_eq_dec : EqDecision attr_value.
Proof. solve_decision. Defined.

(** A node: operator type tag, stable name, ordered input tensor ids,
    ordered output tensor ids, attribute map.  [input] may come to hold
    [None] once an input has been rewired to an absent id. *)
Record Node := mkNode {
  name : string;
  type : string;
  input : list tensor_id;
  output : list string;
  attr : gmap string attr_value
}.

Global Instance Node_eq_dec : EqDecision Node.
Proof. solve_decision. Defined.

(** The graph: its nodes in listing order and its declared outputs. *)
Record Graph := mkGraph {
  nodes : list Node;
  outputs : list string
}.

Global Instance Graph_eq_dec : EqDecision Graph.
Proof. solve_decision. Defined.

(** Modelled from the spec: [Graph.get_nodes], "enumerate all nodes"; the
    graph class is not among the sources. *)
Definition get_nodes (g : Graph) : list Node := nodes g.

(** Modelled from the spec: [Graph.get_node_by_name]; nodes are addressed by
    stable name. *)
Definition get_node_by_name (g : Graph) (nm : string) : option Node :=
  List.find (λ n, bool_decide (name n = nm)) (nodes g).

(** Modelled from the spec: [Graph.get_node_by_output], "resolve the node
    producing a given output tensor"; [None] when nothing produces it. *)
Definition get_node_by_output (g : Graph) (o : tensor_id) : option Node :=
  match o with
  | None => None
  | Some s => List.find (λ n, bool_decide (s ∈ output n)) (nodes g)
  end.

(** Modelled from the spec: [Graph.find_output_consumers], "find all consumer
    nodes of a given output tensor", in listing order. *)
Definition find_output_consumers (g : Graph) (o : string) : list Node :=
  filter (λ n, Some o ∈ input n) (nodes g).

(** One node's inputs with every occurrence of [old] replaced by [new]. *)
Definition replace_input (old new : tensor_id) (n : Node) : Node :=
  mkNode (name n) (type n)
         ((λ i, if decide (i = old) then new else i) <$> input n)
         (output n) (attr n).

(** Modelled from the spec: [Graph.replace_all_inputs(ops, old, new)], "rewire
    all occurrences of a tensor id to a different tensor id across a given
    node set".  [ops] are node objects, given here by name; the nodes are
    mutated in place, so the change is seen through the graph. *)
Definition replace_all_inputs (ops : list string) (old new : tensor_id)
    (g : Graph) : Graph :=
  mkGraph
    ((λ n, if decide (name n ∈ ops) then replace_input old new n else n)
       <$> nodes g)
    (outputs g).

(** Modelled from the spec: [Graph.remove_node(name)], "delete a node by
    identity". *)
Definition remove_node (nm : string) (g : Graph) : Graph :=
  mkGraph (filter (λ n, name n ≠ nm) (nodes g)) (outputs g).

(** Modelled from the spec: [Node.is_graph_input], "nodes that are themselves
    graph inputs": the placeholder operators. *)
Definition is_graph_input (n : Node) : bool :=
  bool_decide (type n ∈ ["Placeholder"; "PlaceholderWithDefault"; "PlaceholderV2"]).

(** Modelled from the spec: [Node.is_const], "test whether a node is
    constant-valued". *)
Definition is_const (n : Node) : bool :=
  bool_decide (type n ∈ ["Const"; "ConstV2"]).

(* ===================================================================== *)
(** * merge_duplicated_nodes_optimizer.py                                 *)
(* ===================================================================== *)

Module MergeDuplicatedNodesOptimizer.

(** The optimizer instance: [self._graph_can_be_optimized]. *)
Record Optimizer := mkOptimizer {
  _graph_can_be_optimized : bool
}.

(** [__init__]: the flag starts out true. *)
Definition __init__ : Optimizer := mkOptimizer true.

(** What a method works on: the instance and the graph it mutates. *)
Abbreviation State := (Optimizer * Graph)%type.

(** [_KeyToGroupNodes(node.type, tuple(node.input))]. *)
Abbreviation Key := (string * list tensor_id)%type.

(** [res[key].append(node)] on a [defaultdict(list)]: a new key goes last
    (a dict iterates in insertion order), a known key keeps its place. *)
Fixpoint append_to_group (k : Key) (n : Node) (res : list (Key * list Node))
    : list (Key * list Node) :=
  match res with
  | [] => [(k, [n])]
  | (k', ns) :: rest =>
      if decide (k' = k) then (k', ns ++ [n]) :: rest
      else (k', ns) :: append_to_group k n rest
  end.

Definition _group_nodes_by_type_inputs (g : Graph) : list (Key * list Node) :=
  foldl (λ res node, append_to_group (type node, input node) node res)
        [] (get_nodes g).

Definition _len_of_node_output (n : Node) : nat := length (output n).

(** [list.sort(key=_len_of_node_output, reverse=True)]: a stable sort, the
    larger key first; nodes with equal keys keep their order. *)
Fixpoint sort_insert (n : Node) (l : list Node) : list Node :=
  match l with
  | [] => [n]
  | m :: l' =>
      if decide (_len_of_node_output n < _len_of_node_output m)
      then m :: sort_insert n l'
      else n :: m :: l'
  end.

Definition sort_by_len_of_node_output_reverse (l : list Node) : list Node :=
  foldr sort_insert [] l.

(** [set(node_to_delete.output).intersection(set(graph.outputs))], as a
    truth value. *)
Definition output_is_graph_output (n : Node) (g : Graph) : bool :=
  bool_decide (Exists (λ o, o ∈ outputs g) (output n)).

(** The body of [for node_to_delete in nodes_to_process[1:]]. *)
Definition merge_into (node_to_retain : Node) (st : State)
    (node_to_delete : Node) : State :=
  let '(self, graph) := st in
  if output_is_graph_output node_to_delete graph then st
  else
    let graph :=
      foldl (λ gr '(old_input, new_input),
               replace_all_inputs (name <$> get_nodes gr)
                                  (Some old_input) (Some new_input) gr)
            graph
            (zip (output node_to_delete) (output node_to_retain)) in
    let graph := remove_node (name node_to_delete) graph in
    (mkOptimizer true, graph).

(** [_merge_nodes_that_are_duplicated].  The nodes of the list were taken
    from the graph when the round started; only their name, outputs and
    attributes are read, none of which a rewiring changes.  The caller
    never passes an empty list (Python would raise on
    [nodes_to_process[0]]). *)
Definition _merge_nodes_that_are_duplicated (nodes_to_process : list Node)
    (st : State) : State :=
  match sort_by_len_of_node_output_reverse nodes_to_process with
  | [] => st
  | node_to_retain :: to_delete => foldl (merge_into node_to_retain) st to_delete
  end.

(** [while len(nodes_group) > 1]: each turn splits off the nodes whose
    attributes equal those of the first node.  The list gets shorter every
    turn, so [length nodes_group] turns are always enough
    ([del_nodes_loop_turns] below). *)
Fixpoint del_nodes_loop (turns : nat) (nodes_group : list Node) (st : State)
    : State :=
  match turns, nodes_group with
  | S turns', first :: ((_ :: _) as others) =>
      let nodes_to_process :=
        first :: filter (λ node, attr node = attr first) others in
      let unprocessed_node := filter (λ node, attr node ≠ attr first) others in
      del_nodes_loop turns' unprocessed_node
        (_merge_nodes_that_are_duplicated nodes_to_process st)
  | _, _ => st
  end.

Definition _del_nodes_if_duplicated (nodes_group : list Node) (st : State)
    : State :=
  del_nodes_loop (length nodes_group) nodes_group st.

Definition _skip_node_type (n : Node) : bool :=
  if decide (type n ∈ ["Identity"]) then true
  else if is_graph_input n then true
  else false.

(** [_merge_duplicated_nodes]: one round over the groups, in dict order. *)
Definition merge_group (st : State) (kg : Key * list Node) : State :=
  match kg.2 with
  | [] => st
  | first :: _ =>
      if _skip_node_type first then st
      else _del_nodes_if_duplicated kg.2 st
  end.

Definition _merge_duplicated_nodes (st : State) : State :=
  foldl merge_group st (_group_nodes_by_type_inputs st.2).

(** [while self._graph_can_be_optimized]: [None] when [rounds] rounds were
    not enough for the loop to end. *)
Fixpoint optimize_loop (rounds : nat) (st : State) : option State :=
  if _graph_can_be_optimized st.1 then
    match rounds with
    | 0 => None
    | S rounds' =>
        optimize_loop rounds' (_merge_duplicated_nodes (mkOptimizer false, st.2))
    end
  else Some st.

(** [_optimize_at_current_graph_level]: the instance after the call and the
    graph returned.  A round that asks for another has removed a node, so
    one round more than there are nodes lets the loop end
    ([optimize_loop_ends] below). *)
Definition _optimize_at_current_graph_level (st : State) : option State :=
  optimize_loop (S (length (nodes st.2))) st.

End MergeDuplicatedNodesOptimizer.

(* ===================================================================== *)
(** * Exceptions                                                          *)
(* ===================================================================== *)

(** What a method of the loop rewriter can raise.  [ValueError] is an
    explicit [raise ValueError(msg, ...)], the rewriter's way of reporting
    that the control-flow idiom does not have the expected shape;
    [MakeSureError] is a failed [utils.make_sure(cond, fmt, args)]; the
    other three are raised by Python itself: an attribute of [None], a
    list index out of range, a missing dict key. *)
Inductive exn :=
| ValueError (msg : string) (args : list string)
| MakeSureError (fmt : string) (args : list string)
| AttributeError
| IndexError
| KeyError (key : string).

Inductive result (A : Type) :=
| Ok (a : A)
| Raise (e : exn).
Arguments Ok {A} a.
Arguments Raise {A} e.

Definition bind {A B} (m : result A) (k : A → result B) : result B :=
  match m with
  | Ok a => k a
  | Raise e => Raise e
  end.

Notation "'let*' x := m 'in' k" := (bind m (λ x, k))
  (at level 10, x pattern, m at level 100, k at level 200).

(** [l[i]] on a Python list. *)
Definition index {A} (l : list A) (i : nat) : result A :=
  match l !! i with
  | Some a => Ok a
  | None => Raise IndexError
  end.

(** [o.attribute] where [o] may be [None]. *)
Definition not_none {A} (o : option A) : result A :=
  match o with
  | Some a => Ok a
  | None => Raise AttributeError
  end.

(** Modelled from the spec: [utils.make_sure(cond, fmt, args)], which is
    not among the sources; a failed check is fatal. *)
Definition make_sure (cond : bool) (fmt : string) (args : list string)
    : result unit :=
  if cond then Ok () else Raise (MakeSureError fmt args).

(** [for x in l: ...] over a body that may raise. *)
Fixpoint for_each {A St} (body : St → A → result St) (l : list A) (s : St)
    : result St :=
  match l with
  | [] => Ok s
  | x :: l' => let* s' := body s x in for_each body l' s'
  end.

(** Python truth of a tensor id: [None] and the empty string are false. *)
Definition truthy (i : tensor_id) : bool :=
  match i with
  | None => false
  | Some s => bool_decide (s ≠ EmptyString)
  end.

(** [s.add(x)] on a set kept as a duplicate-free list. *)
Definition set_add {A} `{EqDecision A} (x : A) (s : list A) : list A :=
  if decide (x ∈ s) then s else s ++ [x].

(** A Python reference to a node sees the node's current inputs.  Nodes are
    identified by name, so the reference is followed by reading the node of
    that name from the graph; a node that has left the graph is read as it
    was when the reference was taken. *)
Definition current (g : Graph) (n : Node) : Node :=
  default n (get_node_by_name g (name n)).

(** [node.inputs]: the producer of each input, [None] where there is none. *)
Definition inputs (g : Graph) (n : Node) : list (option Node) :=
  get_node_by_output g <$> input n.

(** [[n for n in node.inputs if n.type == ty][0]]: evaluating [n.type]
    raises on an input without producer, and taking the first element
    raises when no producer has the type. *)
Definition first_input_of_type (g : Graph) (n : Node) (ty : string)
    : result Node :=
  let* producers := for_each (λ acc o, let* p := not_none o in Ok (acc ++ [p]))
                             (inputs g n) [] in
  index (filter (λ p, type p = ty) producers) 0.

(** Modelled from the spec: the operator tests of [rnn_utils], which is not
    among the sources. *)
Definition is_loopcond_op (n : Node) : bool := bool_decide (type n = "LoopCond").
Definition is_tensor_array_op (n : Node) : bool :=
  bool_decide (type n = "TensorArrayV3").
Definition is_tensor_array_write_op (n : Node) : bool :=
  bool_decide (type n = "TensorArrayWriteV3").
Definition is_tensor_array_gather_op (n : Node) : bool :=
  bool_decide (type n = "TensorArrayGatherV3").

(** Modelled from the spec: [rnn_utils.REWRITER_RESULT], the three outcomes
    of the delegate strategy. *)
Inductive REWRITER_RESULT := SKIP | OK | FAIL.

(** Modelled from the spec: [utils.make_name("invalid_input_id")], the
    sentinel "invalid" identifier. *)
Definition INVALID_INPUT_ID : string := "invalid_input_id".

(** Modelled from the spec: [utils.TensorValueInfo(id, g)], "an identifier
    plus a back-reference to the owning graph"; the graph is the one being
    rewritten, so only the identifier is kept. *)
Module utils.
Record TensorValueInfo := mkTensorValueInfo { id : tensor_id }.
End utils.
Abbreviation TensorValueInfo := utils.TensorValueInfo.
Abbreviation mkTensorValueInfo := utils.mkTensorValueInfo.

Global Instance TensorValueInfo_eq_dec : EqDecision TensorValueInfo.
Proof. solve_decision. Defined.

(* ===================================================================== *)
(** * Reachability                                                        *)
(* ===================================================================== *)

(** Modelled from the spec: [Graph.extract_sub_graph_nodes(outputs,
    input_checker)], "backward-reachable ancestor node set given outputs
    and a boundary predicate".  The checker is a closure that records the
    nodes it stops at, so it threads a state [St]. *)
Section extract_sub_graph.
Context {St : Type} (g : Graph) (input_checker : Node → St → bool * St).

(** One input of the node being expanded: its producer joins the work
    set unless it is already in the result or the checker stops there. *)
Definition visit_input (res_set : list Node) (acc : list Node * St)
    (input_id : tensor_id) : list Node * St :=
  match get_node_by_output g input_id with
  | None => acc
  | Some node =>
      if decide (node ∈ res_set) then acc
      else
        let '(go_on, s) := input_checker node acc.2 in
        if go_on then (set_add node acc.1, s) else (acc.1, s)
  end.

(** The work-set loop.  A node enters the result at most once, so the
    loop ends within as many turns as the graph has nodes
    ([extract_loop_enough_turns] below). *)
Fixpoint extract_loop (turns : nat) (processing_set res_set : list Node)
    (s : St) : list Node * St :=
  match turns, processing_set with
  | S turns', top_node :: rest =>
      let res_set := set_add top_node res_set in
      let '(processing_set, s) :=
        foldl (visit_input res_set) (rest, s) (input top_node) in
      extract_loop turns' processing_set res_set s
  | _, _ => (res_set, s)
  end.

(** The nodes that end in [dest_node]. *)
Definition extract_from (dest_node : option Node) (s : St)
    : list Node * St :=
  match dest_node with
  | None => ([], s)
  | Some node =>
      let '(go_on, s) := input_checker node s in
      if go_on then extract_loop (length (nodes g)) [node] [] s
      else ([], s)
  end.

Definition extract_sub_graph_nodes (outputs_name : list tensor_id) (s : St)
    : list Node * St :=
  foldl (λ acc output,
           let '(found, s) := extract_from (get_node_by_output g output) acc.2 in
           (foldl (λ res n, set_add n res) acc.1 found, s))
        ([], s) outputs_name.
End extract_sub_graph.

(** Modelled from the spec: [Graph.delete_unused_nodes(outputs)], "a final
    reachability cleanup seeded from the parent graph's declared outputs,
    dropping every unreached node". *)
Definition delete_unused_nodes (outputs_name : list string) (g : Graph) : Graph :=
  let related_nodes :=
    (extract_sub_graph_nodes g (λ _ (s : unit), (true, s))
                             (Some <$> outputs_name) ()).1 in
  mkGraph (filter (λ n, n ∈ related_nodes) (nodes g)) (outputs g).

(* ===================================================================== *)
(** * loop_rewriter_base.py: the loop variable model                      *)
(* ===================================================================== *)

(** An [OrderedDict] with string keys: an association list in insertion
    order, with at most one entry per key. *)
Section ordered_dict.
Context {V : Type}.

(** [k in d] *)
Definition dict_contains (k : string) (d : list (string * V)) : bool :=
  bool_decide (k ∈ d.*1).

(** [d[k] = v]: a known key keeps its place, a new key goes last. *)
Fixpoint dict_set (k : string) (v : V) (d : list (string * V))
    : list (string * V) :=
  match d with
  | [] => [(k, v)]
  | (k', v') :: d' =>
      if decide (k' = k) then (k, v) :: d' else (k', v') :: dict_set k v d'
  end.

(** [d[k]] *)
Definition dict_get (k : string) (d : list (string * V)) : result V :=
  match List.find (λ kv, bool_decide (kv.1 = k)) d with
  | Some kv => Ok kv.2
  | None => Raise (KeyError k)
  end.

(** [d.values()] *)
Definition dict_values (d : list (string * V)) : list V := d.*2.

(** [d.update(other)] *)
Definition dict_update (d other : list (string * V)) : list (string * V) :=
  foldl (λ acc kv, dict_set kv.1 kv.2 acc) d other.
End ordered_dict.

Record LoopVariable := mkLoopVariable {
  enter_name : string;
  enter_input_id : tensor_id;
  next_iteration_input : TensorValueInfo;
  switch_true_identity_output : TensorValueInfo;
  exit_output : TensorValueInfo;
  is_tensor_array : bool;
  ta_index_id : tensor_id
}.

Global Instance LoopVariable_eq_dec : EqDecision LoopVariable.
Proof. solve_decision. Defined.

(** [LoopVariable.__init__]: the next-iteration id should not be [None]. *)
Definition LoopVariable__init__ (enter_name : string)
    (enter_input_id next_iteration_input_id switch_true_identity_output_id
       exit_output_id : tensor_id)
    (is_tensor_array : bool) (ta_index_id : tensor_id) : result LoopVariable :=
  let* _ := make_sure (truthy next_iteration_input_id)
              "next_iteration_input_id should not be None" [] in
  Ok (mkLoopVariable enter_name enter_input_id
        (mkTensorValueInfo next_iteration_input_id)
        (mkTensorValueInfo switch_true_identity_output_id)
        (mkTensorValueInfo exit_output_id)
        is_tensor_array ta_index_id).

Record InputTensorArray := mkInputTensorArray {
  index_input_id : tensor_id;
  data_input_id : tensor_id;
  consumer : TensorValueInfo
}.

Definition InputTensorArray__init__ (data_input_id index_input_id
    consumer_id : tensor_id) : InputTensorArray :=
  mkInputTensorArray index_input_id data_input_id (mkTensorValueInfo consumer_id).

Record LoopProperties := mkLoopProperties {
  state_variables : list (string * LoopVariable);
  scan_variables : list (string * LoopVariable);
  tensor_array_inputs : list InputTensorArray
}.

Definition LoopProperties__init__ : LoopProperties := mkLoopProperties [] [] [].

Definition add_variable (self : LoopProperties) (var : LoopVariable)
    : result LoopProperties :=
  let* _ := make_sure (negb (dict_contains (enter_name var) (scan_variables self)))
              "variable %s already exists as scan variable." [enter_name var] in
  let* _ := make_sure (negb (dict_contains (enter_name var) (state_variables self)))
              "variable %s already exists as state variable." [enter_name var] in
  if negb (is_tensor_array var) then
    Ok (mkLoopProperties (dict_set (enter_name var) var (state_variables self))
                         (scan_variables self) (tensor_array_inputs self))
  else
    Ok (mkLoopProperties (state_variables self)
                         (dict_set (enter_name var) var (scan_variables self))
                         (tensor_array_inputs self)).

Definition all_variables (self : LoopProperties) : list (string * LoopVariable) :=
  dict_update (state_variables self) (scan_variables self).

Definition state_inputs (self : LoopProperties) : list TensorValueInfo :=
  switch_true_identity_output <$> dict_values (state_variables self).

Definition state_inputs_initial_values (self : LoopProperties) : list tensor_id :=
  enter_input_id <$> dict_values (state_variables self).

Definition state_outputs (self : LoopProperties) : list TensorValueInfo :=
  next_iteration_input <$> dict_values (state_variables self).

Definition state_outputs_exits (self : LoopProperties) : list TensorValueInfo :=
  exit_output <$> dict_values (state_variables self).

Definition scan_outputs (self : LoopProperties) : list TensorValueInfo :=
  next_iteration_input <$> dict_values (scan_variables self).

Definition scan_outputs_exits (self : LoopProperties) : list TensorValueInfo :=
  exit_output <$> dict_values (scan_variables self).

Definition add_scan_input (self : LoopProperties)
    (input_tensor_array : InputTensorArray) : LoopProperties :=
  mkLoopProperties (state_variables self) (scan_variables self)
                   (tensor_array_inputs self ++ [input_tensor_array]).

Definition scan_inputs (self : LoopProperties) : list TensorValueInfo :=
  consumer <$> tensor_array_inputs self.

Definition scan_inputs_initial_values (self : LoopProperties) : list tensor_id :=
  data_input_id <$> tensor_array_inputs self.

(** The result of cropping.  [nodes] holds the node objects found. *)
Module GraphInfo.
Record t := mk {
  nodes : list Node;
  inputs : list TensorValueInfo;
  outputs : list TensorValueInfo;
  dependent_vars : option (list LoopVariable)
}.
(** [GraphInfo.__init__(ops, inputs, outputs)] *)
Definition __init__ (ops : list Node) (inputs outputs : list TensorValueInfo) : t :=
  mk ops inputs outputs None.
End GraphInfo.
Abbreviation GraphInfo := GraphInfo.t.

Record Context := mkContext {
  while_context_scope : option string;
  loop_properties : LoopProperties;
  loop_cond : option Node;
  cell_graph : option GraphInfo;
  cond_graph : option GraphInfo
}.

(** [Context.__init__] *)
Definition Context__init__ : Context :=
  mkContext None LoopProperties__init__ None None None.

(* ===================================================================== *)
(** * loop_rewriter_base.py: LoopRewriterBase                             *)
(* ===================================================================== *)

(** The two methods a concrete rewriter overrides. *)
Class LoopRewriter := {
  need_rewrite : Context → Graph → bool;
  rewrite : Context → Graph → result (REWRITER_RESULT * Graph)
}.

(** The base class: nothing needs rewriting, and rewriting fails. *)
Definition LoopRewriterBase : LoopRewriter :=
  {| need_rewrite _ _ := false; rewrite _ g := Ok (FAIL, g) |}.

Definition create_context : Context := Context__init__.

(** The true branch of a switch (lines 342-352): no consumer, one Identity
    consumer, or an error. *)
Definition switch_true_branch (g : Graph) (switch_node : Node)
    : result tensor_id :=
  let* switch_true := index (output switch_node) 1 in
  let switch_consumers := find_output_consumers g switch_true in
  match switch_consumers with
  | [] => Ok None
  | [c] =>
      if decide (type c ≠ "Identity")
      then Raise (ValueError "switch has consumer that is not Identity" [])
      else let* o := index (output c) 0 in Ok (Some o)
  | _ =>
      Raise (ValueError
               (String.append "switch_true "
                  (String.append (name switch_node)
                                 " has unexpected count of consumers:"))
               (name <$> switch_consumers))
  end.

(** The false branch of a switch (lines 363-375). *)
Definition switch_false_branch (g : Graph) (switch_node : Node)
    : result tensor_id :=
  let* switch_false := index (output switch_node) 0 in
  let switch_false_consumers := find_output_consumers g switch_false in
  match switch_false_consumers with
  | [exit_node] =>
      if decide (type exit_node ≠ "Exit")
      then Raise (ValueError "switch false branch is followed by non-Exit" [])
      else let* o := index (output exit_node) 0 in Ok (Some o)
  | [] => Ok None
  | _ => Raise (ValueError "unexpected number of switch false consumers" [])
  end.

(** [_get_loop_var_from_switch]; [Ok None] is Python's [return None].  The
    debug log at line 357 evaluates [enter_node.inputs[0].name], which
    raises when nothing produces the initial value.  The tensor-array
    tests read the type of the node they are given. *)
Definition _get_loop_var_from_switch (g : Graph) (switch_node : Node)
    : result (option LoopVariable) :=
  if decide (type switch_node ≠ "Switch") then Ok None else
  let* merge_node := index (inputs g switch_node) 0 in
  let* merge_node := not_none merge_node in
  if decide (type merge_node ≠ "Merge") then Ok None else
  let* switch_true_identity_output := switch_true_branch g switch_node in
  let* enter_node := first_input_of_type g merge_node "Enter" in
  let* target_node_input_id := index (input enter_node) 0 in
  let* enter_input := index (inputs g enter_node) 0 in
  let* _ := not_none enter_input in
  let* next_iteration_node := first_input_of_type g merge_node "NextIteration" in
  let* last_iteration_output_id := index (input next_iteration_node) 0 in
  let* exit_output_id := switch_false_branch g switch_node in
  let* initial := not_none (get_node_by_output g target_node_input_id) in
  if is_tensor_array_op initial then
    let* ta_write_node := not_none (get_node_by_output g last_iteration_output_id) in
    let* _ := make_sure (is_tensor_array_write_op ta_write_node)
                "ta nextiteration is not following ta write op" [] in
    let* last_iteration_output_id := index (input ta_write_node) 2 in
    let* ta_index_id := index (input ta_write_node) 1 in
    let* exit_output_id :=
      match exit_output_id with
      | Some e =>
          if truthy exit_output_id then
            let exit_consumers := find_output_consumers g e in
            let* ta_gather_node :=
              index (filter (λ n, is_tensor_array_gather_op n = true) exit_consumers) 0 in
            let* o := index (output ta_gather_node) 0 in
            Ok (Some o)
          else Ok exit_output_id
      | None => Ok None
      end in
    let* loop_var :=
      LoopVariable__init__ (name enter_node) target_node_input_id
        last_iteration_output_id switch_true_identity_output exit_output_id
        true ta_index_id in
    Ok (Some loop_var)
  else
    let* loop_var :=
      LoopVariable__init__ (name enter_node) target_node_input_id
        last_iteration_output_id switch_true_identity_output exit_output_id
        false None in
    Ok (Some loop_var).

(** ['/'.join(name.split('/')[0:-1]) + "/"]: the name up to its last
    slash, or just a slash when it has none. *)
Fixpoint up_to_last_slash (s : string) : option string :=
  match s with
  | EmptyString => None
  | String c r =>
      match up_to_last_slash r with
      | Some p => Some (String c p)
      | None => if decide (c = "/"%char) then Some "/" else None
      end
  end.

Definition scope_of (nm : string) : string := default "/" (up_to_last_slash nm).

Definition with_loop_properties (context : Context) (p : LoopProperties) : Context :=
  mkContext (while_context_scope context) p (loop_cond context)
            (cell_graph context) (cond_graph context).

(** The body of [for s in switch_nodes]; [add_variable(None)] raises when it
    reads [var.enter_name]. *)
Definition parse_switch (g : Graph) (context : Context) (s : Node)
    : result Context :=
  if decide (type s ≠ "Switch")
  then Raise (ValueError "LoopCond's output node should be followed with a Switch node" [])
  else
    let* loop_var := _get_loop_var_from_switch g s in
    let* loop_var := not_none loop_var in
    let* p := add_variable (loop_properties context) loop_var in
    Ok (with_loop_properties context p).

Definition _parse_loop_variables (g : Graph) (context : Context) : result Context :=
  let* loop_cond_op := not_none (loop_cond context) in
  let context :=
    mkContext (Some (scope_of (name loop_cond_op))) (loop_properties context)
              (loop_cond context) (cell_graph context) (cond_graph context) in
  let* cond_output := index (output loop_cond_op) 0 in
  let switch_nodes := find_output_consumers g cond_output in
  for_each (parse_switch g) switch_nodes context.

(** Modelled from the spec: one match of [GraphMatcher] for
    [ta_read_input_pattern], "tensor-array creation, scatter of initial
    data, per-iteration indexed read", with its three named captures. *)
Record ta_read_match := mk_ta_read_match {
  ta_read : Node;
  ta_index : Node;
  ta_input_scatter : Node
}.

Definition match_ta_read_input_pattern (g : Graph) (op : Node)
    : option ta_read_match :=
  if decide (type op = "TensorArrayReadV3") then
    match inputs g op with
    | [Some ta_enter; Some ta_index; Some ta_scatter_enter] =>
        match inputs g ta_enter, inputs g ta_scatter_enter with
        | [Some ta], [Some ta_input_scatter] =>
            if decide (type ta_enter = "Enter" ∧ type ta = "TensorArrayV3" ∧
                       type ta_index = "Identity" ∧
                       type ta_scatter_enter = "Enter" ∧
                       type ta_input_scatter = "TensorArrayScatterV3")
            then Some (mk_ta_read_match op ta_index ta_input_scatter)
            else None
        | _, _ => None
        end
    | _ => None
    end
  else None.

Definition match_ops (g : Graph) : list ta_read_match :=
  omap (match_ta_read_input_pattern g) (get_nodes g).

Definition _parse_input_ta (g : Graph) (context : Context) : result Context :=
  let graph_inputs :=
    filter (λ i, truthy i = true)
      ((λ v, utils.id (switch_true_identity_output v))
         <$> dict_values (all_variables (loop_properties context))) in
  let* match_results :=
    for_each (λ acc r,
                let* o := index (output (ta_index r)) 0 in
                Ok (if decide (Some o ∈ graph_inputs) then acc ++ [r] else acc))
             (match_ops g) [] in
  for_each (λ context m,
              let* data_input_id := index (input (ta_input_scatter m)) 2 in
              let* index_input_id := index (input (ta_read m)) 1 in
              let* unstacked_ta_consumer := index (output (ta_read m)) 0 in
              let ta := InputTensorArray__init__ data_input_id index_input_id
                          (Some unstacked_ta_consumer) in
              Ok (with_loop_properties context
                    (add_scan_input (loop_properties context) ta)))
           match_results context.

Definition _check_in_read_only_mode (g : Graph) (context : Context)
    : result Context :=
  let* context := _parse_loop_variables g context in
  _parse_input_ta g context.

(** [find_input_boundary], the closure of [find_subgraph]: its state is the
    pair of sets [(enter_nodes, merge_nodes)]. *)
Definition find_input_boundary (input_ids : list tensor_id) (merge_as_end : bool)
    (node : Node) (s : list Node * list Node) : bool * (list Node * list Node) :=
  if decide (type node = "Enter") then (false, (set_add node s.1, s.2))
  else if merge_as_end && bool_decide (type node = "Merge")
  then (false, (s.1, set_add node s.2))
  else if is_const node then (false, s)
  else if bool_decide (Exists (λ o, Some o ∈ input_ids) (output node))
  then (false, s)
  else (true, s).

(** [find_subgraph]: the nodes, the Enter nodes and the Merge nodes the
    search stopped at.  Python keeps the three as sets, iterated in no
    specified order; the model lists each in the order the search met
    them. *)
Definition find_subgraph (input_ids output_ids : list tensor_id) (g : Graph)
    (merge_as_end : bool) : list Node * list Node * list Node :=
  let '(nodes, (enter_nodes, merge_nodes)) :=
    extract_sub_graph_nodes g (find_input_boundary input_ids merge_as_end)
                            output_ids ([], []) in
  (nodes, enter_nodes, merge_nodes).

(** The body of [for enter_node in enter_nodes]: connect Enter's output to
    Enter's input. *)
Definition connect_enter (ops : list Node) (g : Graph) (enter_node : Node)
    : result Graph :=
  let* old := index (output enter_node) 0 in
  let* new := index (input (current g enter_node)) 0 in
  Ok (replace_all_inputs (name <$> ops) (Some old) new g).

Definition _crop_loop_body_sub_graph (g : Graph) (context : Context)
    : result (Graph * GraphInfo) :=
  let loop_props := loop_properties context in
  let inputs := state_inputs loop_props ++ scan_inputs loop_props in
  let input_ids := utils.id <$> inputs in
  let outputs := state_outputs loop_props ++ scan_outputs loop_props in
  let output_ids := utils.id <$> outputs in
  let '(ops, enter_nodes, _) := find_subgraph input_ids output_ids g false in
  let* g := for_each (connect_enter ops) enter_nodes g in
  Ok (g, GraphInfo.__init__ ops inputs outputs).

(** The body of [for merge_node in merge_nodes] (lines 293-301): the state
    is the graph and [dependent_vars]. *)
Definition cut_off_merge (context : Context) (s : Graph * list LoopVariable)
    (merge_node : Node) : result (Graph * list LoopVariable) :=
  let '(g, dependent_vars) := s in
  let* enter_node := first_input_of_type g (current g merge_node) "Enter" in
  let* loop_var :=
    dict_get (name enter_node) (all_variables (loop_properties context)) in
  let* merge_output := index (output merge_node) 0 in
  let non_switch_consumers :=
    filter (λ n, type n ≠ "Switch") (find_output_consumers g merge_output) in
  let g := replace_all_inputs (name <$> non_switch_consumers) (Some merge_output)
             (utils.id (switch_true_identity_output loop_var)) g in
  Ok (g, dependent_vars ++ [loop_var]).

(** The statement at line 304: rewire, within the node set
    [[context.loop_cond]], the loop condition's own output. *)
Definition cut_off_loop_cond (g : Graph) (loop_cond : Node) : result Graph :=
  let* cond_output := index (output loop_cond) 0 in
  Ok (replace_all_inputs [name loop_cond] (Some cond_output)
                         (Some INVALID_INPUT_ID) g).

Definition _crop_loop_condition_sub_graph (g : Graph) (context : Context)
    : result (Graph * GraphInfo) :=
  let input_ids := [] in
  let* loop_cond := not_none (loop_cond context) in
  let* cond_input := index (input (current g loop_cond)) 0 in
  let output_ids := [cond_input] in
  let outputs := mkTensorValueInfo <$> output_ids in
  let '(ops, enter_nodes, merge_nodes) :=
    find_subgraph input_ids output_ids g true in
  let* g := for_each (connect_enter ops) enter_nodes g in
  let* (g, dependent_vars) := for_each (cut_off_merge context) merge_nodes (g, []) in
  let* g := cut_off_loop_cond g loop_cond in
  let graph_info := GraphInfo.__init__ ops [] outputs in
  Ok (g, GraphInfo.mk (GraphInfo.nodes graph_info) (GraphInfo.inputs graph_info)
                      (GraphInfo.outputs graph_info) (Some dependent_vars)).

(** The body of [for val in all_variables.values()] in
    [_cut_off_connection_for_cell]. *)
Definition cut_off_variable (g : Graph) (val : LoopVariable) : result Graph :=
  let* g :=
    if truthy (utils.id (switch_true_identity_output val)) then
      let* n := not_none (get_node_by_output g
                            (utils.id (switch_true_identity_output val))) in
      Ok (remove_node (name n) g)
    else Ok g in
  if is_tensor_array val then
    let ta_write_nodes := filter (λ n, is_tensor_array_write_op n = true) (get_nodes g) in
    Ok (replace_all_inputs (name <$> ta_write_nodes)
          (utils.id (next_iteration_input val)) (Some INVALID_INPUT_ID) g)
  else
    let next_iter_nodes := filter (λ n, type n = "NextIteration") (get_nodes g) in
    Ok (replace_all_inputs (name <$> next_iter_nodes)
          (utils.id (next_iteration_input val)) (Some INVALID_INPUT_ID) g).

Definition _cut_off_connection_for_cell (g : Graph) (context : Context)
    : result Graph :=
  let* g := for_each cut_off_variable
              (dict_values (all_variables (loop_properties context))) g in
  for_each (λ g scan_input,
              let* n := not_none (get_node_by_output g (utils.id scan_input)) in
              Ok (remove_node (name n) g))
           (scan_inputs (loop_properties context)) g.

(** The body of [for op in loopcond_ops] in [run_internal]. *)
Definition handle_loop_cond (self : LoopRewriter) (g : Graph) (op : Node)
    : result Graph :=
  let context := create_context in
  let context :=
    mkContext (while_context_scope context) (loop_properties context) (Some op)
              (cell_graph context) (cond_graph context) in
  let* context := _check_in_read_only_mode g context in
  if need_rewrite context g then
    let* g := _cut_off_connection_for_cell g context in
    let* (g, cell) := _crop_loop_body_sub_graph g context in
    let context :=
      mkContext (while_context_scope context) (loop_properties context)
                (loop_cond context) (Some cell) (cond_graph context) in
    let* (g, cond) := _crop_loop_condition_sub_graph g context in
    let context :=
      mkContext (while_context_scope context) (loop_properties context)
                (loop_cond context) (cell_graph context) (Some cond) in
    let* (_result, g) := rewrite context g in
    match _result with
    | OK => Ok g
    | SKIP => Ok g
    | FAIL => Raise (ValueError "rewrite failed, so just fast fail it" [])
    end
  else Ok g.

(** The loop of [run_internal] over the LoopCond nodes listed beforehand. *)
Definition handle_loop_conds (self : LoopRewriter) (g : Graph) : result Graph :=
  let loopcond_ops := filter (λ op, is_loopcond_op op = true) (get_nodes g) in
  for_each (handle_loop_cond self) loopcond_ops g.

(** Lines 224-226: clean the graph based on output names, when it has any. *)
Definition clean_up (g : Graph) : Graph :=
  if bool_decide (outputs g ≠ []) then delete_unused_nodes (outputs g) g
  else g.

(** [run_internal]: the graph as the pass leaves it and the node list
    returned. *)
Definition run_internal (self : LoopRewriter) (g : Graph)
    : result (Graph * list Node) :=
  let* g := handle_loop_conds self g in
  let g := clean_up g in
  Ok (g, get_nodes g).

(* ===================================================================== *)
(** * What the properties speak about, and the graphs used as examples    *)
(* ===================================================================== *)

(** The names under which a loop's variables are registered. *)
Definition registered (p : LoopProperties) : list string :=
  (state_variables p).*1 ++ (scan_variables p).*1.

(** The outputs of a node that some node of the graph reads. *)
Definition consumed_outputs (g : Graph) (n : Node) : list string :=
  filter (λ o, find_output_consumers g o ≠ []) (output n).

(** The nodes of the graph that read an output of [n]. *)
Definition consumers_of_node (g : Graph) (n : Node) : list Node :=
  filter (λ c, Exists (λ o, Some o ∈ input c) (output n)) (nodes g).

(** The node [_merge_nodes_that_are_duplicated] keeps. *)
Definition node_to_retain (nodes_to_process : list Node) : option Node :=
  head (MergeDuplicatedNodesOptimizer.sort_by_len_of_node_output_reverse
          nodes_to_process).

(** The reading under which the node kept would be the one with the most
    outputs in use. *)
Definition retains_most_consumed : Prop :=
  ∀ (g : Graph) (ns : list Node) (r : Node),
    1 < length ns → Forall (λ n, n ∈ nodes g) ns →
    node_to_retain ns = Some r →
    Forall (λ n, length (consumed_outputs g n) ≤ length (consumed_outputs g r)) ns.

(** All but the inputs of a node: what no rewiring changes. *)
Definition shell (n : Node) : string * string * list string * gmap string attr_value :=
  (name n, type n, output n, attr n).

(** Non-Switch readers of [o] in [g] read [new] instead in [g'], at the same
    place in the listing. *)
Definition rewired (g g' : Graph) (o : string) (new : tensor_id) : Prop :=
  ∀ (k : nat) (n : Node),
    nodes g !! k = Some n → type n ≠ "Switch" → Some o ∈ input n →
    nodes g' !! k = Some (replace_input (Some o) new n).

(** The condition subgraph's dependencies, in the spec's words: for each
    excluded merge node in turn, the variable registered under the name of
    the merge node's loop-entry producer is recorded, and every non-switch
    consumer of the merge node's output is rewired to that variable's
    body-entry tensor.  [merges_cut vars g ms g' deps] relates the graph
    before the merge nodes [ms] are handled to the graph after, and [deps]
    is what was recorded. *)
Inductive merges_cut (vars : list (string * LoopVariable))
    : Graph → list Node → Graph → list LoopVariable → Prop :=
| merges_cut_nil g : merges_cut vars g [] g []
| merges_cut_cons g g1 g' m ms enter v deps o :
    first_input_of_type g (current g m) "Enter" = Ok enter →
    dict_get (name enter) vars = Ok v →
    output m !! 0 = Some o →
    rewired g g1 o (utils.id (switch_true_identity_output v)) →
    merges_cut vars g1 ms g' deps →
    merges_cut vars g (m :: ms) g' (v :: deps).

(** A node without attributes whose inputs are all present. *)
Definition node (nm ty : string) (ins outs : list string) : Node :=
  mkNode nm ty (Some <$> ins) outs ∅.

(** Three Abs nodes over one input; their outputs have one, two and no
    consumer; none is a graph output. *)
Definition abs_a : Node := node "abs_a" "Abs" ["t0"] ["a"].
Definition abs_b : Node := node "abs_b" "Abs" ["t0"] ["b"].
Definition abs_c : Node := node "abs_c" "Abs" ["t0"] ["c"].

Definition three_abs : Graph :=
  mkGraph [node "x" "Placeholder" [] ["t0"]; abs_a; abs_b; abs_c;
           node "u" "Neg" ["a"] ["u0"];
           node "v" "Sin" ["b"] ["v0"];
           node "w" "Cos" ["b"] ["w0"]]
          ["u0"; "v0"; "w0"].

(** [three_abs] once merged: the first Abs node is left, and the three
    consumers read its output. *)
Definition three_abs_merged : Graph :=
  mkGraph [node "x" "Placeholder" [] ["t0"]; abs_a;
           node "u" "Neg" ["a"] ["u0"];
           node "v" "Sin" ["a"] ["v0"];
           node "w" "Cos" ["a"] ["w0"]]
          ["u0"; "v0"; "w0"].

(** Two Abs nodes over one input, the unused one listed first. *)
Definition unused_first : Graph :=
  mkGraph [node "x" "Placeholder" [] ["t0"]; abs_c; abs_a;
           node "u" "Neg" ["a"] ["u0"]]
          ["u0"].

(** [unused_first] once merged: the unused Abs node is the one left. *)
Definition unused_first_merged : Graph :=
  mkGraph [node "x" "Placeholder" [] ["t0"]; abs_c;
           node "u" "Neg" ["c"] ["u0"]]
          ["u0"].

(** Two Abs nodes over one input, each read by a Neg node: the Neg nodes
    have the same input only once the Abs nodes have been merged. *)
Definition abs_then_neg : Graph :=
  mkGraph [node "x" "Placeholder" [] ["t0"]; abs_a; abs_b;
           node "neg_a" "Neg" ["a"] ["na"];
           node "neg_b" "Neg" ["b"] ["nb"];
           node "sum" "Add" ["na"; "nb"] ["s"]]
          ["s"].

Definition abs_then_neg_merged : Graph :=
  mkGraph [node "x" "Placeholder" [] ["t0"]; abs_a;
           node "neg_a" "Neg" ["a"] ["na"];
           node "sum" "Add" ["na"; "na"] ["s"]]
          ["s"].

(** Two Abs nodes over one input, the second one a graph output. *)
Definition abs_output : Graph :=
  mkGraph [node "x" "Placeholder" [] ["t0"]; abs_a; abs_b] ["b"].

(** A TensorFlow while loop over one counter:
    [while counter < limit: counter = counter + y]. *)
Definition loop_cond_node : Node :=
  node "while/LoopCond" "LoopCond" ["while/Less:0"] ["while/LoopCond:0"].
Definition switch_node : Node :=
  node "while/Switch" "Switch" ["while/Merge:0"; "while/LoopCond:0"]
       ["while/Switch:0"; "while/Switch:1"].
Definition merge_node : Node :=
  node "while/Merge" "Merge" ["while/Enter:0"; "while/NextIteration:0"]
       ["while/Merge:0"].

Definition while_nodes : list Node :=
  [ node "init" "Const" [] ["init:0"];
    node "while/Enter" "Enter" ["init:0"] ["while/Enter:0"];
    merge_node;
    node "limit" "Const" [] ["limit:0"];
    node "while/Less/Enter" "Enter" ["limit:0"] ["while/Less/Enter:0"];
    node "while/Less" "Less" ["while/Merge:0"; "while/Less/Enter:0"] ["while/Less:0"];
    loop_cond_node;
    switch_node;
    node "while/Identity" "Identity" ["while/Switch:1"] ["while/Identity:0"];
    node "while/add/y" "Const" [] ["while/add/y:0"];
    node "while/add" "Add" ["while/Identity:0"; "while/add/y:0"] ["while/add:0"];
    node "while/NextIteration" "NextIteration" ["while/add:0"] ["while/NextIteration:0"];
    node "while/Exit" "Exit" ["while/Switch:0"] ["while/Exit:0"] ].

Definition while_loop : Graph := mkGraph while_nodes ["while/Exit:0"].

(** The same loop in a graph that declares no outputs. *)
Definition while_loop_no_outputs : Graph := mkGraph while_nodes [].

(** The context of the loop once its LoopCond node has been found. *)
Definition while_context : Context :=
  mkContext None LoopProperties__init__ (Some loop_cond_node) None None.

(** The counter of the loop, as classification records it. *)
Definition counter : LoopVariable :=
  mkLoopVariable "while/Enter" (Some "init:0")
    (mkTensorValueInfo (Some "while/add:0"))
    (mkTensorValueInfo (Some "while/Identity:0"))
    (mkTensorValueInfo (Some "while/Exit:0"))
    false None.

(** A rewriter that takes every loop and reports success. *)
Definition accept_all : LoopRewriter :=
  {| need_rewrite _ _ := true; rewrite _ g := Ok (OK, g) |}.

(** A loop whose switch takes its data from an Add node, not from a Merge. *)
Definition add_switch : Node :=
  node "while/Switch" "Switch" ["while/add:0"; "while/LoopCond:0"]
       ["while/Switch:0"; "while/Switch:1"].

Definition switch_after_add : Graph :=
  mkGraph [ node "init" "Const" [] ["init:0"];
            node "while/add" "Add" ["init:0"; "init:0"] ["while/add:0"];
            node "while/Less" "Less" ["while/add:0"; "init:0"] ["while/Less:0"];
            loop_cond_node;
            add_switch;
            node "while/Exit" "Exit" ["while/Switch:0"] ["while/Exit:0"] ]
          ["while/Exit:0"].

(** A scan variable of the same name as the counter. *)
Definition counter_as_scan : LoopVariable :=
  mkLoopVariable "while/Enter" (Some "ta:0")
    (mkTensorValueInfo (Some "value:0"))
    (mkTensorValueInfo None) (mkTensorValueInfo None)
    true (Some "index:0").

(** The loop's context once its variables have been classified. *)
Definition while_context_parsed : Context :=
  mkContext (Some "while/") (mkLoopProperties [("while/Enter", counter)] [] [])
            (Some loop_cond_node) None None.

(** The loop with a second reader of the switch's true output. *)
Definition while_two_readers : Graph :=
  mkGraph (while_nodes ++
           [node "while/mul" "Mul" ["while/Switch:1"; "while/Switch:1"] ["while/mul:0"]])
          ["while/Exit:0"].

(** The loop with a Mul node, not an Identity, reading the true output. *)
Definition while_direct_reader : Graph :=
  mkGraph (filter (λ n, name n ≠ "while/Identity") while_nodes ++
           [node "while/mul" "Mul" ["while/Switch:1"; "while/Switch:1"] ["while/mul:0"]])
          ["while/Exit:0"].

(** The loop with nothing reading the true output. *)
Definition while_unused : Graph :=
  mkGraph (filter (λ n, name n ≠ "while/Identity") while_nodes) ["while/Exit:0"].

(** The loop after cutting and cropping, when no outputs are declared: the
    Identity node is gone, NextIteration reads the sentinel, and the
    condition reads the body-entry tensor and the limit directly. *)
Definition while_loop_cropped : Graph :=
  mkGraph
    [ node "init" "Const" [] ["init:0"];
      node "while/Enter" "Enter" ["init:0"] ["while/Enter:0"];
      merge_node;
      node "limit" "Const" [] ["limit:0"];
      node "while/Less/Enter" "Enter" ["limit:0"] ["while/Less/Enter:0"];
      node "while/Less" "Less" ["while/Identity:0"; "limit:0"] ["while/Less:0"];
      loop_cond_node;
      switch_node;
      node "while/add/y" "Const" [] ["while/add/y:0"];
      node "while/add" "Add" ["while/Identity:0"; "while/add/y:0"] ["while/add:0"];
      node "while/NextIteration" "NextIteration" [INVALID_INPUT_ID] ["while/NextIteration:0"];
      node "while/Exit" "Exit" ["while/Switch:0"] ["while/Exit:0"] ]
    [].

(** A rewriter that leaves the declared outputs alone. *)
Definition keeps_outputs (self : LoopRewriter) : Prop :=
  ∀ context g r g', rewrite context g = Ok (r, g') → outputs g' = outputs g.

(** Where a merge round stands with respect to the graph [g0] it started
    from: nothing has changed, or the flag is set and a node is gone. *)
Definition progress (g0 : Graph) (st : MergeDuplicatedNodesOptimizer.State) : Prop :=
  st = (MergeDuplicatedNodesOptimizer.mkOptimizer false, g0) ∨
  (MergeDuplicatedNodesOptimizer._graph_can_be_optimized st.1 = true ∧
   length (nodes st.2) < length (nodes g0)).

(** [g] descends from [g0]: same declared outputs, every node is a node of
    [g0] up to its inputs, and the nodes of [g0] that produce a graph output
    are still there. *)
Definition descends (g0 g : Graph) : Prop :=
  outputs g = outputs g0 ∧
  (∀ n, n ∈ nodes g → ∃ n0, n0 ∈ nodes g0 ∧ shell n0 = shell n) ∧
  (∀ n0, n0 ∈ nodes g0 →
         MergeDuplicatedNodesOptimizer.output_is_graph_output n0 g0 = true →
         ∃ n, n ∈ nodes g ∧ shell n = shell n0).

(** During a search over [g], the work set holds distinct nodes of the
    graph that are not in the result. *)
Definition work_ok (g : Graph) (res_set processing_set : list Node) : Prop :=
  NoDup processing_set ∧
  Forall (λ n, n ∈ nodes g ∧ n ∉ res_set) processing_set.

(** The nodes a search stopped at: Enter nodes, and Merge nodes, of the
    graph, each listed once. *)
Definition boundary_ok (g : Graph) (s : list Node * list Node) : Prop :=
  (NoDup s.1 ∧ Forall (λ n, type n = "Enter" ∧ n ∈ nodes g) s.1) ∧
  (NoDup s.2 ∧ Forall (λ n, type n = "Merge" ∧ n ∈ nodes g) s.2).

(* ===================================================================== *)
(** * Further functions and what the further properties speak about       *)
(* ===================================================================== *)

(** [LoopProperties.get_variables(checker)]: all the variables when no
    checker is given, else those the checker accepts. *)
Definition get_variables (self : LoopProperties)
    (checker : option (LoopVariable → bool)) : list LoopVariable :=
  match checker with
  | None => dict_values (all_variables self)
  | Some check => filter (λ v, check v = true) (dict_values (all_variables self))
  end.

(** The key under which the merge optimizer groups a node. *)
Definition group_key (n : Node) : string * list tensor_id := (type n, input n).

(** What makes two nodes duplicates: type, inputs and attributes. *)
Definition computation (n : Node)
    : string * list tensor_id * gmap string attr_value :=
  (type n, input n, attr n).

(** The two buckets as [add_variable] fills them: each variable under its
    own name, no name twice, the tensor arrays in the scan bucket and the
    others in the state bucket. *)
Definition bucketed (p : LoopProperties) : Prop :=
  NoDup (registered p) ∧
  Forall (λ kv, kv.1 = enter_name kv.2 ∧ is_tensor_array kv.2 = false)
         (state_variables p) ∧
  Forall (λ kv, kv.1 = enter_name kv.2 ∧ is_tensor_array kv.2 = true)
         (scan_variables p).

(** Whether a search goes on through a node: the answer of
    [find_input_boundary], which does not depend on what it has recorded. *)
Definition inside (input_ids : list tensor_id) (merge_as_end : bool)
    (n : Node) : bool :=
  (find_input_boundary input_ids merge_as_end n ([], [])).1.

(** A set of nodes that holds, with each node, the producers of its inputs
    that the search goes on through. *)
Definition closed_under_inputs (g : Graph) (through : Node → bool)
    (ns : list Node) : Prop :=
  ∀ n i p, n ∈ ns → i ∈ input n → get_node_by_output g i = Some p →
           through p = true → p ∈ ns.

(** The groups built from the nodes [l]: distinct keys, one for every key
    that occurs, each with the nodes of that key in their order. *)
Definition grouped (l : list Node)
    (res : list (MergeDuplicatedNodesOptimizer.Key * list Node)) : Prop :=
  NoDup res.*1 ∧
  Forall (λ kg, kg.2 ≠ [] ∧ kg.2 = filter (λ n, group_key n = kg.1) l) res ∧
  Forall (λ n, group_key n ∈ res.*1) l.

(** The nodes of [g], up to their inputs, are among those of [g0], in the
    same order, and the declared outputs are the same. *)
Definition thinned (g0 g : Graph) : Prop :=
  outputs g = outputs g0 ∧ shell <$> nodes g `sublist_of` shell <$> nodes g0.

(** [g] descends from [g0] with the skipped nodes of [g0] still there. *)
Definition keeps_skipped (g0 g : Graph) : Prop :=
  (∀ n, n ∈ nodes g → ∃ n0, n0 ∈ nodes g0 ∧ shell n0 = shell n) ∧
  (∀ n0, n0 ∈ nodes g0 → MergeDuplicatedNodesOptimizer._skip_node_type n0 = true →
         ∃ n, n ∈ nodes g ∧ shell n = shell n0).

(** The nodes of [l] with attributes [a] that produce no output of [g]. *)
Definition spare (g : Graph) (a : gmap string attr_value) (l : list Node)
    : list Node :=
  filter (λ m, MergeDuplicatedNodesOptimizer.output_is_graph_output m g = false ∧
               attr m = a) l.

(** No node of the graph reads [x]. *)
Definition unread (x : tensor_id) (g : Graph) : Prop :=
  Forall (λ n, x ∉ input n) (nodes g).

(** Whether a name holds a slash. *)
Fixpoint has_slash (s : string) : bool :=
  match s with
  | EmptyString => false
  | String c r => bool_decide (c = "/"%char) || has_slash r
  end.

(** How an input tensor array is read off a match of the pattern. *)
Definition read_off (m : ta_read_match) (ta : InputTensorArray) : Prop :=
  input (ta_input_scatter m) !! 2 = Some (data_input_id ta) ∧
  input (ta_read m) !! 1 = Some (index_input_id ta) ∧
  ∃ o, output (ta_read m) !! 0 = Some o ∧ utils.id (consumer ta) = Some o.

(** No node of the given kind reads [x]. *)
Definition unread_by (kind : Node → bool) (x : tensor_id) (g : Graph) : Prop :=
  Forall (λ n, kind n = true → x ∉ input n) (nodes g).

(** The feedback edge of a variable is cut: no tensor-array write (for a
    tensor array) or NextIteration node (otherwise) reads the variable's
    next-iteration tensor. *)
Definition feedback_cut (val : LoopVariable) (g : Graph) : Prop :=
  if is_tensor_array val
  then unread_by is_tensor_array_write_op (utils.id (next_iteration_input val)) g
  else unread_by (λ n, bool_decide (type n = "NextIteration"))
                 (utils.id (next_iteration_input val)) g.

(** Two Identity nodes over one input, each read by a Neg node. *)
Definition identity_b : Node := node "id_b" "Identity" ["t0"] ["b"].

Definition two_identities : Graph :=
  mkGraph [node "x" "Placeholder" [] ["t0"];
           node "id_a" "Identity" ["t0"] ["a"]; identity_b;
           node "u" "Neg" ["a"] ["u0"];
           node "v" "Neg" ["b"] ["v0"]]
          ["u0"; "v0"].

(** A tensor-array variable that accumulates the outputs of a loop. *)
Definition accumulator : LoopVariable :=
  mkLoopVariable "while/Enter_1" (Some "acc:0")
    (mkTensorValueInfo (Some "while/mul:0"))
    (mkTensorValueInfo (Some "while/Identity_1:0"))
    (mkTensorValueInfo (Some "gather:0"))
    true (Some "while/Identity:0").

(** The counter and the accumulator, each in its bucket. *)
Definition counter_and_accumulator : LoopProperties :=
  mkLoopProperties [("while/Enter", counter)] [("while/Enter_1", accumulator)] [].

(** The loop reading, in each iteration, one element of a tensor array
    filled before the loop. *)
Definition while_scan : Graph :=
  mkGraph (while_nodes ++
           [ node "ta" "TensorArrayV3" ["size:0"] ["ta:0"; "ta:1"];
             node "scatter" "TensorArrayScatterV3"
                  ["ta:0"; "indices:0"; "data:0"; "ta:1"] ["scatter:0"];
             node "while/read/Enter" "Enter" ["ta:0"] ["while/read/Enter:0"];
             node "while/read/Enter_1" "Enter" ["scatter:0"] ["while/read/Enter_1:0"];
             node "while/read" "TensorArrayReadV3"
                  ["while/read/Enter:0"; "while/Identity:0"; "while/read/Enter_1:0"]
                  ["while/read:0"] ])
          ["while/Exit:0"].

(** The context of [while_scan] once its input tensor array is found. *)
Definition while_context_scanned : Context :=
  mkContext (Some "while/")
    (mkLoopProperties [("while/Enter", counter)] []
       [InputTensorArray__init__ (Some "data:0") (Some "while/Identity:0")
                                 (Some "while/read:0")])
    (Some loop_cond_node) None None.

(** The loop once its body is cut off: the Identity node is gone and
    NextIteration reads the sentinel. *)
Definition while_loop_cut : Graph :=
  mkGraph
    [ node "init" "Const" [] ["init:0"];
      node "while/Enter" "Enter" ["init:0"] ["while/Enter:0"];
      merge_node;
      node "limit" "Const" [] ["limit:0"];
      node "while/Less/Enter" "Enter" ["limit:0"] ["while/Less/Enter:0"];
      node "while/Less" "Less" ["while/Merge:0"; "while/Less/Enter:0"] ["while/Less:0"];
      loop_cond_node;
      switch_node;
      node "while/add/y" "Const" [] ["while/add/y:0"];
      node "while/add" "Add" ["while/Identity:0"; "while/add/y:0"] ["while/add:0"];
      node "while/NextIteration" "NextIteration" [INVALID_INPUT_ID] ["while/NextIteration:0"];
      node "while/Exit" "Exit" ["while/Switch:0"] ["while/Exit:0"] ]
    ["while/Exit:0"].

(** A rewriter that takes every loop and fails on it. *)
Definition fail_all : LoopRewriter :=
  {| need_rewrite _ _ := true; rewrite _ g := Ok (FAIL, g) |}.

(** The context [run_internal] starts from for a LoopCond node. *)
Definition context_of (op : Node) : Context :=
  mkContext None LoopProperties__init__ (Some op) None None.

(** A node with its inputs passed through [f]. *)
Definition with_inputs (f : tensor_id → tensor_id) (n : Node) : Node :=
  mkNode (name n) (type n) (f <$> input n) (output n) (attr n).

(** The outputs of the nodes [deleted], each paired with the output of [r]
    at the same position. *)
Definition paired_outputs (r : Node) (deleted : list Node) : list (string * string) :=
  deleted ≫= (λ d, zip (output d) (output r)).

(** What a reader of [i] reads once the nodes [deleted] have been merged
    into [r]: the output of [r] at the same position when [i] is an output
    of one of them, else [i]. *)
Definition merged_tensor (r : Node) (deleted : list Node) (i : tensor_id) : tensor_id :=
  match i with
  | Some o =>
      from_option Some i ((list_to_map (paired_outputs r deleted) : gmap string string) !! o)
  | None => None
  end.

(** What a reader of [i] reads once the pairs have been replaced one after
    the other. *)
Definition replaced_in_turn (pairs : list (string * string)) (i : tensor_id) : tensor_id :=
  foldl (λ i '(old_input, new_input),
           if decide (i = Some old_input) then Some new_input else i) i pairs.

(** Two Split nodes over one input, with two outputs each. *)
Definition split_a : Node := node "split_a" "Split" ["t0"] ["a0"; "a1"].
Definition split_b : Node := node "split_b" "Split" ["t0"] ["b0"; "b1"].

Definition two_splits : Graph :=
  mkGraph [node "x" "Placeholder" [] ["t0"]; split_a; split_b;
           node "u" "Neg" ["b0"] ["u0"];
           node "v" "Neg" ["b1"] ["v0"];
           node "w" "Add" ["a0"; "b1"] ["w0"]]
          ["u0"; "v0"; "w0"].

(** [two_splits] once merged: the readers of the second Split node read
    the output of the first at the same position. *)
Definition two_splits_merged : Graph :=
  mkGraph [node "x" "Placeholder" [] ["t0"]; split_a;
           node "u" "Neg" ["a0"] ["u0"];
           node "v" "Neg" ["a1"] ["v0"];
           node "w" "Add" ["a0"; "a1"] ["w0"]]
          ["u0"; "v0"; "w0"].

(** The body-entry tensors of the variables of a loop: the ids, neither
    [None] nor empty, of their [switch_true_identity_output]. *)
Definition body_entries (p : LoopProperties) : list tensor_id :=
  filter (λ i, truthy i = true)
    ((λ v, utils.id (switch_true_identity_output v)) <$> get_variables p None).

(** The loop stacking, in a tensor array, the value of every iteration; the
    array is read after the loop by a size node and two gather nodes. *)
Definition switch_1 : Node :=
  node "while/Switch_1" "Switch" ["while/Merge_1:0"; "while/LoopCond:0"]
       ["while/Switch_1:0"; "while/Switch_1:1"].

Definition stack : Node :=
  node "stack" "TensorArrayGatherV3" ["acc:0"; "range:0"; "while/Exit_1:0"] ["stack:0"].

Definition while_stack : Graph :=
  mkGraph (while_nodes ++
           [ node "acc" "TensorArrayV3" ["limit:0"] ["acc:0"; "acc:1"];
             node "while/Enter_1" "Enter" ["acc:1"] ["while/Enter_1:0"];
             node "while/Merge_1" "Merge" ["while/Enter_1:0"; "while/NextIteration_1:0"]
                  ["while/Merge_1:0"];
             switch_1;
             node "while/Identity_1" "Identity" ["while/Switch_1:1"] ["while/Identity_1:0"];
             node "while/write" "TensorArrayWriteV3"
                  ["acc:0"; "while/Identity:0"; "while/add:0"; "while/Identity_1:0"]
                  ["while/write:0"];
             node "while/NextIteration_1" "NextIteration" ["while/write:0"]
                  ["while/NextIteration_1:0"];
             node "while/Exit_1" "Exit" ["while/Switch_1:0"] ["while/Exit_1:0"];
             node "size" "TensorArraySizeV3" ["acc:0"; "while/Exit_1:0"] ["size:0"];
             stack;
             node "stack_again" "TensorArrayGatherV3"
                  ["acc:0"; "range:0"; "while/Exit_1:0"] ["stack_again:0"] ])
          ["while/Exit:0"; "stack:0"; "stack_again:0"].

(** The tensor array of [while_stack], as classification records it. *)
Definition stacked : LoopVariable :=
  mkLoopVariable "while/Enter_1" (Some "acc:1")
    (mkTensorValueInfo (Some "while/add:0"))
    (mkTensorValueInfo (Some "while/Identity_1:0"))
    (mkTensorValueInfo (Some "stack:0"))
    true (Some "while/Identity:0").

(* ===================================================================== *)
(** * Properties                                                          *)
(* ===================================================================== *)

Import MergeDuplicatedNodesOptimizer.

(** ** The error monad *)

Lemma bind_Ok {A B} (m : result A) (k : A → result B) (b : B) :
  bind m k = Ok b → ∃ a, m = Ok a ∧ k a = Ok b.
Proof. destruct m as [a|e]; simpl; [eauto | discriminate]. Qed.

Lemma make_sure_Ok c fmt args : make_sure c fmt args = Ok () → c = true.
Proof. destruct c; [done | discriminate]. Qed.

Lemma index_Ok {A} (l : list A) i a : index l i = Ok a → l !! i = Some a.
Proof. unfold index. destruct (l !! i); congruence. Qed.

Lemma not_none_Ok {A} (o : option A) a : not_none o = Ok a → o = Some a.
Proof. destruct o; simpl; congruence. Qed.

(** A property kept by every turn of a loop is kept by the loop. *)
Lemma for_each_invariant {A St} (P : St → Prop) (body : St → A → result St) l :
  (∀ s x s', P s → body s x = Ok s' → P s') →
  ∀ s s', P s → for_each body l s = Ok s' → P s'.
Proof.
  intros Hbody. induction l as [|x l IH]; simpl; intros s s' Hs Hrun.
  - by inversion Hrun; subst.
  - apply bind_Ok in Hrun as (s1 & H1 & H2). eauto.
Qed.

(** ** Ordered dicts *)

Lemma dict_set_new {V} k (v : V) d : k ∉ d.*1 → dict_set k v d = d ++ [(k, v)].
Proof.
  induction d as [|[k' v'] d IH]; simpl; intros Hk; [done|].
  apply not_elem_of_cons in Hk as [Hne Hk].
  destruct (decide (k' = k)); [congruence|]. by rewrite IH.
Qed.

(** ** Registering a loop variable *)

(** C8.  Registering a variable: a name already in the scan bucket, or
    already in the state bucket, makes [add_variable] fail with the
    duplicate-declaration error; otherwise the variable goes last into the
    state bucket when it is not a tensor array and last into the scan
    bucket when it is, the other bucket staying as it was; and when no name
    was registered twice before, none is afterwards. *)
Theorem add_variable_registers_once (self : LoopProperties) (var : LoopVariable) :
  (enter_name var ∈ (scan_variables self).*1 →
   add_variable self var =
     Raise (MakeSureError "variable %s already exists as scan variable."
                          [enter_name var])) ∧
  (enter_name var ∉ (scan_variables self).*1 →
   enter_name var ∈ (state_variables self).*1 →
   add_variable self var =
     Raise (MakeSureError "variable %s already exists as state variable."
                          [enter_name var])) ∧
  (enter_name var ∉ registered self → is_tensor_array var = false →
   add_variable self var =
     Ok (mkLoopProperties (state_variables self ++ [(enter_name var, var)])
                          (scan_variables self) (tensor_array_inputs self))) ∧
  (enter_name var ∉ registered self → is_tensor_array var = true →
   add_variable self var =
     Ok (mkLoopProperties (state_variables self)
                          (scan_variables self ++ [(enter_name var, var)])
                          (tensor_array_inputs self))) ∧
  (∀ self', NoDup (registered self) → add_variable self var = Ok self' →
            NoDup (registered self')).
Proof.
  assert (Hscan : enter_name var ∈ (scan_variables self).*1 →
                  add_variable self var =
                    Raise (MakeSureError "variable %s already exists as scan variable."
                                         [enter_name var])).
  { intros Hin. unfold add_variable, dict_contains.
    by rewrite bool_decide_eq_true_2. }
  assert (Hstate : enter_name var ∉ (scan_variables self).*1 →
                   enter_name var ∈ (state_variables self).*1 →
                   add_variable self var =
                     Raise (MakeSureError "variable %s already exists as state variable."
                                          [enter_name var])).
  { intros Hout Hin. unfold add_variable, dict_contains.
    rewrite bool_decide_eq_false_2 by done. simpl.
    by rewrite bool_decide_eq_true_2. }
  assert (Hfresh : enter_name var ∉ registered self →
                   add_variable self var =
                     Ok (if is_tensor_array var
                         then mkLoopProperties (state_variables self)
                                (scan_variables self ++ [(enter_name var, var)])
                                (tensor_array_inputs self)
                         else mkLoopProperties
                                (state_variables self ++ [(enter_name var, var)])
                                (scan_variables self) (tensor_array_inputs self))).
  { intros Hout. unfold registered in Hout.
    apply not_elem_of_app in Hout as [Hst Hsc].
    unfold add_variable, dict_contains.
    rewrite !bool_decide_eq_false_2 by done. simpl.
    destruct (is_tensor_array var); simpl; by rewrite dict_set_new. }
  repeat split; try done.
  - intros Hout Hta. by rewrite Hfresh, Hta.
  - intros Hout Hta. by rewrite Hfresh, Hta.
  - intros self' Hnd Hadd.
    destruct (decide (enter_name var ∈ registered self)) as [Hin|Hout].
    + unfold registered in Hin. apply elem_of_app in Hin.
      destruct (decide (enter_name var ∈ (scan_variables self).*1)).
      * rewrite Hscan in Hadd by done. discriminate.
      * rewrite Hstate in Hadd by tauto. discriminate.
    + rewrite Hfresh in Hadd by done. inversion Hadd; subst; clear Hadd.
      unfold registered in *.
      destruct (is_tensor_array var); simpl; rewrite fmap_app; simpl.
      * rewrite app_assoc. apply NoDup_app. split_and!; [done| |apply NoDup_singleton].
        intros x Hx Hx'. apply list_elem_of_singleton in Hx'. by subst.
      * rewrite <- app_assoc. simpl.
        apply NoDup_app in Hnd as (H1 & H2 & H3).
        apply not_elem_of_app in Hout as [Ho1 Ho2].
        apply NoDup_app. split_and!; [done| |by apply NoDup_cons].
        intros x Hx Hx'. apply elem_of_cons in Hx' as [->|Hx']; [done|]. by eapply H2.
Qed.

Lemma add_variable_registers_once_witness :
  add_variable LoopProperties__init__ counter =
    Ok (mkLoopProperties [("while/Enter", counter)] [] []) ∧
  add_variable LoopProperties__init__ counter_as_scan =
    Ok (mkLoopProperties [] [("while/Enter", counter_as_scan)] []) ∧
  add_variable (mkLoopProperties [("while/Enter", counter)] [] []) counter_as_scan =
    Raise (MakeSureError "variable %s already exists as state variable."
                         ["while/Enter"]) ∧
  add_variable (mkLoopProperties [] [("while/Enter", counter_as_scan)] []) counter =
    Raise (MakeSureError "variable %s already exists as scan variable."
                         ["while/Enter"]).
Proof.
  split_and!.
  - apply (add_variable_registers_once LoopProperties__init__ counter).
    + vm_compute. apply not_elem_of_nil.
    + reflexivity.
  - apply (add_variable_registers_once LoopProperties__init__ counter_as_scan).
    + vm_compute. apply not_elem_of_nil.
    + reflexivity.
  - apply (add_variable_registers_once
             (mkLoopProperties [("while/Enter", counter)] [] []) counter_as_scan).
    + simpl. apply not_elem_of_nil.
    + simpl. apply list_elem_of_singleton. reflexivity.
  - apply (add_variable_registers_once
             (mkLoopProperties [] [("while/Enter", counter_as_scan)] []) counter).
    simpl. apply list_elem_of_singleton. reflexivity.
Defined.

(** ** A switch that does not follow a merge *)

(** A consumer of the loop condition that is not a Switch is reported with
    a [ValueError]. *)
Lemma parse_switch_not_a_switch g context s :
  type s ≠ "Switch" →
  parse_switch g context s =
    Raise (ValueError "LoopCond's output node should be followed with a Switch node" []).
Proof. intros Hs. unfold parse_switch. by rewrite decide_True. Qed.

(** C3, as the code behaves.  For a Switch node whose first operand has no
    producer, or a producer that is not a Merge node,
    [_get_loop_var_from_switch] logs and returns [None] (or reads the type
    of [None]), and registering the result raises [AttributeError] rather
    than the [ValueError] with which the rewriter reports a violated
    structural assumption.  No variable is recorded. *)
Theorem switch_without_merge_raises_attribute_error
    (g : Graph) (context : Context) (s : Node) (producer : option Node) :
  type s = "Switch" →
  inputs g s !! 0 = Some producer →
  (∀ m, producer = Some m → type m ≠ "Merge") →
  parse_switch g context s = Raise AttributeError.
Proof.
  intros Hs Hin Hm. unfold parse_switch, _get_loop_var_from_switch, index.
  rewrite !decide_False by (intros ?; congruence).
  rewrite Hin. simpl.
  destruct producer as [m|]; simpl; [|done].
  by rewrite decide_True by eauto.
Qed.

Lemma switch_without_merge_raises_attribute_error_witness :
  parse_switch switch_after_add while_context add_switch = Raise AttributeError ∧
  _parse_loop_variables switch_after_add while_context = Raise AttributeError.
Proof.
  split.
  - apply (switch_without_merge_raises_attribute_error
             switch_after_add while_context add_switch
             (Some (node "while/add" "Add" ["init:0"; "init:0"] ["while/add:0"]))).
    + reflexivity.
    + reflexivity.
    + intros m Hm. inversion Hm. simpl. discriminate.
  - reflexivity.
Defined.

(** ** The edge out of the loop condition *)

Lemma replace_input_absent old new n : old ∉ input n → replace_input old new n = n.
Proof.
  intros Hout. destruct n as [nm ty ins outs attrs]. unfold replace_input. simpl in *.
  f_equal. induction ins as [|i ins IH]; [done|].
  apply not_elem_of_cons in Hout as [Hne Hout]. simpl.
  rewrite decide_False by congruence. f_equal. by apply IH.
Qed.

(** C2, as the code behaves.  The statement at line 304 rewires the loop
    condition's output within the node set that holds the loop-condition
    node alone; as long as that node does not read its own output the graph
    is left as it was, and the consumers of the loop condition's output (the
    Switch nodes) still read it. *)
Theorem loop_cond_output_stays_connected (g : Graph) (loop_cond : Node) (o : string) :
  output loop_cond !! 0 = Some o →
  Forall (λ n, name n = name loop_cond → Some o ∉ input n) (nodes g) →
  cut_off_loop_cond g loop_cond = Ok g ∧
  ∀ g', cut_off_loop_cond g loop_cond = Ok g' →
        find_output_consumers g' o = find_output_consumers g o.
Proof.
  intros Ho Hself.
  assert (Hsame : cut_off_loop_cond g loop_cond = Ok g).
  { unfold cut_off_loop_cond, index. rewrite Ho. simpl. f_equal.
    destruct g as [ns outs]. unfold replace_all_inputs. simpl in *. f_equal.
    induction Hself as [|n ns Hn Hns IH]; [done|]. rewrite fmap_cons.
    f_equal; [|exact IH]. case_decide as Hin; [|done].
    apply list_elem_of_singleton in Hin. by apply replace_input_absent, Hn. }
  split; [done|]. intros g' Hg'. rewrite Hsame in Hg'. by inversion Hg'.
Qed.

Lemma loop_cond_output_stays_connected_witness :
  cut_off_loop_cond while_loop loop_cond_node = Ok while_loop ∧
  find_output_consumers while_loop "while/LoopCond:0" = [switch_node].
Proof.
  destruct (loop_cond_output_stays_connected while_loop loop_cond_node
              "while/LoopCond:0") as [Hsame _].
  - reflexivity.
  - vm_compute. repeat constructor; intros Hname; try discriminate Hname.
    intros Hin. apply list_elem_of_singleton in Hin. discriminate Hin.
  - split; [exact Hsame | reflexivity].
Defined.

(** Cropping the condition subgraph of the loop leaves the Switch node
    reading the loop condition's output. *)
Example crop_leaves_switch_on_loop_cond :
  match _crop_loop_condition_sub_graph while_loop while_context_parsed with
  | Ok (g', _) => (λ n, (name n, input n)) <$> find_output_consumers g' "while/LoopCond:0"
  | Raise _ => []
  end = [("while/Switch", [Some "while/Merge:0"; Some "while/LoopCond:0"])].
Proof. reflexivity. Qed.

(** ** The true branch of a switch *)

Lemma index_Some {A} (l : list A) i a : l !! i = Some a → index l i = Ok a.
Proof. unfold index. by intros ->. Qed.

(** Take a successful run of binds apart, one step at a time. *)
Ltac bind_inv H :=
  let a := fresh "a" in
  let Ha := fresh "Ha" in
  apply bind_Ok in H as (a & Ha & H).

Lemma LoopVariable__init___Ok nm init next sti ex ta idx v :
  LoopVariable__init__ nm init next sti ex ta idx = Ok v →
  utils.id (switch_true_identity_output v) = sti ∧ enter_name v = nm ∧
  is_tensor_array v = ta.
Proof.
  unfold LoopVariable__init__. intros H. bind_inv H. by inversion H; subst.
Qed.

(** Past the Switch and Merge tests, the body-entry reference of the
    variable is what the true branch gave, and [None] is not returned. *)
Lemma get_loop_var_past_merge g s m :
  type s = "Switch" → inputs g s !! 0 = Some (Some m) → type m = "Merge" →
  _get_loop_var_from_switch g s ≠ Ok None ∧
  (∀ e, switch_true_branch g s = Raise e →
        _get_loop_var_from_switch g s = Raise e) ∧
  (∀ v, _get_loop_var_from_switch g s = Ok (Some v) →
        switch_true_branch g s = Ok (utils.id (switch_true_identity_output v))).
Proof.
  intros Hs Hin Hm. unfold _get_loop_var_from_switch, index.
  rewrite decide_False by (intros ?; congruence).
  rewrite Hin. simpl. rewrite decide_False by (intros ?; congruence).
  destruct (switch_true_branch g s) as [sti|e]; simpl.
  2: { split_and!; [done| by intros ? [= ->] | done]. }
  split_and!; [| done |].
  - intros H. repeat bind_inv H.
    destruct (is_tensor_array_op _).
    + repeat bind_inv H. discriminate.
    + bind_inv H. discriminate.
  - intros v H. repeat bind_inv H. f_equal.
    destruct (is_tensor_array_op _).
    + repeat bind_inv H. inversion H; subst.
      symmetry. eapply LoopVariable__init___Ok; eauto.
    + bind_inv H. inversion H; subst.
      symmetry. eapply LoopVariable__init___Ok; eauto.
Qed.

(** C4.  For a Switch node whose first operand is produced by a Merge node
    and whose true output is [t]: classification never returns [None];
    with no consumer of [t], a variable that is returned has no body-entry
    reference; with exactly one consumer, of type Identity, a variable that
    is returned has that node's first output as body-entry reference; with
    exactly one consumer of another type, classification raises the
    [ValueError] for a consumer that is not Identity; with two or more
    consumers it raises the [ValueError] for an unexpected count. *)
Theorem switch_true_branch_handling (g : Graph) (s m : Node) (t : string) :
  type s = "Switch" →
  inputs g s !! 0 = Some (Some m) →
  type m = "Merge" →
  output s !! 1 = Some t →
  _get_loop_var_from_switch g s ≠ Ok None ∧
  match find_output_consumers g t with
  | [] =>
      ∀ v, _get_loop_var_from_switch g s = Ok (Some v) →
           utils.id (switch_true_identity_output v) = None
  | [c] =>
      if decide (type c = "Identity") then
        ∀ v, _get_loop_var_from_switch g s = Ok (Some v) →
             ∃ o, output c !! 0 = Some o ∧
                  utils.id (switch_true_identity_output v) = Some o
      else
        _get_loop_var_from_switch g s =
          Raise (ValueError "switch has consumer that is not Identity" [])
  | c :: c' :: cs =>
      _get_loop_var_from_switch g s =
        Raise (ValueError
                 (String.append "switch_true "
                    (String.append (name s) " has unexpected count of consumers:"))
                 (name <$> c :: c' :: cs))
  end.
Proof.
  intros Hs Hin Hm Ht.
  destruct (get_loop_var_past_merge g s m Hs Hin Hm) as (Hsome & Hraise & Hok).
  split; [done|].
  unfold switch_true_branch in Hraise, Hok.
  rewrite (index_Some _ _ _ Ht) in Hraise, Hok. simpl in Hraise, Hok.
  destruct (find_output_consumers g t) as [|c [|c' cs]].
  - intros v Hv. apply Hok in Hv. by inversion Hv.
  - destruct (decide (type c = "Identity")) as [Hid|Hid].
    + intros v Hv. apply Hok in Hv.
      rewrite decide_False in Hv by (intros ?; congruence).
      apply bind_Ok in Hv as (o & Ho & Hv). apply index_Ok in Ho.
      exists o. split; [done|]. by inversion Hv.
    + apply Hraise. by rewrite decide_True.
  - by apply Hraise.
Qed.

Lemma switch_true_branch_handling_witness :
  _get_loop_var_from_switch while_loop switch_node = Ok (Some counter) ∧
  ∃ o, output (node "while/Identity" "Identity" ["while/Switch:1"] ["while/Identity:0"]) !! 0
         = Some o ∧
       utils.id (switch_true_identity_output counter) = Some o.
Proof.
  split; [reflexivity|].
  destruct (switch_true_branch_handling while_loop switch_node merge_node
              "while/Switch:1") as [_ H]; [reflexivity..|].
  apply (H counter). reflexivity.
Defined.

Example switch_true_unused :
  ∃ v, _get_loop_var_from_switch while_unused switch_node = Ok (Some v) ∧
       utils.id (switch_true_identity_output v) = None.
Proof. eexists. split; reflexivity. Qed.

Example switch_true_not_identity :
  _get_loop_var_from_switch while_direct_reader switch_node =
    Raise (ValueError "switch has consumer that is not Identity" []).
Proof. reflexivity. Qed.

Example switch_true_two_consumers :
  _get_loop_var_from_switch while_two_readers switch_node =
    Raise (ValueError "switch_true while/Switch has unexpected count of consumers:"
                      ["while/Identity"; "while/mul"]).
Proof. reflexivity. Qed.

(** ** The loop rewriter leaves the declared outputs alone *)

Lemma for_each_outputs {A} (body : Graph → A → result Graph) l g g' :
  (∀ s x s', body s x = Ok s' → outputs s' = outputs s) →
  for_each body l g = Ok g' → outputs g' = outputs g.
Proof.
  intros Hbody. apply (for_each_invariant (λ s, outputs s = outputs g)); [|done].
  intros s x s' Hs Hx. apply Hbody in Hx. congruence.
Qed.

Lemma connect_enter_outputs ops g enter g' :
  connect_enter ops g enter = Ok g' → outputs g' = outputs g.
Proof. unfold connect_enter. intros H. repeat bind_inv H. by inversion H. Qed.

Lemma cut_off_variable_outputs g val g' :
  cut_off_variable g val = Ok g' → outputs g' = outputs g.
Proof.
  unfold cut_off_variable. intros H. bind_inv H.
  assert (outputs a = outputs g) as <-.
  { destruct (truthy _); [bind_inv Ha|]; by inversion Ha. }
  destruct (is_tensor_array val); by inversion H.
Qed.

Lemma _cut_off_connection_for_cell_outputs g context g' :
  _cut_off_connection_for_cell g context = Ok g' → outputs g' = outputs g.
Proof.
  unfold _cut_off_connection_for_cell. intros H. bind_inv H.
  transitivity (outputs a).
  - revert H. apply for_each_outputs.
    intros s x s' Hx. bind_inv Hx. by inversion Hx; subst.
  - revert Ha. apply for_each_outputs, cut_off_variable_outputs.
Qed.

Lemma _crop_loop_body_sub_graph_outputs g context g' info :
  _crop_loop_body_sub_graph g context = Ok (g', info) → outputs g' = outputs g.
Proof.
  unfold _crop_loop_body_sub_graph.
  destruct (find_subgraph _ _ _ _) as [[ops enters] merges]. intros H.
  bind_inv H. inversion H; subst. revert Ha.
  apply for_each_outputs, connect_enter_outputs.
Qed.

Lemma cut_off_merge_outputs context s m s' :
  cut_off_merge context s m = Ok s' → outputs s'.1 = outputs s.1.
Proof.
  destruct s as [g deps]. unfold cut_off_merge. intros H.
  repeat bind_inv H. by inversion H.
Qed.

Lemma _crop_loop_condition_sub_graph_outputs g context g' info :
  _crop_loop_condition_sub_graph g context = Ok (g', info) →
  outputs g' = outputs g.
Proof.
  unfold _crop_loop_condition_sub_graph. intros H. do 2 bind_inv H.
  destruct (find_subgraph _ _ _ _) as [[ops enters] merges].
  bind_inv H. bind_inv H. destruct a2 as [g2 deps]. bind_inv H.
  inversion H; subst.
  unfold cut_off_loop_cond in Ha3. bind_inv Ha3. inversion Ha3; subst. simpl.
  transitivity (outputs a1).
  - change g2 with (g2, deps).1. revert Ha2.
    apply (for_each_invariant (λ s, outputs s.1 = outputs a1)); [|done].
    intros s x s' Hs Hx. apply cut_off_merge_outputs in Hx. congruence.
  - revert Ha1. apply for_each_outputs, connect_enter_outputs.
Qed.

Lemma handle_loop_conds_outputs self g g' :
  keeps_outputs self → handle_loop_conds self g = Ok g' → outputs g' = outputs g.
Proof.
  intros Hself. unfold handle_loop_conds.
  generalize (filter (λ op, is_loopcond_op op = true) (get_nodes g)).
  intros ops. apply for_each_outputs.
  intros s op s' H. unfold handle_loop_cond in H.
  apply bind_Ok in H as (context & _ & H).
  destruct (need_rewrite context s); [|by inversion H; subst].
  apply bind_Ok in H as (g0 & H0 & H).
  apply bind_Ok in H as ([g1 cell] & H1 & H).
  apply bind_Ok in H as ([g2 cond] & H2 & H).
  apply bind_Ok in H as ([r g3] & H3 & H).
  apply _cut_off_connection_for_cell_outputs in H0.
  apply _crop_loop_body_sub_graph_outputs in H1.
  apply _crop_loop_condition_sub_graph_outputs in H2.
  apply Hself in H3.
  destruct r; inversion H; subst; congruence.
Qed.

(** The graph declares no outputs at the end when it declared none at the
    start and the rewriter leaves the declared outputs alone. *)
Lemma no_outputs_at_the_end self g g1 :
  keeps_outputs self → outputs g = [] → handle_loop_conds self g = Ok g1 →
  outputs g1 = [].
Proof. intros Hself Hg Hrun. by rewrite (handle_loop_conds_outputs self g g1). Qed.

(** C9.  When the graph declares no outputs (once the loops have been
    handled; or from the start, with a rewriter that leaves the declared
    outputs alone), the cleanup is skipped: [clean_up] leaves the graph as
    the loop handling left it and [run_internal] returns all its nodes,
    reached from an output or not. *)
Theorem no_outputs_skips_cleanup (self : LoopRewriter) (g g1 : Graph) :
  handle_loop_conds self g = Ok g1 →
  outputs g1 = [] ∨ (keeps_outputs self ∧ outputs g = []) →
  clean_up g1 = g1 ∧ run_internal self g = Ok (g1, nodes g1).
Proof.
  intros Hloops Houts.
  assert (Hnone : outputs g1 = []).
  { destruct Houts as [Houts|[Hself Hg]]; [done|].
    by apply (no_outputs_at_the_end self g). }
  assert (Hclean : clean_up g1 = g1).
  { unfold clean_up. by rewrite Hnone, bool_decide_eq_false_2 by (intros ?; done). }
  split; [done|]. unfold run_internal. rewrite Hloops. simpl. by rewrite Hclean.
Qed.

Lemma no_outputs_skips_cleanup_witness :
  handle_loop_conds accept_all while_loop_no_outputs = Ok while_loop_cropped ∧
  outputs while_loop_no_outputs = [] ∧
  clean_up while_loop_cropped = while_loop_cropped ∧
  run_internal accept_all while_loop_no_outputs =
    Ok (while_loop_cropped, nodes while_loop_cropped).
Proof.
  assert (H : handle_loop_conds accept_all while_loop_no_outputs =
              Ok while_loop_cropped) by reflexivity.
  split; [exact H|]. split; [reflexivity|].
  apply (no_outputs_skips_cleanup accept_all while_loop_no_outputs
           while_loop_cropped H).
  right. split; [|reflexivity].
  intros context g r g' Hrw. simpl in Hrw. by inversion Hrw.
Defined.

(** With a declared output the same loop loses the nodes the output does
    not depend on: the body and the Enter node of the limit. *)
Example cleanup_drops_unreached_nodes :
  match run_internal accept_all while_loop with
  | Ok (_, ns) => name <$> ns
  | Raise _ => []
  end = ["init"; "while/Enter"; "while/Merge"; "limit"; "while/Less";
         "while/LoopCond"; "while/Switch"; "while/NextIteration"; "while/Exit"].
Proof. reflexivity. Qed.

(** ** The bounded loops never stop for lack of turns *)

Lemma del_nodes_loop_turns t1 t2 ns st :
  length ns ≤ t1 → length ns ≤ t2 →
  del_nodes_loop t1 ns st = del_nodes_loop t2 ns st.
Proof.
  revert t2 ns st. induction t1 as [|t1 IH]; intros t2 ns st H1 H2.
  - destruct ns; simpl in *; [|lia]. by destruct t2.
  - destruct ns as [|first [|second others]]; simpl.
    + by destruct t2.
    + by destruct t2.
    + destruct t2 as [|t2]; simpl in *; [lia|].
      apply IH.
      * pose proof (length_filter (λ node, attr node ≠ attr first) (second :: others)).
        simpl in *. lia.
      * pose proof (length_filter (λ node, attr node ≠ attr first) (second :: others)).
        simpl in *. lia.
Qed.

Lemma set_add_NoDup {A} `{EqDecision A} (x : A) s : NoDup s → NoDup (set_add x s).
Proof.
  intros Hs. unfold set_add. case_decide; [done|].
  apply NoDup_app. split_and!; [done| |apply NoDup_singleton].
  intros y Hy Hy'. apply list_elem_of_singleton in Hy'. by subst.
Qed.

Lemma elem_of_set_add {A} `{EqDecision A} (x y : A) s :
  y ∈ set_add x s ↔ y = x ∨ y ∈ s.
Proof.
  unfold set_add. case_decide.
  - split; [by right|]. by intros [->|].
  - rewrite elem_of_app, list_elem_of_singleton. tauto.
Qed.

Lemma get_node_by_output_elem g o n : get_node_by_output g o = Some n → n ∈ nodes g.
Proof.
  destruct o as [s|]; simpl; [|done]. intros H.
  apply find_some in H as [H _]. by apply list_elem_of_In.
Qed.

Section extract_turns.
Context {St : Type} (g : Graph) (input_checker : Node → St → bool * St).

Lemma visit_input_work_ok res_set acc input_id :
  work_ok g res_set acc.1 →
  work_ok g res_set (visit_input g input_checker res_set acc input_id).1.
Proof.
  intros [Hnd Hall]. unfold visit_input.
  destruct (get_node_by_output g input_id) as [n|] eqn:Hn; [|done].
  case_decide as Hin; [done|].
  destruct (input_checker n acc.2) as [[|] s]; simpl; [|done].
  split; [by apply set_add_NoDup|].
  apply Forall_forall. intros x Hx. apply elem_of_set_add in Hx as [->|Hx].
  - split; [by eapply get_node_by_output_elem|done].
  - by eapply Forall_forall in Hall.
Qed.

Lemma foldl_visit_input_work_ok res_set ins acc :
  work_ok g res_set acc.1 →
  work_ok g res_set (foldl (visit_input g input_checker res_set) acc ins).1.
Proof.
  revert acc. induction ins as [|i ins IH]; intros acc Hacc; simpl; [done|].
  by apply IH, visit_input_work_ok.
Qed.

(** With the result and the work set distinct nodes of the graph, turns
    beyond what the nodes not yet in the result need are never used. *)
Lemma extract_loop_turns t1 t2 processing_set res_set s :
  NoDup res_set → Forall (λ n, n ∈ nodes g) res_set →
  work_ok g res_set processing_set →
  length (nodes g) ≤ length res_set + t1 →
  length (nodes g) ≤ length res_set + t2 →
  extract_loop g input_checker t1 processing_set res_set s =
  extract_loop g input_checker t2 processing_set res_set s.
Proof.
  assert (Hfull : ∀ res proc, NoDup res → Forall (λ n, n ∈ nodes g) res →
                    work_ok g res proc → length (nodes g) ≤ length res → proc = []).
  { intros res proc Hnd Hres [Hpnd Hproc] Hlen.
    destruct proc as [|top rest]; [done|]. exfalso.
    inversion Hproc as [|? ? [Htop Hnot] _]; subst.
    assert (NoDup (top :: res)) as Hnd' by by constructor.
    assert (top :: res ⊆ nodes g) as Hsub.
    { intros x Hx. apply elem_of_cons in Hx as [->|Hx]; [done|].
      by eapply Forall_forall in Hres. }
    pose proof (submseteq_length _ _ (NoDup_submseteq _ _ Hnd' (λ x Hx, Hsub x Hx))).
    simpl in *. lia. }
  revert t2 processing_set res_set s.
  induction t1 as [|t1 IH]; intros t2 proc res s Hnd Hres Hwork H1 H2.
  - rewrite (Hfull res proc) by (done || lia). by destruct t2.
  - destruct proc as [|top rest]; [by destruct t2|].
    destruct t2 as [|t2].
    { by rewrite (Hfull res (top :: rest)) in Hwork |- * by (done || lia). }
    simpl.
    destruct Hwork as [Hpnd Hproc].
    inversion Hproc as [|? ? [Htop Hnot] Hrest]; subst.
    apply NoDup_cons in Hpnd as [Htop' Hpnd].
    assert (set_add top res = res ++ [top]) as Hadd.
    { unfold set_add. by rewrite decide_False. }
    assert (work_ok g (set_add top res) rest) as Hwork'.
    { split; [done|]. apply Forall_forall. intros x Hx.
      pose proof (proj1 (Forall_forall _ _) Hrest x Hx) as [Hxg Hxr].
      split; [done|]. rewrite elem_of_set_add. intros [->|]; done. }
    pose proof (foldl_visit_input_work_ok (set_add top res) (input top) (rest, s) Hwork')
      as Hnext.
    destruct (foldl (visit_input g input_checker (set_add top res)) (rest, s) (input top))
      as [proc' s'].
    apply IH; try done.
    + by apply set_add_NoDup.
    + apply Forall_forall. intros x Hx. apply elem_of_set_add in Hx as [->|Hx]; [done|].
      by eapply Forall_forall in Hres.
    + rewrite Hadd, length_app. simpl. lia.
    + rewrite Hadd, length_app. simpl. lia.
Qed.

(** The search from one node is the same however many turns beyond the
    number of nodes it is given. *)
Lemma extract_loop_enough_turns node s extra :
  node ∈ nodes g →
  extract_loop g input_checker (length (nodes g) + extra) [node] [] s =
  extract_loop g input_checker (length (nodes g)) [node] [] s.
Proof.
  intros Hnode. apply extract_loop_turns; simpl; try lia.
  - constructor.
  - constructor.
  - split; [apply NoDup_singleton|]. repeat constructor; [done|apply not_elem_of_nil].
Qed.
End extract_turns.


(** ** What the search records *)

Section extract_state.
Context {St : Type} (g : Graph) (input_checker : Node → St → bool * St).
Context (I : St → Prop).
Hypothesis checker_keeps : ∀ n s, n ∈ nodes g → I s → I (input_checker n s).2.

Lemma visit_input_state res_set acc input_id :
  I acc.2 → I (visit_input g input_checker res_set acc input_id).2.
Proof.
  intros Hacc. unfold visit_input.
  destruct (get_node_by_output g input_id) as [n|] eqn:Hn; [|done].
  case_decide; [done|].
  pose proof (checker_keeps n acc.2 (get_node_by_output_elem _ _ _ Hn) Hacc) as Hs.
  destruct (input_checker n acc.2) as [[|] s]; done.
Qed.

Lemma foldl_visit_input_state res_set ins acc :
  I acc.2 → I (foldl (visit_input g input_checker res_set) acc ins).2.
Proof.
  revert acc. induction ins as [|i ins IH]; intros acc Hacc; simpl; [done|].
  by apply IH, visit_input_state.
Qed.

Lemma extract_loop_state turns processing_set res_set s :
  I s → I (extract_loop g input_checker turns processing_set res_set s).2.
Proof.
  revert processing_set res_set s.
  induction turns as [|turns IH]; intros proc res s Hs; simpl; [done|].
  destruct proc as [|top rest]; [done|].
  pose proof (foldl_visit_input_state (set_add top res) (input top) (rest, s) Hs) as Hnext.
  destruct (foldl (visit_input g input_checker (set_add top res)) (rest, s) (input top))
    as [proc' s'].
  by apply IH.
Qed.

Lemma extract_from_state dest_node s :
  (∀ n, dest_node = Some n → n ∈ nodes g) →
  I s → I (extract_from g input_checker dest_node s).2.
Proof.
  intros Hdest Hs. unfold extract_from. destruct dest_node as [n|]; [|done].
  pose proof (checker_keeps n s (Hdest n eq_refl) Hs) as Hs'.
  destruct (input_checker n s) as [[|] s']; [|done].
  by apply extract_loop_state.
Qed.

Lemma extract_sub_graph_nodes_state outputs_name s :
  I s → I (extract_sub_graph_nodes g input_checker outputs_name s).2.
Proof.
  intros Hs. unfold extract_sub_graph_nodes.
  assert (H : ∀ acc : list Node * St, I acc.2 →
            I (foldl (λ acc output,
                        let '(found, s) :=
                          extract_from g input_checker (get_node_by_output g output) acc.2 in
                        (foldl (λ res n, set_add n res) acc.1 found, s))
                     acc outputs_name).2).
  { induction outputs_name as [|o outs IH]; intros acc Hacc; simpl; [done|].
    apply IH.
    pose proof (extract_from_state (get_node_by_output g o) acc.2
                  (λ n Hn, get_node_by_output_elem _ _ _ Hn) Hacc) as Hs'.
    by destruct (extract_from g input_checker (get_node_by_output g o) acc.2). }
  by apply (H ([], s)).
Qed.
End extract_state.

Lemma set_add_Forall {A} `{EqDecision A} (P : A → Prop) x s :
  P x → Forall P s → Forall P (set_add x s).
Proof.
  intros Hx Hs. apply Forall_forall. intros y Hy.
  apply elem_of_set_add in Hy as [->|Hy]; [done|]. by eapply Forall_forall in Hs.
Qed.

Lemma find_input_boundary_ok g input_ids merge_as_end n s :
  n ∈ nodes g → boundary_ok g s →
  boundary_ok g (find_input_boundary input_ids merge_as_end n s).2.
Proof.
  intros Hn [[He1 He2] [Hm1 Hm2]]. unfold find_input_boundary.
  case_decide as Henter.
  { simpl. split; [|done]. split; [by apply set_add_NoDup|by apply set_add_Forall]. }
  destruct merge_as_end; simpl.
  - case_bool_decide as Hmerge; simpl.
    { split; [done|]. split; [by apply set_add_NoDup|by apply set_add_Forall]. }
    destruct (is_const n); [done|]. by case_bool_decide.
  - destruct (is_const n); [done|]. by case_bool_decide.
Qed.

Lemma find_subgraph_boundary input_ids output_ids g merge_as_end ops enters merges :
  find_subgraph input_ids output_ids g merge_as_end = (ops, enters, merges) →
  boundary_ok g (enters, merges).
Proof.
  unfold find_subgraph.
  pose proof (extract_sub_graph_nodes_state g
                (find_input_boundary input_ids merge_as_end) (boundary_ok g)
                (λ n s, find_input_boundary_ok g input_ids merge_as_end n s)
                output_ids ([], [])) as H.
  destruct (extract_sub_graph_nodes g _ output_ids ([], [])) as [ns [es ms]].
  intros [= <- <- <-]. apply H.
  repeat split; constructor.
Qed.

(** ** Sorting by the number of outputs *)

Lemma sort_insert_Permutation n l : sort_insert n l ≡ₚ n :: l.
Proof.
  induction l as [|m l IH]; simpl; [done|].
  case_decide; [|done]. rewrite IH. apply Permutation_swap.
Qed.

Lemma sort_Permutation l : sort_by_len_of_node_output_reverse l ≡ₚ l.
Proof.
  induction l as [|n l IH]; simpl; [done|].
  unfold sort_by_len_of_node_output_reverse in *.
  by rewrite sort_insert_Permutation, IH.
Qed.

(** Nodes with more outputs come first; among nodes with as many outputs
    the order is kept. *)
Example sort_is_stable :
  name <$> sort_by_len_of_node_output_reverse
             [node "a" "Split" [] ["a0"]; node "b" "Split" [] ["b0"; "b1"];
              node "c" "Split" [] ["c0"]; node "d" "Split" [] ["d0"; "d1"]]
  = ["b"; "d"; "a"; "c"].
Proof. reflexivity. Qed.

(** The head of the sorted list is the first node that has the most
    outputs. *)
Lemma node_to_retain_first_widest ns :
  ns ≠ [] →
  ∃ r pre post,
    ns = pre ++ r :: post ∧ node_to_retain ns = Some r ∧
    Forall (λ n, _len_of_node_output n < _len_of_node_output r) pre ∧
    Forall (λ n, _len_of_node_output n ≤ _len_of_node_output r) post.
Proof.
  unfold node_to_retain, sort_by_len_of_node_output_reverse.
  induction ns as [|x l IH]; [done|]. intros _.
  destruct l as [|y l].
  { exists x, [], []. by repeat split. }
  destruct IH as (r & pre & post & Hl & Hr & Hpre & Hpost); [done|].
  remember (y :: l) as l' eqn:El. simpl.
  destruct (foldr sort_insert [] l') as [|m rest]; [done|].
  simpl in Hr. inversion Hr; subst m. simpl. case_decide as Hlt.
  - exists r, (x :: pre), post. repeat split; try done.
    + by rewrite Hl.
    + by constructor.
  - exists x, [], l'. repeat split; [constructor|].
    rewrite Hl. apply Forall_app. split.
    + eapply Forall_impl; [exact Hpre|]. simpl. lia.
    + constructor; [lia|]. eapply Forall_impl; [exact Hpost|]. simpl. lia.
Qed.

(** ** One merge step *)

Lemma shell_replace_input old new n : shell (replace_input old new n) = shell n.
Proof. done. Qed.

Lemma replace_all_inputs_shells ops old new g :
  shell <$> nodes (replace_all_inputs ops old new g) = shell <$> nodes g.
Proof.
  unfold replace_all_inputs. simpl. rewrite <- list_fmap_compose.
  apply list_fmap_ext. intros i n _. simpl. by case_decide.
Qed.

Lemma rewire_outputs_shells (pairs : list (string * string)) g :
  let g' := foldl (λ gr '(old_input, new_input),
                     replace_all_inputs (name <$> get_nodes gr)
                       (Some old_input) (Some new_input) gr) g pairs in
  shell <$> nodes g' = shell <$> nodes g ∧ outputs g' = outputs g.
Proof.
  revert g. induction pairs as [|[old new] pairs IH]; intros g; simpl; [done|].
  destruct (IH (replace_all_inputs (name <$> get_nodes g) (Some old) (Some new) g))
    as [H1 H2].
  split; [by rewrite H1, replace_all_inputs_shells | by rewrite H2].
Qed.

(** What a merge step does to the state: nothing when the node produces a
    graph output; otherwise the flag is set and the node of that name is
    gone from a graph whose other nodes kept all but their inputs. *)
Lemma merge_into_cases r st d :
  (output_is_graph_output d st.2 = true ∧ merge_into r st d = st) ∨
  (output_is_graph_output d st.2 = false ∧
   ∃ g1, shell <$> nodes g1 = shell <$> nodes st.2 ∧
         merge_into r st d =
           (mkOptimizer true,
            mkGraph (filter (λ n, name n ≠ name d) (nodes g1)) (outputs st.2))).
Proof.
  destruct st as [self g]. unfold merge_into. simpl.
  destruct (output_is_graph_output d g); [by left|right].
  split; [done|].
  pose proof (rewire_outputs_shells (zip (output d) (output r)) g) as [H1 H2].
  simpl in H1, H2. eexists. split; [exact H1|].
  unfold remove_node. by rewrite H2.
Qed.

Lemma name_of_shell (l1 l2 : list Node) :
  shell <$> l1 = shell <$> l2 → name <$> l1 = name <$> l2.
Proof.
  intros H.
  apply (f_equal (fmap (λ s : string * string * list string * gmap string attr_value,
                          s.1.1.1))) in H.
  by rewrite <- !list_fmap_compose in H.
Qed.

Lemma names_filter (l : list Node) nm :
  name <$> filter (λ n, name n ≠ nm) l = filter (λ x, x ≠ nm) (name <$> l).
Proof.
  induction l as [|n l IH]; [done|]. rewrite fmap_cons, !filter_cons. simpl.
  case_decide; [rewrite fmap_cons|]; by rewrite IH.
Qed.

(** A merge step keeps the declared outputs, and the names afterwards are
    the names before, or those but the name of the node in hand. *)
Lemma merge_into_names r st d :
  outputs (merge_into r st d).2 = outputs st.2 ∧
  (name <$> nodes (merge_into r st d).2 = name <$> nodes st.2 ∨
   (output_is_graph_output d st.2 = false ∧
    _graph_can_be_optimized (merge_into r st d).1 = true ∧
    name <$> nodes (merge_into r st d).2 =
      filter (λ x, x ≠ name d) (name <$> nodes st.2))).
Proof.
  destruct (merge_into_cases r st d) as [[_ ->]|(Hout & g1 & Hg1 & ->)].
  - split; [done|by left].
  - simpl. split; [done|right]. split_and!; [done..|].
    by rewrite names_filter, (name_of_shell _ _ Hg1).
Qed.

Lemma Forall_filter_keep {A} (P : A → Prop) (Q : A → Prop) `{∀ x, Decision (Q x)} l :
  Forall P l → Forall P (filter Q l).
Proof.
  induction 1 as [|x l Hx Hl IH]; [constructor|].
  rewrite filter_cons. case_decide; [by constructor | done].
Qed.

(** ** The groups hold nodes of the graph *)

Lemma append_to_group_members k n res (P : Node → Prop) :
  P n → Forall (λ kg, Forall P kg.2) res →
  Forall (λ kg, Forall P kg.2) (append_to_group k n res).
Proof.
  intros Hn. induction 1 as [|[k' ns] res Hns Hres IH]; simpl.
  - repeat constructor. done.
  - case_decide; constructor; simpl in *; try done.
    apply Forall_app. split; [done|by constructor].
Qed.

Lemma _group_nodes_by_type_inputs_members g :
  Forall (λ kg, Forall (λ n, n ∈ nodes g) kg.2) (_group_nodes_by_type_inputs g).
Proof.
  unfold _group_nodes_by_type_inputs, get_nodes.
  assert (H : ∀ l res, Forall (λ n, n ∈ nodes g) l →
                Forall (λ kg, Forall (λ n, n ∈ nodes g) kg.2) res →
                Forall (λ kg, Forall (λ n, n ∈ nodes g) kg.2)
                  (foldl (λ res node, append_to_group (type node, input node) node res)
                         res l)).
  { induction l as [|n l IH]; intros res Hl Hres; simpl; [done|].
    inversion Hl; subst. apply IH; [done|]. by apply append_to_group_members. }
  apply H; [|constructor]. by apply Forall_forall.
Qed.

(** ** What every merge step keeps, a round keeps *)

Section round_invariant.
Context (g0 : Graph) (P : State → Prop).
Hypothesis step : ∀ r d st, d ∈ nodes g0 → P st → P (merge_into r st d).

Lemma foldl_merge_into_invariant r ds st :
  Forall (λ n, n ∈ nodes g0) ds → P st → P (foldl (merge_into r) st ds).
Proof.
  intros Hds. revert st. induction Hds as [|d ds Hd Hds IH]; intros st Hst; simpl; [done|].
  apply IH. by apply step.
Qed.

Lemma _merge_nodes_that_are_duplicated_invariant ns st :
  Forall (λ n, n ∈ nodes g0) ns → P st →
  P (_merge_nodes_that_are_duplicated ns st).
Proof.
  intros Hns Hst. unfold _merge_nodes_that_are_duplicated.
  rewrite <- (sort_Permutation ns) in Hns.
  destruct (sort_by_len_of_node_output_reverse ns) as [|r ds]; [done|].
  inversion Hns; subst. by apply foldl_merge_into_invariant.
Qed.

Lemma del_nodes_loop_invariant turns ns st :
  Forall (λ n, n ∈ nodes g0) ns → P st → P (del_nodes_loop turns ns st).
Proof.
  revert ns st. induction turns as [|turns IH]; intros ns st Hns Hst; simpl.
  { by destruct ns. }
  destruct ns as [|first [|second others]]; try done.
  inversion Hns as [|? ? Hfirst Hothers]; subst.
  apply IH.
  - by apply Forall_filter_keep.
  - apply _merge_nodes_that_are_duplicated_invariant; [|done].
    constructor; [done|]. by apply Forall_filter_keep.
Qed.

Lemma merge_group_invariant st kg :
  Forall (λ n, n ∈ nodes g0) kg.2 → P st → P (merge_group st kg).
Proof.
  intros Hns Hst. unfold merge_group. destruct (kg.2) as [|first ns]; [done|].
  destruct (_skip_node_type first); [done|].
  by apply del_nodes_loop_invariant.
Qed.

Lemma _merge_duplicated_nodes_invariant st :
  st.2 = g0 → P st → P (_merge_duplicated_nodes st).
Proof.
  intros Hg Hst. unfold _merge_duplicated_nodes. rewrite Hg.
  pose proof (_group_nodes_by_type_inputs_members g0) as Hgroups.
  clear Hg. revert st Hst.
  induction Hgroups as [|kg groups Hns Hgroups IH]; intros st Hst; simpl; [done|].
  by apply IH, merge_group_invariant.
Qed.
End round_invariant.

(** ** A round either changes nothing or removes a node *)

Lemma merge_into_progress g0 r d st :
  d ∈ nodes g0 → progress g0 st → progress g0 (merge_into r st d).
Proof.
  intros Hd Hst.
  destruct (merge_into_cases r st d) as [[_ ->]|(Hout & g1 & Hg1 & ->)]; [done|].
  right. simpl. split; [done|].
  assert (Hlen : length (nodes g1) = length (nodes st.2)).
  { apply (f_equal length) in Hg1. by rewrite !length_fmap in Hg1. }
  destruct Hst as [->|[_ Hlt]]; simpl in *.
  - rewrite <- Hlen.
    assert (name d ∈ name <$> nodes g1) as Hin.
    { rewrite (name_of_shell _ _ Hg1). by apply list_elem_of_fmap_2. }
    apply list_elem_of_fmap in Hin as (n & Hn & Hin).
    apply (length_filter_lt _ _ n); [done|]. intros Hne. by apply Hne.
  - pose proof (length_filter (λ n, name n ≠ name d) (nodes g1)). lia.
Qed.

Lemma _merge_duplicated_nodes_progress g :
  progress g (_merge_duplicated_nodes (mkOptimizer false, g)).
Proof.
  apply (_merge_duplicated_nodes_invariant g (progress g)).
  - intros r d st. apply merge_into_progress.
  - done.
  - by left.
Qed.

(** A round that does not ask for another has left the graph as it was. *)
Lemma clean_round_changes_nothing g st :
  _merge_duplicated_nodes (mkOptimizer false, g) = st →
  _graph_can_be_optimized st.1 = false → st = (mkOptimizer false, g).
Proof.
  intros <- Hflag.
  destruct (_merge_duplicated_nodes_progress g) as [H|[H _]]; [done|congruence].
Qed.

(** ** The loop ends *)

Lemma optimize_loop_flag_false rounds g :
  optimize_loop rounds (mkOptimizer false, g) = Some (mkOptimizer false, g).
Proof. by destruct rounds. Qed.

Lemma optimize_loop_ends rounds g :
  length (nodes g) < rounds →
  ∃ g', optimize_loop rounds (mkOptimizer true, g) = Some (mkOptimizer false, g') ∧
        _merge_duplicated_nodes (mkOptimizer false, g') = (mkOptimizer false, g') ∧
        length (nodes g') ≤ length (nodes g).
Proof.
  revert g. induction rounds as [|rounds IH]; intros g Hlen; [lia|]. simpl.
  destruct (_merge_duplicated_nodes_progress g) as [Hsame|[Hflag Hlt]].
  - rewrite Hsame, optimize_loop_flag_false. eauto.
  - destruct (_merge_duplicated_nodes (mkOptimizer false, g)) as [[flag] g1].
    simpl in *. subst flag.
    destruct (IH g1) as (g' & Hrun & Hfix & Hle); [lia|].
    exists g'. split_and!; [done..|lia].
Qed.

Lemma optimize_loop_result_flag rounds st st' :
  optimize_loop rounds st = Some st' → _graph_can_be_optimized st'.1 = false.
Proof.
  revert st. induction rounds as [|rounds IH]; intros st; simpl.
  - destruct (_graph_can_be_optimized st.1) eqn:E; [done|]. by intros [= <-].
  - destruct (_graph_can_be_optimized st.1) eqn:E; [apply IH|]. by intros [= <-].
Qed.

(** ** The fixed point *)

(** C7.  The loop of [_optimize_at_current_graph_level] runs a full merge
    round and goes on exactly when the round set the flag; a round sets the
    flag only when it removed a node, and else leaves the graph as it was;
    so from a new instance the call ends, with the flag false and a graph
    [g'] that a further round leaves unchanged, and optimizing [g'] again,
    with a new instance or with the same one, returns [g'] unchanged. *)
Theorem optimizer_reaches_fixed_point (g : Graph) :
  (∀ rounds, optimize_loop (S rounds) (mkOptimizer true, g) =
     let st := _merge_duplicated_nodes (mkOptimizer false, g) in
     if _graph_can_be_optimized st.1 then optimize_loop rounds st else Some st) ∧
  (let st := _merge_duplicated_nodes (mkOptimizer false, g) in
   if _graph_can_be_optimized st.1
   then length (nodes st.2) < length (nodes g)
   else st = (mkOptimizer false, g)) ∧
  ∃ g', _optimize_at_current_graph_level (__init__, g) = Some (mkOptimizer false, g') ∧
        _merge_duplicated_nodes (mkOptimizer false, g') = (mkOptimizer false, g') ∧
        _optimize_at_current_graph_level (__init__, g') = Some (mkOptimizer false, g') ∧
        _optimize_at_current_graph_level (mkOptimizer false, g') =
          Some (mkOptimizer false, g').
Proof.
  split_and!.
  - intros rounds. simpl.
    destruct (_merge_duplicated_nodes (mkOptimizer false, g)) as [[[|]] g1] eqn:E; simpl; [done|].
    by destruct rounds.
  - simpl. destruct (_merge_duplicated_nodes_progress g) as [->|[-> Hlt]]; done.
  - destruct (optimize_loop_ends (S (length (nodes g))) g) as (g' & Hrun & Hfix & Hle); [lia|].
    exists g'. split_and!; [done|done| |].
    + unfold _optimize_at_current_graph_level, __init__. simpl.
      by rewrite Hfix, optimize_loop_flag_false.
    + done.
Qed.

(** Merging the Abs nodes makes the Neg nodes duplicates: the first round
    leaves them for the second, and the third finds nothing to merge. *)
Example merge_exposes_duplicates :
  _merge_duplicated_nodes (mkOptimizer false, abs_then_neg) =
    (mkOptimizer true,
     mkGraph [node "x" "Placeholder" [] ["t0"]; abs_a;
              node "neg_a" "Neg" ["a"] ["na"];
              node "neg_b" "Neg" ["a"] ["nb"];
              node "sum" "Add" ["na"; "nb"] ["s"]]
             ["s"]) ∧
  optimize_loop 2 (__init__, abs_then_neg) = None ∧
  optimize_loop 3 (__init__, abs_then_neg) =
    Some (mkOptimizer false, abs_then_neg_merged) ∧
  _optimize_at_current_graph_level (__init__, abs_then_neg) =
    Some (mkOptimizer false, abs_then_neg_merged).
Proof. repeat split. Qed.

(** ** The flag belongs to the instance *)

(** C10.  Once a call of [_optimize_at_current_graph_level] has returned,
    the instance's flag is false, and every later call with that instance
    runs no round (the loop ends with no round allowed) and returns its
    argument graph as it is, whatever duplicates the graph holds. *)
Theorem rerun_flag_outlives_the_call (self self' : Optimizer) (g g' : Graph) :
  _optimize_at_current_graph_level (self, g) = Some (self', g') →
  _graph_can_be_optimized self' = false ∧
  ∀ g2, optimize_loop 0 (self', g2) = Some (self', g2) ∧
        _optimize_at_current_graph_level (self', g2) = Some (self', g2).
Proof.
  intros Hrun. apply optimize_loop_result_flag in Hrun. simpl in Hrun.
  split; [done|]. intros g2. destruct self' as [flag]. simpl in Hrun. subst flag.
  done.
Qed.

Lemma rerun_flag_outlives_the_call_witness :
  _optimize_at_current_graph_level (__init__, three_abs) =
    Some (mkOptimizer false, three_abs_merged) ∧
  _optimize_at_current_graph_level (mkOptimizer false, unused_first) =
    Some (mkOptimizer false, unused_first) ∧
  _optimize_at_current_graph_level (__init__, unused_first) =
    Some (mkOptimizer false, unused_first_merged).
Proof.
  assert (Hfirst : _optimize_at_current_graph_level (__init__, three_abs) =
                   Some (mkOptimizer false, three_abs_merged)) by reflexivity.
  split_and!; [exact Hfirst| |reflexivity].
  apply (rerun_flag_outlives_the_call __init__ (mkOptimizer false)
           three_abs three_abs_merged Hfirst).
Defined.

(** ** Nodes that produce a graph output stay *)

Lemma descends_refl g : descends g g.
Proof. split_and!; eauto. Qed.

Lemma output_is_graph_output_shell n n' g g' :
  shell n = shell n' → outputs g = outputs g' →
  output_is_graph_output n g = output_is_graph_output n' g'.
Proof.
  unfold shell, output_is_graph_output. intros [= _ _ -> _] ->. done.
Qed.

Lemma elem_of_shells (l1 l2 : list Node) n :
  shell <$> l1 = shell <$> l2 → n ∈ l1 → ∃ n', n' ∈ l2 ∧ shell n' = shell n.
Proof.
  intros Heq Hn. apply (list_elem_of_fmap_2 shell) in Hn. rewrite Heq in Hn.
  apply list_elem_of_fmap in Hn as (n' & Hn' & Hin). eauto.
Qed.

Lemma merge_into_descends g0 gr r d st :
  NoDup (name <$> nodes g0) → descends g0 gr → d ∈ nodes gr →
  descends g0 st.2 → descends g0 (merge_into r st d).2.
Proof.
  intros Hnd Hgr Hd (Houts & Hfrom & Hkept).
  destruct (merge_into_cases r st d) as [[_ ->]|(Hout & g1 & Hg1 & ->)]; [done|].
  simpl. split_and!; [done| |].
  - intros n Hn. simpl in Hn. apply list_elem_of_filter in Hn as [_ Hn].
    destruct (elem_of_shells _ _ n Hg1 Hn) as (n' & Hn' & Hs).
    destruct (Hfrom n' Hn') as (n0 & Hn0 & Hs0). exists n0. split; [done|congruence].
  - intros n0 Hn0 Hprot. destruct (Hkept n0 Hn0 Hprot) as (n & Hn & Hs).
    symmetry in Hg1. destruct (elem_of_shells _ _ n Hg1 Hn) as (n1 & Hn1 & Hs1).
    exists n1. split; [|congruence]. simpl. apply list_elem_of_filter. split; [|done].
    intros Hname.
    destruct Hgr as (Hgouts & Hgfrom & _).
    destruct (Hgfrom d Hd) as (d0 & Hd0 & Hds).
    assert (name d0 = name n0) as Hsame.
    { unfold shell in *. congruence. }
    assert (d0 = n0) as ->.
    { apply list_elem_of_lookup in Hd0 as [i Hi]. apply list_elem_of_lookup in Hn0 as [j Hj].
      assert (i = j) as ->; [|congruence].
      eapply NoDup_lookup; [exact Hnd| |]; rewrite list_lookup_fmap.
      - by rewrite Hi.
      - rewrite Hj. simpl. by rewrite Hsame. }
    rewrite (output_is_graph_output_shell d n0 st.2 g0 (eq_sym Hds) Houts) in Hout.
    congruence.
Qed.

Lemma _merge_duplicated_nodes_descends g0 st :
  NoDup (name <$> nodes g0) → descends g0 st.2 →
  descends g0 (_merge_duplicated_nodes st).2.
Proof.
  intros Hnd Hst.
  apply (_merge_duplicated_nodes_invariant st.2 (λ s, descends g0 s.2)); [|done..].
  intros r d s Hd Hs. by apply (merge_into_descends g0 st.2).
Qed.

Lemma optimize_loop_descends g0 rounds st st' :
  NoDup (name <$> nodes g0) → descends g0 st.2 →
  optimize_loop rounds st = Some st' → descends g0 st'.2.
Proof.
  intros Hnd. revert st. induction rounds as [|rounds IH]; intros st Hst; simpl.
  - destruct (_graph_can_be_optimized st.1); [done|]. by intros [= <-].
  - destruct (_graph_can_be_optimized st.1); [|by intros [= <-]].
    apply IH. by apply (_merge_duplicated_nodes_descends g0 (_, _)).
Qed.

(** C5.  In a graph whose nodes have distinct names, a node one of whose
    outputs is a declared graph output is still in the graph the optimizer
    returns, with its name, type, outputs and attributes, whatever
    duplicates of it the graph holds; the declared outputs are the same. *)
Theorem graph_output_nodes_are_never_deleted
    (self : Optimizer) (g : Graph) (st' : State) (n : Node) :
  NoDup (name <$> nodes g) →
  n ∈ nodes g →
  Exists (λ o, o ∈ outputs g) (output n) →
  _optimize_at_current_graph_level (self, g) = Some st' →
  outputs st'.2 = outputs g ∧
  ∃ n', n' ∈ nodes st'.2 ∧ name n' = name n ∧ type n' = type n ∧
        output n' = output n ∧ attr n' = attr n.
Proof.
  intros Hnd Hn Hout Hrun.
  apply (optimize_loop_descends g) in Hrun as (Houts & _ & Hkept);
    [|done|apply descends_refl].
  split; [done|].
  destruct (Hkept n Hn) as (n' & Hn' & Hs).
  { unfold output_is_graph_output. by apply bool_decide_eq_true_2. }
  exists n'. unfold shell in Hs. inversion Hs. done.
Qed.

Lemma graph_output_nodes_are_never_deleted_witness :
  _optimize_at_current_graph_level (__init__, abs_output) =
    Some (mkOptimizer false, abs_output) ∧
  ∃ n', n' ∈ nodes abs_output ∧ name n' = "abs_b" ∧ type n' = "Abs" ∧
        output n' = ["b"] ∧ attr n' = ∅.
Proof.
  assert (Hrun : _optimize_at_current_graph_level (__init__, abs_output) =
                 Some (mkOptimizer false, abs_output)) by reflexivity.
  split; [exact Hrun|].
  apply (graph_output_nodes_are_never_deleted __init__ abs_output
           (mkOptimizer false, abs_output) abs_b).
  - apply (bool_decide_unpack _). reflexivity.
  - apply (bool_decide_unpack _). reflexivity.
  - apply (bool_decide_unpack _). reflexivity.
  - exact Hrun.
Defined.

(** ** What merging a class removes and keeps *)

Lemma foldl_merge_into_outputs r ds st :
  outputs (foldl (merge_into r) st ds).2 = outputs st.2.
Proof.
  revert st. induction ds as [|d ds IH]; intros st; simpl; [done|].
  rewrite IH. apply merge_into_names.
Qed.

Lemma foldl_merge_into_absent r ds st x :
  x ∉ name <$> nodes st.2 → x ∉ name <$> nodes (foldl (merge_into r) st ds).2.
Proof.
  revert st. induction ds as [|d ds IH]; intros st Hx; simpl; [done|].
  apply IH. destruct (merge_into_names r st d) as [_ [->|(_ & _ & ->)]]; [done|].
  intros Hin. by apply list_elem_of_filter in Hin as [_ Hin].
Qed.

Lemma foldl_merge_into_removes r ds st d :
  d ∈ ds → output_is_graph_output d st.2 = false →
  name d ∉ name <$> nodes (foldl (merge_into r) st ds).2.
Proof.
  revert st. induction ds as [|x ds IH]; intros st Hd Hout; simpl.
  { by apply elem_of_nil in Hd. }
  apply elem_of_cons in Hd as [<-|Hd].
  - apply foldl_merge_into_absent.
    destruct (merge_into_names r st d) as [_ [Hsame|(_ & _ & ->)]].
    + destruct (merge_into_cases r st d) as [[Htrue _]|(_ & g1 & Hg1 & Heq)];
        [congruence|].
      rewrite Heq. simpl. rewrite names_filter.
      intros Hin. by apply list_elem_of_filter in Hin as [Hne _].
    + intros Hin. by apply list_elem_of_filter in Hin as [Hne _].
  - apply IH; [done|]. rewrite <- Hout.
    apply output_is_graph_output_shell; [done|apply merge_into_names].
Qed.

Lemma foldl_merge_into_keeps r ds st x :
  x ∉ name <$> ds → x ∈ name <$> nodes st.2 →
  x ∈ name <$> nodes (foldl (merge_into r) st ds).2.
Proof.
  revert st. induction ds as [|d ds IH]; intros st Hds Hx; simpl; [done|].
  rewrite fmap_cons in Hds. apply not_elem_of_cons in Hds as [Hne Hds].
  apply IH; [done|].
  destruct (merge_into_names r st d) as [_ [->|(_ & _ & ->)]]; [done|].
  by apply list_elem_of_filter.
Qed.

(** ** Where the readers of a merged node go *)

Lemma with_inputs_id n : with_inputs (replaced_in_turn []) n = n.
Proof. destruct n. unfold with_inputs. simpl. by rewrite list_fmap_id. Qed.

Lemma replaced_in_turn_app p1 p2 i :
  replaced_in_turn (p1 ++ p2) i = replaced_in_turn p2 (replaced_in_turn p1 i).
Proof. unfold replaced_in_turn. by rewrite foldl_app. Qed.

Lemma with_inputs_compose f h n :
  with_inputs f (with_inputs h n) = with_inputs (f ∘ h) n.
Proof. unfold with_inputs. simpl. by rewrite <- list_fmap_compose. Qed.

Lemma with_inputs_ext f h n :
  (∀ i, i ∈ input n → f i = h i) → with_inputs f n = with_inputs h n.
Proof.
  intros Hext. unfold with_inputs. f_equal.
  apply list_fmap_ext. intros k i Hi. apply Hext. by eapply list_elem_of_lookup_2.
Qed.

Lemma rewire_outputs_nodes (pairs : list (string * string)) g :
  nodes (foldl (λ gr '(old_input, new_input),
                  replace_all_inputs (name <$> get_nodes gr)
                    (Some old_input) (Some new_input) gr) g pairs) =
  with_inputs (replaced_in_turn pairs) <$> nodes g.
Proof.
  revert g. induction pairs as [|[old new] pairs IH]; intros g; simpl.
  - symmetry. etransitivity; [|apply list_fmap_id].
    apply list_fmap_ext. intros k n _. apply with_inputs_id.
  - rewrite IH. unfold replace_all_inputs, get_nodes. simpl.
    rewrite <- list_fmap_compose. apply list_fmap_ext. intros k n Hn. simpl.
    rewrite decide_True by (apply list_elem_of_fmap_2; by eapply list_elem_of_lookup_2).
    unfold with_inputs, replace_input. simpl. by rewrite <- list_fmap_compose.
Qed.

Lemma merge_into_nodes r st d :
  output_is_graph_output d st.2 = false →
  nodes (merge_into r st d).2 =
    filter (λ n, name n ≠ name d)
           (with_inputs (replaced_in_turn (zip (output d) (output r))) <$> nodes st.2).
Proof.
  destruct st as [self g]. unfold merge_into. simpl. intros ->.
  unfold remove_node. simpl. by rewrite rewire_outputs_nodes.
Qed.

Lemma filter_with_inputs (P : string → Prop) `{∀ x, Decision (P x)} f (l : list Node) :
  filter (λ n, P (name n)) (with_inputs f <$> l) =
  with_inputs f <$> filter (λ n, P (name n)) l.
Proof.
  induction l as [|n l IH]; [done|]. rewrite fmap_cons, !filter_cons. simpl.
  case_decide; [rewrite fmap_cons|]; by rewrite IH.
Qed.

Lemma filter_no_names (l : list Node) : filter (λ n, name n ∉ []) l = l.
Proof.
  induction l as [|n l IH]; [done|]. rewrite filter_cons.
  rewrite decide_True by apply not_elem_of_nil. by rewrite IH.
Qed.

Lemma foldl_merge_into_nodes r ds st :
  let deleted := filter (λ d, output_is_graph_output d st.2 = false) ds in
  nodes (foldl (merge_into r) st ds).2 =
    with_inputs (replaced_in_turn (paired_outputs r deleted)) <$>
      filter (λ n, name n ∉ name <$> deleted) (nodes st.2).
Proof.
  revert st. induction ds as [|d ds IH]; intros st; simpl.
  - rewrite filter_no_names.
    symmetry. etransitivity; [|apply list_fmap_id].
    apply list_fmap_ext. intros k n _. apply with_inputs_id.
  - rewrite IH. rewrite filter_cons.
    assert (Hsame : ∀ x, output_is_graph_output x (merge_into r st d).2 =
                         output_is_graph_output x st.2).
    { intros x. apply output_is_graph_output_shell; [done|apply merge_into_names]. }
    rewrite (list_filter_iff _ (λ x, output_is_graph_output x st.2 = false))
      by (intros x; by rewrite Hsame).
    destruct (merge_into_cases r st d) as [[Hout Heq]|[Hout _]].
    + rewrite Heq. rewrite decide_False by congruence. done.
    + rewrite decide_True by done. rewrite merge_into_nodes by done.
      set (deleted := filter (λ x, output_is_graph_output x st.2 = false) ds).
      rewrite list_filter_filter.
      pose proof (filter_with_inputs (λ x, (x ∉ name <$> deleted) ∧ x ≠ name d)
                    (replaced_in_turn (zip (output d) (output r))) (nodes st.2)) as Hf.
      cbv beta in Hf. rewrite Hf. clear Hf.
      rewrite <- list_fmap_compose.
      rewrite (list_filter_iff _ (λ n, name n ∉ name <$> d :: deleted)).
      2: { intros n. rewrite fmap_cons, not_elem_of_cons. tauto. }
      apply list_fmap_ext. intros k n _. simpl.
      rewrite with_inputs_compose. apply with_inputs_ext. intros i _. simpl.
      unfold paired_outputs. simpl. by rewrite replaced_in_turn_app.
Qed.

Lemma replaced_in_turn_None pairs : replaced_in_turn pairs None = None.
Proof. induction pairs as [|[old new] pairs IH]; [done|]. simpl. done. Qed.

Lemma replaced_in_turn_other (pairs : list (string * string)) o :
  o ∉ pairs.*1 → replaced_in_turn pairs (Some o) = Some o.
Proof.
  induction pairs as [|[old new] pairs IH]; [done|]. intros Hout.
  rewrite fmap_cons in Hout. apply not_elem_of_cons in Hout as [Hne Hout].
  unfold replaced_in_turn in *. simpl in *.
  rewrite decide_False by congruence. by apply IH.
Qed.

(** One after the other or all at once: the same, when no tensor is
    replaced twice and no replacement is itself replaced. *)
Lemma replaced_in_turn_lookup (pairs : list (string * string)) o :
  NoDup pairs.*1 → (∀ x, x ∈ pairs.*2 → x ∉ pairs.*1) →
  replaced_in_turn pairs (Some o) =
    from_option Some (Some o) ((list_to_map pairs : gmap string string) !! o).
Proof.
  induction pairs as [|[old new] pairs IH]; intros Hnd Hnew; [done|].
  rewrite fmap_cons in Hnd. apply NoDup_cons in Hnd as [Hold Hnd]. simpl in *.
  unfold replaced_in_turn in *. simpl.
  destruct (decide (Some o = Some old)) as [[= ->]|Hne].
  - rewrite lookup_insert_eq. simpl.
    apply replaced_in_turn_other. intros Hin.
    apply (Hnew new); [by left|by right].
  - rewrite lookup_insert_ne by congruence. apply IH; [done|].
    intros x Hx Hin. apply (Hnew x); [by right|by right].
Qed.

Lemma paired_outputs_olds r deleted :
  (paired_outputs r deleted).*1 `sublist_of` deleted ≫= output.
Proof.
  unfold paired_outputs. induction deleted as [|d deleted IH]; [done|]. simpl.
  rewrite fmap_app. apply sublist_app; [|done].
  generalize (output r). induction (output d) as [|x l IHl]; intros [|y l']; simpl;
    try done; [apply sublist_nil_l|]. by apply sublist_skip.
Qed.

Lemma paired_outputs_news r deleted x :
  x ∈ (paired_outputs r deleted).*2 → x ∈ output r.
Proof.
  unfold paired_outputs. intros Hx. apply list_elem_of_fmap in Hx as ([o n] & -> & Hin).
  apply list_elem_of_bind in Hin as (d & Hin & _). simpl.
  by apply elem_of_zip_r in Hin.
Qed.

(** The tensors that are replaced when [deleted] are merged into [r] are
    replaced once, by a tensor that is not replaced, when the output names
    of the nodes are distinct. *)
Lemma replaced_in_turn_merged r deleted i :
  NoDup ((r :: deleted) ≫= output) →
  replaced_in_turn (paired_outputs r deleted) i = merged_tensor r deleted i.
Proof.
  intros Hnd. simpl in Hnd. apply NoDup_app in Hnd as (_ & Hdisj & Hnd).
  destruct i as [o|]; [|apply replaced_in_turn_None]. simpl.
  apply replaced_in_turn_lookup.
  - eapply sublist_NoDup; [exact Hnd|apply paired_outputs_olds].
  - intros x Hx Hin. apply paired_outputs_news in Hx.
    apply (Hdisj x Hx). eapply elem_of_sublist; [exact Hin|].
    apply paired_outputs_olds.
Qed.

Lemma merged_tensor_Permutation r l1 l2 i :
  NoDup (l1 ≫= output) → l1 ≡ₚ l2 → merged_tensor r l1 i = merged_tensor r l2 i.
Proof.
  intros Hnd Hperm. destruct i as [o|]; [|done]. simpl.
  rewrite (list_to_map_proper (paired_outputs r l1) (paired_outputs r l2)); [done| |].
  - eapply sublist_NoDup; [exact Hnd|apply paired_outputs_olds].
  - unfold paired_outputs. by rewrite Hperm.
Qed.

(** Merging a class: the nodes that bear the name of a node merged away
    are gone, and every input left is what merging makes of it. *)
Lemma _merge_nodes_that_are_duplicated_nodes ns st r pre post :
  ns = pre ++ r :: post → node_to_retain ns = Some r →
  NoDup (ns ≫= output) →
  let deleted := filter (λ d, output_is_graph_output d st.2 = false) (pre ++ post) in
  nodes (_merge_nodes_that_are_duplicated ns st).2 =
    with_inputs (merged_tensor r deleted) <$>
      filter (λ n, name n ∉ name <$> deleted) (nodes st.2).
Proof.
  intros Heq Hr Hnd. simpl.
  unfold _merge_nodes_that_are_duplicated. unfold node_to_retain in Hr.
  pose proof (sort_Permutation ns) as Hperm.
  destruct (sort_by_len_of_node_output_reverse ns) as [|r' ds]; [done|].
  simpl in Hr. inversion Hr; subst r'.
  assert (Hds : ds ≡ₚ pre ++ post).
  { apply (Permutation_cons_inv (a:=r)). rewrite Hperm, Heq.
    by rewrite Permutation_middle. }
  assert (Hnd' : NoDup ((r :: ds) ≫= output)) by by rewrite Hperm.
  rewrite foldl_merge_into_nodes.
  set (sorted := filter (λ d, output_is_graph_output d st.2 = false) ds).
  set (deleted := filter (λ d, output_is_graph_output d st.2 = false) (pre ++ post)).
  assert (Hdel : sorted ≡ₚ deleted) by (unfold sorted, deleted; by rewrite Hds).
  assert (Hnds : NoDup ((r :: sorted) ≫= output)).
  { eapply sublist_NoDup; [exact Hnd'|]. simpl. apply sublist_app; [done|].
    apply bind_sublist, sublist_filter. }
  rewrite (list_filter_iff _ (λ n, name n ∉ name <$> deleted)).
  2: { intros n. by rewrite Hdel. }
  apply list_fmap_ext. intros k n _. apply with_inputs_ext. intros i _.
  rewrite replaced_in_turn_merged by done.
  apply merged_tensor_Permutation; [|done].
  simpl in Hnds. by apply NoDup_app in Hnds as (_ & _ & ?).
Qed.

Lemma merged_tensor_paired r deleted d k o :
  NoDup ((r :: deleted) ≫= output) →
  d ∈ deleted → _len_of_node_output d ≤ _len_of_node_output r →
  output d !! k = Some o →
  ∃ o', output r !! k = Some o' ∧ merged_tensor r deleted (Some o) = Some o'.
Proof.
  intros Hnd Hd Hlen Ho. simpl in Hnd. apply NoDup_app in Hnd as (_ & _ & Hnd).
  destruct (lookup_lt_is_Some_2 (output r) k) as [o' Ho'].
  { apply lookup_lt_Some in Ho. unfold _len_of_node_output in Hlen. lia. }
  exists o'. split; [done|]. simpl.
  rewrite (elem_of_list_to_map_1 (paired_outputs r deleted) o o'); [done| |].
  - eapply sublist_NoDup; [exact Hnd|apply paired_outputs_olds].
  - unfold paired_outputs. apply list_elem_of_bind. exists d. split; [|done].
    apply (list_elem_of_lookup_2 _ k). apply lookup_zip_with_Some. by exists o, o'.
Qed.

Lemma merged_tensor_other r deleted i :
  (∀ o, i = Some o → o ∉ deleted ≫= output) → merged_tensor r deleted i = i.
Proof.
  destruct i as [o|]; [|done]. intros Hout. simpl.
  rewrite (not_elem_of_list_to_map_1 (paired_outputs r deleted) o); [done|].
  intros Hin. apply (Hout o eq_refl).
  eapply elem_of_sublist; [exact Hin|apply paired_outputs_olds].
Qed.

(** ** The node that is retained *)

(** The node retained need not be one with the most outputs in use, nor
    with the most consumers: of two Abs nodes the unused one is retained
    when it is listed first, and of the three Abs nodes with one, two and
    no consumer it is not the one with two consumers that is left. *)
Lemma most_consumed_node_is_not_the_one_retained :
  ¬ retains_most_consumed ∧
  (λ n, length (consumers_of_node three_abs n)) <$> [abs_a; abs_b; abs_c] = [1; 2; 0] ∧
  ¬ (∃ st, _optimize_at_current_graph_level (__init__, three_abs) = Some st ∧
           filter (λ n, type n = "Abs") (nodes st.2) = [abs_b]).
Proof.
  split_and!.
  - intros H.
    specialize (H unused_first [abs_c; abs_a] abs_c).
    assert (Forall (λ n, length (consumed_outputs unused_first n) ≤
                         length (consumed_outputs unused_first abs_c))
                   [abs_c; abs_a]) as Hall.
    { apply H; [simpl; lia| |reflexivity].
      apply (bool_decide_unpack _). reflexivity. }
    inversion Hall as [|? ? _ Hrest]; subst.
    inversion Hrest as [|? ? Habs _]; subst.
    vm_compute in Habs. lia.
  - reflexivity.
  - intros (st & Hrun & Hleft).
    assert (Hmerged : _optimize_at_current_graph_level (__init__, three_abs) =
                      Some (mkOptimizer false, three_abs_merged)) by reflexivity.
    rewrite Hmerged in Hrun. inversion Hrun; subst st.
    vm_compute in Hleft. discriminate Hleft.
Qed.

(** C1, as amended.  Of the nodes of a class the one retained is the first
    one, in the order of the class, among those with the greatest number of
    declared outputs; every other node of the class none of whose outputs is
    a graph output is gone from the graph after the merge, and the retained
    node stays when the names of the class are distinct.  The other node is
    merged into the retained one: when the output names of the class are
    distinct, the graph after the merge is the graph before it without the
    nodes that bear the name of a node merged away, every input of the
    nodes left being passed through [merged_tensor], which sends the output
    of a merged node at a position to the output of the retained node at
    that position, and leaves every other tensor as it is.  For three
    attribute-free Abs nodes over the same input, none a graph output,
    listed with one, two and no consumer, exactly one Abs node is left
    after optimization, the first one listed, and the three consumers read
    its output. *)
Theorem retained_node_is_first_with_most_outputs (ns : list Node) (st : State) :
  ns ≠ [] →
  (∃ r pre post,
     ns = pre ++ r :: post ∧
     node_to_retain ns = Some r ∧
     Forall (λ n, _len_of_node_output n < _len_of_node_output r) pre ∧
     Forall (λ n, _len_of_node_output n ≤ _len_of_node_output r) post ∧
     (∀ d, d ∈ pre ++ post → output_is_graph_output d st.2 = false →
           name d ∉ name <$> nodes (_merge_nodes_that_are_duplicated ns st).2) ∧
     (NoDup (name <$> ns) → name r ∈ name <$> nodes st.2 →
      name r ∈ name <$> nodes (_merge_nodes_that_are_duplicated ns st).2) ∧
     (NoDup (ns ≫= output) →
      let deleted :=
        filter (λ d, output_is_graph_output d st.2 = false) (pre ++ post) in
      nodes (_merge_nodes_that_are_duplicated ns st).2 =
        with_inputs (merged_tensor r deleted) <$>
          filter (λ n, name n ∉ name <$> deleted) (nodes st.2) ∧
      (∀ d k o, d ∈ deleted → output d !! k = Some o →
                ∃ o', output r !! k = Some o' ∧
                      merged_tensor r deleted (Some o) = Some o') ∧
      (∀ i, (∀ o, i = Some o → o ∉ deleted ≫= output) →
            merged_tensor r deleted i = i))) ∧
  _optimize_at_current_graph_level (__init__, three_abs) =
    Some (mkOptimizer false, three_abs_merged).
Proof.
  intros Hns. split; [|reflexivity].
  destruct (node_to_retain_first_widest ns Hns) as (r & pre & post & Heq & Hr & Hpre & Hpost).
  exists r, pre, post. split_and!; try done.
  - intros d Hd Hout. unfold _merge_nodes_that_are_duplicated.
    unfold node_to_retain in Hr. pose proof (sort_Permutation ns) as Hperm.
    destruct (sort_by_len_of_node_output_reverse ns) as [|r' ds]; [done|].
    simpl in Hr. inversion Hr; subst r'.
    apply foldl_merge_into_removes; [|done].
    assert (ds ≡ₚ pre ++ post) as ->; [|done].
    apply (Permutation_cons_inv (a:=r)). rewrite Hperm, Heq.
    by rewrite Permutation_middle.
  - intros Hnd Hin. unfold _merge_nodes_that_are_duplicated.
    unfold node_to_retain in Hr. pose proof (sort_Permutation ns) as Hperm.
    destruct (sort_by_len_of_node_output_reverse ns) as [|r' ds]; [done|].
    simpl in Hr. inversion Hr; subst r'.
    apply foldl_merge_into_keeps; [|done].
    rewrite <- Hperm in Hnd. rewrite fmap_cons in Hnd.
    by apply NoDup_cons in Hnd as [Hnotin _].
  - intros Hnd. simpl.
    set (deleted := filter (λ d, output_is_graph_output d st.2 = false) (pre ++ post)).
    assert (Hnd' : NoDup ((r :: deleted) ≫= output)).
    { assert (Hperm : ns ≡ₚ r :: (pre ++ post))
        by (rewrite Heq; by rewrite Permutation_middle).
      rewrite Hperm in Hnd. eapply sublist_NoDup; [exact Hnd|]. simpl.
      apply sublist_app; [done|]. apply bind_sublist, sublist_filter. }
    split_and!.
    + by apply (_merge_nodes_that_are_duplicated_nodes ns st r pre post).
    + intros d k o Hd Ho. apply (merged_tensor_paired r deleted d k o); [done|done| |done].
      apply list_elem_of_filter in Hd as [_ Hd]. apply elem_of_app in Hd as [Hd|Hd].
      * pose proof (proj1 (Forall_forall _ _) Hpre d Hd). simpl in *. lia.
      * by apply (proj1 (Forall_forall _ _) Hpost d Hd).
    + apply merged_tensor_other.
Qed.

Lemma retained_node_is_first_with_most_outputs_witness :
  [split_a; split_b] ≠ [] ∧
  node_to_retain [split_a; split_b] = Some split_a ∧
  (let st := _merge_nodes_that_are_duplicated [split_a; split_b] (__init__, two_splits) in
   name split_a ∈ name <$> nodes st.2 ∧
   (name split_b ∉ name <$> nodes st.2) ∧
   nodes st.2 =
     with_inputs (merged_tensor split_a [split_b]) <$>
       filter (λ n, name n ∉ name <$> [split_b]) (nodes two_splits) ∧
   merged_tensor split_a [split_b] (Some "b0") = Some "a0" ∧
   merged_tensor split_a [split_b] (Some "b1") = Some "a1") ∧
  _optimize_at_current_graph_level (__init__, three_abs) =
    Some (mkOptimizer false, three_abs_merged).
Proof.
  assert (Hns : [split_a; split_b] ≠ []) by discriminate.
  destruct (retained_node_is_first_with_most_outputs
              [split_a; split_b] (__init__, two_splits) Hns)
    as [(r & pre & post & Heq & Hr & Hpre & _ & Hgone & Hkept & Hmerged) Hrun].
  assert (Hfirst : node_to_retain [split_a; split_b] = Some split_a) by reflexivity.
  rewrite Hfirst in Hr. inversion Hr; subst r.
  assert (pre = []) as ->.
  { destruct pre as [|p pre]; [done|]. exfalso.
    inversion Heq; subst p. inversion Hpre as [|? ? Hlt _]; subst.
    vm_compute in Hlt. lia. }
  simpl in Heq. inversion Heq; subst post.
  destruct Hmerged as (Hnodes & Hpaired & _).
  { apply (bool_decide_unpack _). reflexivity. }
  split_and!; [done|done| |done]. split_and!.
  - apply Hkept; apply (bool_decide_unpack _); reflexivity.
  - apply Hgone; [|reflexivity]. simpl. apply elem_of_cons. by left.
  - exact Hnodes.
  - destruct (Hpaired split_b 0 "b0") as (o' & Ho' & Hm);
      [apply (bool_decide_unpack _); reflexivity|reflexivity|].
    inversion Ho'; subst o'. exact Hm.
  - destruct (Hpaired split_b 1 "b1") as (o' & Ho' & Hm);
      [apply (bool_decide_unpack _); reflexivity|reflexivity|].
    inversion Ho'; subst o'. exact Hm.
Defined.

(** The readers of the node merged away read the output of the retained
    node at the same position. *)
Example merge_pairs_outputs_by_position :
  _optimize_at_current_graph_level (__init__, two_splits) =
    Some (mkOptimizer false, two_splits_merged).
Proof. reflexivity. Qed.

(** ** Cutting the condition subgraph off the merge nodes *)

Lemma replace_all_inputs_rewired g o new :
  rewired g
    (replace_all_inputs
       (name <$> filter (λ n, type n ≠ "Switch") (find_output_consumers g o))
       (Some o) new g)
    o new.
Proof.
  intros k n Hk Hty Hin. unfold replace_all_inputs. simpl.
  rewrite list_lookup_fmap, Hk. simpl. rewrite decide_True; [done|].
  apply list_elem_of_fmap_2, list_elem_of_filter. split; [done|].
  apply list_elem_of_filter. split; [done|]. by eapply list_elem_of_lookup_2.
Qed.

Lemma cut_off_merge_Ok context g deps m g1 deps1 :
  cut_off_merge context (g, deps) m = Ok (g1, deps1) →
  ∃ enter v o,
    first_input_of_type g (current g m) "Enter" = Ok enter ∧
    dict_get (name enter) (all_variables (loop_properties context)) = Ok v ∧
    output m !! 0 = Some o ∧
    rewired g g1 o (utils.id (switch_true_identity_output v)) ∧
    deps1 = deps ++ [v].
Proof.
  unfold cut_off_merge. intros H.
  apply bind_Ok in H as (enter & Henter & H).
  apply bind_Ok in H as (v & Hv & H).
  apply bind_Ok in H as (o & Ho & H). apply index_Ok in Ho.
  inversion H; subst. exists enter, v, o. split_and!; try done.
  apply replace_all_inputs_rewired.
Qed.

Lemma for_each_cut_off_merge context ms g deps g' deps' :
  for_each (cut_off_merge context) ms (g, deps) = Ok (g', deps') →
  ∃ new, deps' = deps ++ new ∧ length new = length ms ∧
         merges_cut (all_variables (loop_properties context)) g ms g' new.
Proof.
  revert g deps. induction ms as [|m ms IH]; intros g deps H; simpl in H.
  - inversion H; subst. exists []. split_and!; [by rewrite app_nil_r|done|constructor].
  - apply bind_Ok in H as ([g1 deps1] & Hstep & H).
    apply cut_off_merge_Ok in Hstep as (enter & v & o & Henter & Hv & Ho & Hre & ->).
    apply IH in H as (new & -> & Hlen & Hcut).
    exists (v :: new). split_and!.
    + by rewrite <- app_assoc.
    + simpl. by rewrite Hlen.
    + by econstructor.
Qed.

(** C6.  When cropping the condition subgraph returns, the dependency
    list it records has one entry per merge node the search stopped at
    (Merge nodes of the graph, each listed once), in their order: the
    variable registered under the name of the merge node's
    Enter producer; and as each merge node is handled, every node other
    than a Switch that reads the merge node's output is rewired to read that
    variable's body-entry tensor instead ([merges_cut]). *)
Theorem condition_dependencies_follow_merge_nodes
    (g : Graph) (context : Context) (g' : Graph) (info : GraphInfo) :
  _crop_loop_condition_sub_graph g context = Ok (g', info) →
  ∃ cond_node cond_input ops enter_nodes merge_nodes g0 g1 deps,
    loop_cond context = Some cond_node ∧
    input (current g cond_node) !! 0 = Some cond_input ∧
    find_subgraph [] [cond_input] g true = (ops, enter_nodes, merge_nodes) ∧
    NoDup merge_nodes ∧
    Forall (λ m, type m = "Merge" ∧ m ∈ nodes g) merge_nodes ∧
    for_each (connect_enter ops) enter_nodes g = Ok g0 ∧
    merges_cut (all_variables (loop_properties context)) g0 merge_nodes g1 deps ∧
    cut_off_loop_cond g1 cond_node = Ok g' ∧
    GraphInfo.dependent_vars info = Some deps ∧
    length deps = length merge_nodes.
Proof.
  unfold _crop_loop_condition_sub_graph. intros H.
  apply bind_Ok in H as (lc & Hlc & H). apply not_none_Ok in Hlc.
  apply bind_Ok in H as (ci & Hci & H). apply index_Ok in Hci.
  destruct (find_subgraph [] [ci] g true) as [[ops enters] merges] eqn:Hfind.
  apply bind_Ok in H as (g0 & Hg0 & H).
  apply bind_Ok in H as ([g1 deps] & Hg1 & H).
  apply bind_Ok in H as (g2 & Hg2 & H).
  inversion H; subst.
  apply for_each_cut_off_merge in Hg1 as (new & -> & Hlen & Hcut).
  destruct (find_subgraph_boundary _ _ _ _ _ _ _ Hfind) as [_ [Hnd Hmerge]].
  exists lc, ci, ops, enters, merges, g0, g1, new. by split_and!.
Qed.

Lemma condition_dependencies_follow_merge_nodes_witness :
  ∃ g' info,
    _crop_loop_condition_sub_graph while_loop while_context_parsed = Ok (g', info) ∧
    GraphInfo.dependent_vars info = Some [counter] ∧
    get_node_by_name g' "while/Less" =
      Some (node "while/Less" "Less" ["while/Identity:0"; "limit:0"] ["while/Less:0"]) ∧
    ∃ g0 g1,
      merges_cut (all_variables (loop_properties while_context_parsed))
                 g0 [merge_node] g1 [counter].
Proof.
  destruct (_crop_loop_condition_sub_graph while_loop while_context_parsed)
    as [[g' info]|e] eqn:Hrun; [|by vm_compute in Hrun].
  exists g', info. split; [done|].
  destruct (condition_dependencies_follow_merge_nodes _ _ _ _ Hrun)
    as (lc & ci & ops & enters & merges & g0 & g1 & deps
        & Hlc & Hci & Hfind & _ & _ & _ & Hcut & _ & Hdeps & _).
  inversion Hlc; subst lc.
  vm_compute in Hci. inversion Hci; subst ci.
  vm_compute in Hfind. inversion Hfind; subst ops enters merges.
  vm_compute in Hrun. inversion Hrun; subst g' info.
  vm_compute in Hdeps. inversion Hdeps; subst deps.
  split_and!; [reflexivity|reflexivity|]. exists g0, g1. exact Hcut.
Defined.

(** ** The groups of a round *)

Lemma filter_none {A} (P : A → Prop) `{∀ x, Decision (P x)} (l : list A) :
  Forall (λ x, ¬ P x) l → filter P l = [].
Proof.
  induction 1 as [|x l Hx Hl IH]; [done|].
  rewrite filter_cons. by rewrite decide_False.
Qed.

Lemma filter_all {A} (P : A → Prop) `{∀ x, Decision (P x)} (l : list A) :
  Forall P l → filter P l = l.
Proof.
  induction 1 as [|x l Hx Hl IH]; [done|].
  rewrite filter_cons. rewrite decide_True by done. by rewrite IH.
Qed.

(** Appending under a key that has a group extends that group; under a new
    key it adds a group at the end. *)
Lemma append_to_group_spec k n res :
  NoDup res.*1 →
  append_to_group k n res =
    if decide (k ∈ res.*1)
    then (λ kg, if decide (kg.1 = k) then (kg.1, kg.2 ++ [n]) else kg) <$> res
    else res ++ [(k, [n])].
Proof.
  induction res as [|[k' ns] res IH]; intros Hnd.
  - rewrite decide_False; [done|apply not_elem_of_nil].
  - simpl in Hnd. apply NoDup_cons in Hnd as [Hk' Hnd]. simpl.
    destruct (decide (k' = k)) as [->|Hne].
    + rewrite decide_True by (apply elem_of_cons; by left).
      f_equal. symmetry. etransitivity; [|apply list_fmap_id]. apply list_fmap_ext.
      intros i [k1 ns1] Hi. simpl. destruct (decide (k1 = k)) as [->|]; [|done].
      exfalso. apply Hk'. apply list_elem_of_lookup_2 in Hi.
      by apply (list_elem_of_fmap_2 fst) in Hi.
    + rewrite IH by done. destruct (decide (k ∈ res.*1)) as [Hin|Hout].
      * rewrite decide_True by (apply elem_of_cons; by right). done.
      * rewrite decide_False; [done|].
        intros Hin. apply elem_of_cons in Hin as [->|Hin]; done.
Qed.

Lemma append_to_group_grouped l n res :
  grouped l res → grouped (l ++ [n]) (append_to_group (group_key n) n res).
Proof.
  intros (Hnd & Hgroups & Hkeys). rewrite append_to_group_spec by done.
  destruct (decide (group_key n ∈ res.*1)) as [Hin|Hout].
  - split_and!.
    + rewrite <- list_fmap_compose.
      erewrite list_fmap_ext; [exact Hnd|]. intros i [k ns] _. simpl. by case_decide.
    + apply Forall_fmap. eapply Forall_impl; [exact Hgroups|].
      intros [k ns] [Hne Hns]. simpl in *.
      destruct (decide (k = group_key n)) as [->|Hk]; simpl.
      * split; [by destruct ns|].
        by rewrite filter_app, <- Hns, filter_cons, decide_True.
      * split; [done|].
        rewrite filter_app, <- Hns, filter_cons, decide_False by congruence.
        by rewrite app_nil_r.
    + rewrite <- list_fmap_compose.
      erewrite (list_fmap_ext _ fst res); [|intros i [k ns] _; simpl; by case_decide].
      apply Forall_app. split; [done|]. by repeat constructor.
  - split_and!.
    + rewrite fmap_app. apply NoDup_app. split_and!; [done| |apply NoDup_singleton].
      intros x Hx Hx'. apply list_elem_of_singleton in Hx'. by subst.
    + apply Forall_app. split.
      * apply Forall_forall. intros [k ns] Hkg.
        pose proof (proj1 (Forall_forall _ _) Hgroups _ Hkg) as [Hne Hns].
        simpl in *. split; [done|].
        rewrite filter_app, <- Hns, filter_cons, decide_False, app_nil_r; [done|].
        intros Heq. apply Hout. rewrite Heq.
        by apply (list_elem_of_fmap_2 fst) in Hkg.
      * constructor; [|constructor]. simpl. split; [done|].
        rewrite filter_app, filter_cons, decide_True by done.
        rewrite filter_none; [done|].
        eapply Forall_impl; [exact Hkeys|]. simpl. intros m Hm Heq. by rewrite Heq in Hm.
    + rewrite fmap_app. apply Forall_app. split.
      * eapply Forall_impl; [exact Hkeys|]. simpl. intros m Hm. apply elem_of_app. by left.
      * repeat constructor. apply elem_of_app. right. by apply list_elem_of_singleton.
Qed.

Lemma _group_nodes_by_type_inputs_grouped g :
  grouped (nodes g) (_group_nodes_by_type_inputs g).
Proof.
  unfold _group_nodes_by_type_inputs, get_nodes.
  assert (H : ∀ l pre res, grouped pre res →
            grouped (pre ++ l)
              (foldl (λ res node, append_to_group (type node, input node) node res) res l)).
  { induction l as [|n l IH]; intros pre res Hres; simpl.
    - by rewrite app_nil_r.
    - rewrite (cons_middle n pre l), app_assoc. apply IH.
      by apply (append_to_group_grouped pre n res). }
  apply (H (nodes g) [] []). split_and!; constructor.
Qed.

Lemma append_to_group_concat k n res :
  concat (append_to_group k n res).*2 ≡ₚ n :: concat res.*2.
Proof.
  induction res as [|[k' ns] res IH]; simpl; [done|].
  case_decide; simpl.
  - rewrite <- app_assoc. simpl. by rewrite <- Permutation_middle.
  - rewrite IH. by rewrite <- Permutation_middle.
Qed.

Lemma _group_nodes_by_type_inputs_concat g :
  concat (_group_nodes_by_type_inputs g).*2 ≡ₚ nodes g.
Proof.
  unfold _group_nodes_by_type_inputs, get_nodes.
  assert (H : ∀ l res,
            concat (foldl (λ res node, append_to_group (type node, input node) node res)
                          res l).*2 ≡ₚ l ++ concat res.*2).
  { induction l as [|n l IH]; intros res; simpl; [done|].
    rewrite IH, append_to_group_concat. by rewrite <- Permutation_middle. }
  rewrite H. simpl. by rewrite app_nil_r.
Qed.

(** X1.  The groups a round works on partition the nodes of the graph: no
    key occurs twice, the group of a key is never empty and lists the nodes
    of that type and those inputs in the order of the graph, and the groups
    together hold every node of the graph exactly once. *)
Theorem groups_partition_the_nodes (g : Graph) :
  let groups := _group_nodes_by_type_inputs g in
  NoDup groups.*1 ∧
  Forall (λ kg, kg.2 ≠ [] ∧
                kg.2 = filter (λ n, (type n, input n) = kg.1) (get_nodes g)) groups ∧
  concat groups.*2 ≡ₚ get_nodes g.
Proof.
  simpl. destruct (_group_nodes_by_type_inputs_grouped g) as (Hnd & Hgroups & Hkeys).
  split_and!; [done|done|apply _group_nodes_by_type_inputs_concat].
Qed.

(** ** A graph without duplicates *)

Lemma _merge_nodes_that_are_duplicated_single n st :
  _merge_nodes_that_are_duplicated [n] st = st.
Proof. done. Qed.

Lemma del_nodes_loop_distinct_attrs turns ns st :
  NoDup (attr <$> ns) → del_nodes_loop turns ns st = st.
Proof.
  revert ns st. induction turns as [|turns IH]; intros ns st Hnd; simpl.
  { by destruct ns. }
  destruct ns as [|first [|second others]]; try done.
  rewrite fmap_cons in Hnd. apply NoDup_cons in Hnd as [Hfirst Hnd].
  assert (Hall : Forall (λ node, attr node ≠ attr first) (second :: others)).
  { apply Forall_forall. intros m Hm Heq. apply Hfirst. rewrite <- Heq.
    by apply list_elem_of_fmap_2. }
  rewrite (filter_none (λ node, attr node = attr first)).
  2: { eapply Forall_impl; [exact Hall|]. simpl. tauto. }
  rewrite (filter_all (λ node, attr node ≠ attr first)) by done.
  rewrite _merge_nodes_that_are_duplicated_single. by apply IH.
Qed.

Lemma group_distinct_attrs (l : list Node) k :
  NoDup (computation <$> l) →
  NoDup (attr <$> filter (λ n, group_key n = k) l).
Proof.
  intros Hnd.
  assert (Hsub : NoDup (computation <$> filter (λ n, group_key n = k) l)).
  { eapply sublist_NoDup; [exact Hnd|]. apply fmap_sublist, sublist_filter. }
  assert (Heq : computation <$> filter (λ n, group_key n = k) l =
                (λ a, (k.1, k.2, a)) <$> (attr <$> filter (λ n, group_key n = k) l)).
  { rewrite <- list_fmap_compose. apply list_fmap_ext. intros i n Hn. simpl.
    apply list_elem_of_lookup_2, list_elem_of_filter in Hn as [Hk _].
    unfold computation, group_key in *. by subst k. }
  rewrite Heq in Hsub. by apply NoDup_fmap_1 in Hsub.
Qed.

Lemma _merge_duplicated_nodes_no_duplicates st :
  NoDup (computation <$> nodes st.2) → _merge_duplicated_nodes st = st.
Proof.
  intros Hnd. unfold _merge_duplicated_nodes.
  destruct (_group_nodes_by_type_inputs_grouped st.2) as (_ & Hgroups & _).
  revert Hgroups. generalize (_group_nodes_by_type_inputs st.2). intros groups.
  induction 1 as [|[k ns] groups [Hne Hns] Hgroups IH]; simpl; [done|].
  assert (merge_group st (k, ns) = st) as ->; [|done].
  unfold merge_group. simpl in *. destruct ns as [|first ns]; [done|].
  destruct (_skip_node_type first); [done|].
  unfold _del_nodes_if_duplicated. apply del_nodes_loop_distinct_attrs.
  rewrite Hns. by apply group_distinct_attrs.
Qed.

(** X2.  On a graph in which no two nodes have the same type, inputs and
    attributes, a merge round changes neither the graph nor the flag, and a
    new optimizer returns the graph as it is, with the flag false. *)
Theorem graph_without_duplicates_is_left_alone (self : Optimizer) (g : Graph) :
  NoDup (computation <$> nodes g) →
  _merge_duplicated_nodes (self, g) = (self, g) ∧
  _optimize_at_current_graph_level (__init__, g) = Some (mkOptimizer false, g).
Proof.
  intros Hnd. split; [by apply _merge_duplicated_nodes_no_duplicates|].
  unfold _optimize_at_current_graph_level, __init__. simpl.
  rewrite (_merge_duplicated_nodes_no_duplicates (mkOptimizer false, g)) by done.
  apply optimize_loop_flag_false.
Qed.

Lemma graph_without_duplicates_is_left_alone_witness :
  _merge_duplicated_nodes (__init__, three_abs_merged) = (__init__, three_abs_merged) ∧
  _optimize_at_current_graph_level (__init__, three_abs_merged) =
    Some (mkOptimizer false, three_abs_merged).
Proof.
  apply (graph_without_duplicates_is_left_alone __init__ three_abs_merged).
  apply (bool_decide_unpack _). reflexivity.
Defined.

(** ** The optimizer only removes nodes and rewires inputs *)

Lemma merge_into_thinned g0 r d st :
  thinned g0 st.2 → thinned g0 (merge_into r st d).2.
Proof.
  intros [Houts Hsub].
  destruct (merge_into_cases r st d) as [[_ ->]|(Hout & g1 & Hg1 & ->)]; [done|].
  split; [done|]. simpl. etransitivity; [|exact Hsub]. rewrite <- Hg1.
  apply fmap_sublist, sublist_filter.
Qed.

Lemma optimize_loop_thinned g0 rounds st st' :
  thinned g0 st.2 → optimize_loop rounds st = Some st' → thinned g0 st'.2.
Proof.
  revert st. induction rounds as [|rounds IH]; intros st Hst; simpl.
  - destruct (_graph_can_be_optimized st.1); [done|]. by intros [= <-].
  - destruct (_graph_can_be_optimized st.1); [|by intros [= <-]].
    apply IH.
    apply (_merge_duplicated_nodes_invariant st.2 (λ s, thinned g0 s.2)); [|done..].
    intros r d s _. apply merge_into_thinned.
Qed.

(** X4.  The optimizer only removes nodes and rewires inputs: the graph
    it returns declares the same outputs, and its nodes are, up to their
    inputs and in the same order, nodes of the graph it was given; so it has
    no more nodes than that one. *)
Theorem optimizer_only_removes_and_rewires (self : Optimizer) (g : Graph) (st' : State) :
  _optimize_at_current_graph_level (self, g) = Some st' →
  outputs st'.2 = outputs g ∧
  shell <$> nodes st'.2 `sublist_of` shell <$> nodes g ∧
  length (nodes st'.2) ≤ length (nodes g).
Proof.
  intros Hrun. apply (optimize_loop_thinned g) in Hrun as [Houts Hsub]; [|by split].
  split_and!; [done..|].
  apply sublist_length in Hsub. by rewrite !length_fmap in Hsub.
Qed.

Lemma optimizer_only_removes_and_rewires_witness :
  _optimize_at_current_graph_level (__init__, abs_then_neg) =
    Some (mkOptimizer false, abs_then_neg_merged) ∧
  shell <$> nodes abs_then_neg_merged `sublist_of` shell <$> nodes abs_then_neg.
Proof.
  assert (Hrun : _optimize_at_current_graph_level (__init__, abs_then_neg) =
                 Some (mkOptimizer false, abs_then_neg_merged)) by reflexivity.
  split; [exact Hrun|].
  apply (optimizer_only_removes_and_rewires __init__ abs_then_neg
           (mkOptimizer false, abs_then_neg_merged) Hrun).
Defined.

(** ** Identity nodes and graph inputs are never merged *)

Lemma _skip_node_type_by_type n m :
  type n = type m → _skip_node_type n = _skip_node_type m.
Proof. unfold _skip_node_type, is_graph_input. by intros ->. Qed.

(** What every merge step on a node that is not skipped keeps, a round
    keeps. *)
Lemma _merge_duplicated_nodes_invariant_unskipped (g0 : Graph) (P : State → Prop) :
  (∀ r d st, d ∈ nodes g0 → _skip_node_type d = false → P st → P (merge_into r st d)) →
  ∀ st, st.2 = g0 → P st → P (_merge_duplicated_nodes st).
Proof.
  intros Hstep st Hg Hst. unfold _merge_duplicated_nodes. rewrite Hg. clear Hg.
  destruct (_group_nodes_by_type_inputs_grouped g0) as (_ & Hgroups & _).
  revert st Hst. induction Hgroups as [|[k ns] groups [Hne Hns] Hgroups IH];
    intros st Hst; simpl; [done|].
  apply IH. unfold merge_group. simpl in *. destruct ns as [|first ns]; [done|].
  destruct (_skip_node_type first) eqn:Hskip; [done|].
  set (unskipped := mkGraph (filter (λ n, _skip_node_type n = false) (nodes g0))
                            (outputs g0)).
  apply (del_nodes_loop_invariant unskipped P); [| |done].
  - intros r d s Hd. simpl in Hd. apply list_elem_of_filter in Hd as [Hd1 Hd2].
    by apply Hstep.
  - assert (Hfirst : group_key first = k).
    { assert (first ∈ filter (λ n, group_key n = k) (nodes g0)) as Hin
        by (rewrite <- Hns; apply elem_of_cons; by left).
      by apply list_elem_of_filter in Hin as [? _]. }
    rewrite Hns. apply Forall_forall. intros n Hn.
    apply list_elem_of_filter in Hn as [Hk Hn]. simpl.
    apply list_elem_of_filter. split; [|done].
    rewrite <- Hskip. apply _skip_node_type_by_type.
    unfold group_key in *. congruence.
Qed.

Lemma _skip_node_type_shell n m : shell n = shell m → _skip_node_type n = _skip_node_type m.
Proof. unfold shell. intros [= _ H _ _]. by apply _skip_node_type_by_type. Qed.

Lemma merge_into_keeps_skipped g0 gr r d st :
  NoDup (name <$> nodes g0) → keeps_skipped g0 gr → d ∈ nodes gr →
  _skip_node_type d = false →
  keeps_skipped g0 st.2 → keeps_skipped g0 (merge_into r st d).2.
Proof.
  intros Hnd Hgr Hd Hskip (Hfrom & Hkept).
  destruct (merge_into_cases r st d) as [[_ ->]|(Hout & g1 & Hg1 & ->)]; [done|].
  simpl. split.
  - intros n Hn. simpl in Hn. apply list_elem_of_filter in Hn as [_ Hn].
    destruct (elem_of_shells _ _ n Hg1 Hn) as (n' & Hn' & Hs).
    destruct (Hfrom n' Hn') as (n0 & Hn0 & Hs0). exists n0. split; [done|congruence].
  - intros n0 Hn0 Hprot. destruct (Hkept n0 Hn0 Hprot) as (n & Hn & Hs).
    symmetry in Hg1. destruct (elem_of_shells _ _ n Hg1 Hn) as (n1 & Hn1 & Hs1).
    exists n1. split; [|congruence]. simpl. apply list_elem_of_filter. split; [|done].
    intros Hname.
    destruct Hgr as (Hgfrom & _).
    destruct (Hgfrom d Hd) as (d0 & Hd0 & Hds).
    assert (name d0 = name n0) as Hsame.
    { unfold shell in *. congruence. }
    assert (d0 = n0) as ->.
    { apply list_elem_of_lookup in Hd0 as [i Hi]. apply list_elem_of_lookup in Hn0 as [j Hj].
      assert (i = j) as ->; [|congruence].
      eapply NoDup_lookup; [exact Hnd| |]; rewrite list_lookup_fmap.
      - by rewrite Hi.
      - rewrite Hj. simpl. by rewrite Hsame. }
    rewrite (_skip_node_type_shell n0 d Hds) in Hprot. congruence.
Qed.

Lemma optimize_loop_keeps_skipped g0 rounds st st' :
  NoDup (name <$> nodes g0) → keeps_skipped g0 st.2 →
  optimize_loop rounds st = Some st' → keeps_skipped g0 st'.2.
Proof.
  intros Hnd. revert st. induction rounds as [|rounds IH]; intros st Hst; simpl.
  - destruct (_graph_can_be_optimized st.1); [done|]. by intros [= <-].
  - destruct (_graph_can_be_optimized st.1); [|by intros [= <-]].
    apply IH.
    apply (_merge_duplicated_nodes_invariant_unskipped st.2
             (λ s, keeps_skipped g0 s.2)); [|done..].
    intros r d s Hd Hskip Hs. by apply (merge_into_keeps_skipped g0 st.2).
Qed.

(** X3.  In a graph whose node names are distinct, an Identity node or a
    graph input is never merged away, whatever duplicates it has: the graph
    returned still has a node of that name, type, outputs and attributes. *)
Theorem identity_nodes_and_graph_inputs_are_never_merged
    (self : Optimizer) (g : Graph) (st' : State) (n : Node) :
  NoDup (name <$> nodes g) →
  n ∈ nodes g →
  type n = "Identity" ∨ is_graph_input n = true →
  _optimize_at_current_graph_level (self, g) = Some st' →
  ∃ n', n' ∈ nodes st'.2 ∧ name n' = name n ∧ type n' = type n ∧
        output n' = output n ∧ attr n' = attr n.
Proof.
  intros Hnd Hn Hkind Hrun.
  apply (optimize_loop_keeps_skipped g) in Hrun as (_ & Hkept);
    [|done|split; eauto].
  destruct (Hkept n Hn) as (n' & Hn' & Hs).
  { unfold _skip_node_type. destruct Hkind as [Hid|Hin].
    - rewrite decide_True; [done|]. rewrite Hid. apply list_elem_of_singleton. done.
    - rewrite Hin. by case_decide. }
  exists n'. unfold shell in Hs. by inversion Hs.
Qed.

Lemma identity_nodes_and_graph_inputs_are_never_merged_witness :
  ∃ n', n' ∈ nodes two_identities ∧ name n' = "id_b" ∧ type n' = "Identity" ∧
        output n' = ["b"] ∧ attr n' = ∅.
Proof.
  apply (identity_nodes_and_graph_inputs_are_never_merged __init__ two_identities
           (mkOptimizer false, two_identities) identity_b).
  - apply (bool_decide_unpack _). reflexivity.
  - apply (bool_decide_unpack _). reflexivity.
  - left. reflexivity.
  - reflexivity.
Defined.

(** ** No duplicates are left to merge *)

Lemma merge_into_flag r st d :
  _graph_can_be_optimized st.1 = true →
  _graph_can_be_optimized (merge_into r st d).1 = true.
Proof.
  intros Hst. by destruct (merge_into_cases r st d) as [[_ ->]|(_ & g1 & _ & ->)].
Qed.

Lemma progress_flag_false g st :
  progress g st → _graph_can_be_optimized st.1 = false → st = (mkOptimizer false, g).
Proof. intros [->|[H _]] Hflag; [done|congruence]. Qed.

Lemma foldl_merge_into_clean g r ds :
  _graph_can_be_optimized (foldl (merge_into r) (mkOptimizer false, g) ds).1 = false →
  Forall (λ d, output_is_graph_output d g = true) ds.
Proof.
  induction ds as [|d ds IH]; cbn [foldl]; intros Hflag; [constructor|].
  destruct (merge_into_cases r (mkOptimizer false, g) d) as [[Hout Heq]|(_ & g1 & _ & Heq)];
    rewrite Heq in Hflag.
  - constructor; [done|by apply IH].
  - exfalso.
    assert (_graph_can_be_optimized
              (foldl (merge_into r)
                 (mkOptimizer true,
                  mkGraph (filter (λ n, name n ≠ name d) (nodes g1)) (outputs g)) ds).1
            = true) as Hdirty.
    { apply (foldl_merge_into_invariant (mkGraph ds [])
               (λ st, _graph_can_be_optimized st.1 = true)).
      - intros r0 d0 st _. apply merge_into_flag.
      - by apply Forall_forall.
      - done. }
    simpl in Hflag. congruence.
Qed.

Lemma _merge_nodes_that_are_duplicated_clean g ns :
  _graph_can_be_optimized
    (_merge_nodes_that_are_duplicated ns (mkOptimizer false, g)).1 = false →
  length (filter (λ m, output_is_graph_output m g = false) ns) ≤ 1.
Proof.
  unfold _merge_nodes_that_are_duplicated. rewrite <- (sort_Permutation ns) at 2.
  destruct (sort_by_len_of_node_output_reverse ns) as [|r ds]; [simpl; lia|].
  intros Hflag. apply foldl_merge_into_clean in Hflag.
  rewrite filter_cons, (filter_none _ ds).
  - case_decide; simpl; lia.
  - eapply Forall_impl; [exact Hflag|]. simpl. intros d ->. done.
Qed.

Lemma del_nodes_loop_clean g turns ns a :
  Forall (λ n, n ∈ nodes g) ns → length ns ≤ turns →
  _graph_can_be_optimized (del_nodes_loop turns ns (mkOptimizer false, g)).1 = false →
  length (spare g a ns) ≤ 1.
Proof.
  unfold spare.
  revert ns. induction turns as [|turns IH]; intros ns Hns Hlen Hflag.
  { destruct ns; simpl in *; lia. }
  destruct ns as [|first [|second others]].
  { simpl. lia. }
  { etransitivity; [apply length_filter|]. simpl. lia. }
  simpl in Hflag.
  set (rest := second :: others) in *.
  set (class := first :: filter (λ node, attr node = attr first) rest) in *.
  set (unprocessed := filter (λ node, attr node ≠ attr first) rest) in *.
  inversion Hns as [|? ? Hfirst Hrest]; subst.
  assert (Hclass : Forall (λ n, n ∈ nodes g) class).
  { constructor; [done|]. by apply Forall_filter_keep. }
  assert (Hunp : Forall (λ n, n ∈ nodes g) unprocessed) by by apply Forall_filter_keep.
  pose proof (_merge_nodes_that_are_duplicated_invariant g (progress g)
                (λ r d st, merge_into_progress g r d st) class (mkOptimizer false, g)
                Hclass (or_introl eq_refl)) as Hprog.
  destruct (_graph_can_be_optimized
              (_merge_nodes_that_are_duplicated class (mkOptimizer false, g)).1) eqn:Hstep.
  - exfalso.
    assert (_graph_can_be_optimized
              (del_nodes_loop turns unprocessed
                 (_merge_nodes_that_are_duplicated class (mkOptimizer false, g))).1 = true)
      as Hdirty.
    { apply (del_nodes_loop_invariant g (λ st, _graph_can_be_optimized st.1 = true));
        [|done|done].
      intros r d st _. apply merge_into_flag. }
    fold rest class unprocessed in Hflag. congruence.
  - pose proof (progress_flag_false _ _ Hprog Hstep) as Hsame.
    fold rest class unprocessed in Hflag. rewrite Hsame in Hflag.
    rewrite <- list_filter_filter.
    destruct (decide (a = attr first)) as [->|Hne].
    + assert (filter (λ m, attr m = attr first) (first :: rest) = class) as ->.
      { rewrite filter_cons. by rewrite decide_True. }
      by apply _merge_nodes_that_are_duplicated_clean.
    + assert (filter (λ m, attr m = a) (first :: rest) =
              filter (λ m, attr m = a) unprocessed) as ->.
      { rewrite filter_cons, decide_False by done. unfold unprocessed.
        rewrite list_filter_filter. apply list_filter_iff. intros m. split.
        - intros ->. split; [done|]. congruence.
        - by intros [? _]. }
      rewrite list_filter_filter. apply IH; [done| |done].
      pose proof (length_filter (λ node, attr node ≠ attr first) rest).
      unfold unprocessed. simpl in *. lia.
Qed.

Lemma merge_group_clean g (groups : list (Key * list Node)) :
  Forall (λ kg, Forall (λ n, n ∈ nodes g) kg.2) groups →
  _graph_can_be_optimized (foldl merge_group (mkOptimizer false, g) groups).1 = false →
  Forall (λ kg, ∀ first a, head kg.2 = Some first → _skip_node_type first = false →
                           length (spare g a kg.2) ≤ 1) groups.
Proof.
  induction 1 as [|kg groups Hkg Hgroups IH]; simpl; intros Hflag; [constructor|].
  pose proof (merge_group_invariant g (progress g)
                (λ r d st, merge_into_progress g r d st) (mkOptimizer false, g) kg
                Hkg (or_introl eq_refl)) as Hprog.
  destruct (_graph_can_be_optimized (merge_group (mkOptimizer false, g) kg).1) eqn:Hstep.
  - exfalso.
    assert (∀ l st, Forall (λ kg, Forall (λ n, n ∈ nodes g) kg.2) l →
                    _graph_can_be_optimized st.1 = true →
                    _graph_can_be_optimized (foldl merge_group st l).1 = true) as Hdirty.
    { induction l as [|x l IHl]; intros st Hl Hst; simpl; [done|].
      inversion Hl; subst. apply IHl; [done|].
      apply (merge_group_invariant g (λ st, _graph_can_be_optimized st.1 = true));
        [|done|done].
      intros r d s _. apply merge_into_flag. }
    rewrite (Hdirty groups _ Hgroups Hstep) in Hflag. done.
  - pose proof (progress_flag_false _ _ Hprog Hstep) as Hsame.
    rewrite Hsame in Hflag. constructor; [|by apply IH].
    intros first a Hhead Hskip. unfold merge_group in Hstep.
    destruct (kg.2) as [|first' ns] eqn:Hns; [done|]. simpl in Hhead.
    injection Hhead as ->. rewrite Hskip in Hstep.
    unfold _del_nodes_if_duplicated in Hstep.
    by apply (del_nodes_loop_clean g (length (first :: ns))).
Qed.

Lemma _merge_duplicated_nodes_clean g n :
  _graph_can_be_optimized (_merge_duplicated_nodes (mkOptimizer false, g)).1 = false →
  n ∈ nodes g → _skip_node_type n = false →
  length (filter (λ m, computation m = computation n ∧
                       output_is_graph_output m g = false) (nodes g)) ≤ 1.
Proof.
  intros Hflag Hn Hskip. unfold _merge_duplicated_nodes in Hflag. simpl in Hflag.
  apply merge_group_clean in Hflag; [|apply _group_nodes_by_type_inputs_members].
  destruct (_group_nodes_by_type_inputs_grouped g) as (_ & Hgroups & Hkeys).
  pose proof (proj1 (Forall_forall _ _) Hkeys n Hn) as Hkey.
  apply list_elem_of_fmap in Hkey as ([k ns] & Hk & Hkg). simpl in Hk. subst k.
  pose proof (proj1 (Forall_forall _ _) Hgroups _ Hkg) as [Hne Hns].
  pose proof (proj1 (Forall_forall _ _) Hflag _ Hkg) as Hclean.
  simpl in *. destruct ns as [|first ns'] eqn:Hlist; [done|].
  assert (Hfirst : group_key first = group_key n).
  { assert (first ∈ filter (λ m, group_key m = group_key n) (nodes g)) as Hin
      by (rewrite <- Hns; apply elem_of_cons; by left).
    by apply list_elem_of_filter in Hin as [? _]. }
  specialize (Hclean first (attr n) eq_refl).
  rewrite (_skip_node_type_by_type first n) in Hclean
    by (unfold group_key in Hfirst; congruence).
  specialize (Hclean Hskip). unfold spare in Hclean.
  rewrite Hns, list_filter_filter in Hclean.
  erewrite list_filter_iff; [exact Hclean|].
  intros m. unfold computation, group_key. split.
  - intros [[= ? ? ?] ?]. split_and!; [done|done|congruence].
  - intros [[? ?] [= ? ?]]. split; [congruence|done].
Qed.

(** X17.  In the graph a new optimizer returns, no duplicates are left to
    merge: for every node that is not skipped, at most one of the nodes
    with its type, inputs and attributes produces no graph output. *)
Theorem no_mergeable_duplicates_remain (g : Graph) (st' : State) (n : Node) :
  _optimize_at_current_graph_level (__init__, g) = Some st' →
  n ∈ nodes st'.2 → _skip_node_type n = false →
  length (filter (λ m, computation m = computation n ∧
                       output_is_graph_output m st'.2 = false) (nodes st'.2)) ≤ 1.
Proof.
  intros Hrun Hn Hskip.
  destruct (optimize_loop_ends (S (length (nodes g))) g) as (g' & Hrun' & Hfix & _); [lia|].
  unfold _optimize_at_current_graph_level, __init__ in Hrun. simpl nodes in Hrun.
  rewrite Hrun' in Hrun. injection Hrun as <-. simpl in *.
  apply _merge_duplicated_nodes_clean; [by rewrite Hfix|done|done].
Qed.

Lemma no_mergeable_duplicates_remain_witness :
  length (filter (λ m, computation m = computation abs_a ∧
                       output_is_graph_output m three_abs_merged = false)
                 (nodes three_abs_merged)) ≤ 1.
Proof.
  apply (no_mergeable_duplicates_remain three_abs
           (mkOptimizer false, three_abs_merged) abs_a).
  - reflexivity.
  - apply (bool_decide_unpack _). reflexivity.
  - reflexivity.
Defined.

(** ** Nothing reads the outputs of a node that was merged away *)

Lemma unread_consumers o g : unread (Some o) g ↔ find_output_consumers g o = [].
Proof.
  unfold unread, find_output_consumers. split.
  - intros H. by apply filter_none.
  - intros H. apply Forall_forall. intros n Hn Hin.
    by apply (filter_nil_not_elem_of _ _ n H).
Qed.

Lemma replace_input_inputs old new n x :
  x ∈ input (replace_input old new n) → x = new ∨ (x ≠ old ∧ x ∈ input n).
Proof.
  unfold replace_input. simpl. intros Hx.
  apply list_elem_of_fmap in Hx as (i & -> & Hi).
  case_decide; [by left|by right].
Qed.

Lemma replace_all_inputs_everywhere_unread old new g x :
  x = old ∧ old ≠ new ∨ x ≠ new ∧ unread x g →
  unread x (replace_all_inputs (name <$> get_nodes g) old new g).
Proof.
  intros Hx. unfold unread, replace_all_inputs. simpl. apply Forall_fmap.
  apply Forall_forall. intros n Hn. simpl.
  rewrite decide_True by by apply list_elem_of_fmap_2.
  intros Hin. apply replace_input_inputs in Hin as [->|[Hne Hin]].
  - destruct Hx as [[-> Hne]|[Hne _]]; done.
  - destruct Hx as [[-> _]|[_ Hun]]; [done|].
    by apply (proj1 (Forall_forall _ _) Hun n Hn).
Qed.

Lemma rewire_outputs_unread (pairs : list (string * string)) g x :
  let g' := foldl (λ gr '(old_input, new_input),
                     replace_all_inputs (name <$> get_nodes gr)
                       (Some old_input) (Some new_input) gr) g pairs in
  x ∉ Some <$> pairs.*2 →
  unread x g ∨ x ∈ Some <$> pairs.*1 →
  unread x g'.
Proof.
  revert g. induction pairs as [|[old new] pairs IH]; intros g; simpl.
  - intros _ [H|H]; [done|by apply elem_of_nil in H].
  - intros Hnew Hx. apply not_elem_of_cons in Hnew as [Hne Hnew].
    apply IH; [done|].
    destruct (decide (x = Some old)) as [->|Hold].
    + left. apply replace_all_inputs_everywhere_unread. left. split; [done|congruence].
    + destruct Hx as [Hun|Hin].
      * left. apply replace_all_inputs_everywhere_unread. right. split; [congruence|done].
      * apply elem_of_cons in Hin as [->|Hin]; [done|]. by right.
Qed.

Lemma remove_node_unread nm g x : unread x g → unread x (remove_node nm g).
Proof. unfold unread, remove_node. simpl. apply Forall_filter_keep. Qed.

Lemma zip_fst_le {A B} (l : list A) (k : list B) :
  length l ≤ length k → (zip l k).*1 = l.
Proof.
  revert k. induction l as [|a l IH]; intros [|b k] Hlen; simpl in *; try done; [lia|].
  f_equal. apply IH. lia.
Qed.

Lemma zip_snd_elem_of {A B} (l : list A) (k : list B) y :
  y ∈ (zip l k).*2 → y ∈ k.
Proof.
  revert k. induction l as [|a l IH]; intros [|b k]; simpl; intros Hy;
    try (by apply elem_of_nil in Hy).
  apply elem_of_cons in Hy as [->|Hy]; [by left|]. right. by apply IH.
Qed.

(** A merge step leaves unread what was unread and is no output of the node
    retained; and when it removes the node, whose outputs are all different
    from the retained node's and no more than those, it leaves the removed
    node's outputs unread. *)
Lemma merge_into_unread r st d x :
  x ∉ Some <$> output r →
  unread x st.2 ∨
    (output_is_graph_output d st.2 = false ∧ x ∈ Some <$> output d ∧
     _len_of_node_output d ≤ _len_of_node_output r) →
  unread x (merge_into r st d).2.
Proof.
  intros Hr Hx. destruct st as [self g]. unfold merge_into. simpl in *.
  destruct (output_is_graph_output d g) eqn:Hout.
  { simpl. destruct Hx as [H|[H _]]; [done|discriminate]. }
  simpl. apply remove_node_unread. apply rewire_outputs_unread.
  - intros Hin. apply Hr. apply list_elem_of_fmap in Hin as (y & -> & Hy).
    apply list_elem_of_fmap_2. by eapply zip_snd_elem_of.
  - destruct Hx as [H|(_ & Hd & Hlen)]; [by left|right].
    by rewrite zip_fst_le.
Qed.

Lemma foldl_merge_into_unread r ds st x :
  x ∉ Some <$> output r →
  unread x st.2 ∨
    (∃ d, d ∈ ds ∧ output_is_graph_output d st.2 = false ∧ x ∈ Some <$> output d ∧
          _len_of_node_output d ≤ _len_of_node_output r) →
  unread x (foldl (merge_into r) st ds).2.
Proof.
  intros Hr. revert st. induction ds as [|d0 ds IH]; intros st Hx; simpl.
  { destruct Hx as [H|(d & Hd & _)]; [done|by apply elem_of_nil in Hd]. }
  apply IH. destruct Hx as [H|(d & Hd & Hout & Hin & Hlen)].
  - left. apply merge_into_unread; [done|by left].
  - apply elem_of_cons in Hd as [->|Hd].
    + left. apply merge_into_unread; [done|by right].
    + right. exists d. split_and!; try done.
      rewrite <- Hout. apply output_is_graph_output_shell; [done|apply merge_into_names].
Qed.

(** X5.  Once a class of duplicates has been merged, nothing reads an
    output of a node that was merged away, that is, of a node of the class
    other than the retained one that produces no graph output; an output
    name that the retained node has too is left aside. *)
Theorem merged_node_outputs_are_no_longer_read
    (ns : list Node) (st : State) (r d : Node) (o : string) :
  node_to_retain ns = Some r →
  d ∈ ns → d ≠ r →
  output_is_graph_output d st.2 = false →
  o ∈ output d → o ∉ output r →
  find_output_consumers (_merge_nodes_that_are_duplicated ns st).2 o = [].
Proof.
  intros Hr Hd Hne Hout Ho Hor. apply unread_consumers.
  assert (Hns : ns ≠ []) by (intros ->; by apply elem_of_nil in Hd).
  destruct (node_to_retain_first_widest ns Hns) as (r' & pre & post & Heq & Hr' & Hpre & Hpost).
  rewrite Hr in Hr'. inversion Hr'; subst r'. clear Hr'.
  unfold _merge_nodes_that_are_duplicated. unfold node_to_retain in Hr.
  pose proof (sort_Permutation ns) as Hperm.
  destruct (sort_by_len_of_node_output_reverse ns) as [|r' ds]; [done|].
  simpl in Hr. inversion Hr; subst r'.
  apply foldl_merge_into_unread.
  - intros Hin. apply list_elem_of_fmap in Hin as (y & [= <-] & Hy). done.
  - right. exists d. split_and!; [|done|by apply list_elem_of_fmap_2|].
    + rewrite <- Hperm in Hd. apply elem_of_cons in Hd as [->|Hd]; done.
    + rewrite Heq in Hd. apply elem_of_app in Hd as [Hd|Hd].
      * pose proof (proj1 (Forall_forall _ _) Hpre d Hd). simpl in *. lia.
      * apply elem_of_cons in Hd as [->|Hd]; [done|].
        by apply (proj1 (Forall_forall _ _) Hpost d Hd).
Qed.

Lemma merged_node_outputs_are_no_longer_read_witness :
  find_output_consumers three_abs "b" ≠ [] ∧
  find_output_consumers
    (_merge_nodes_that_are_duplicated [abs_a; abs_b; abs_c] (__init__, three_abs)).2 "b" = [].
Proof.
  split; [discriminate|].
  apply (merged_node_outputs_are_no_longer_read [abs_a; abs_b; abs_c]
           (__init__, three_abs) abs_a abs_b "b").
  - reflexivity.
  - apply (bool_decide_unpack _). reflexivity.
  - discriminate.
  - reflexivity.
  - apply (bool_decide_unpack _). reflexivity.
  - apply (bool_decide_unpack _). reflexivity.
Defined.

(** ** Looking a registered variable up *)

Lemma dict_get_app {V} k (d1 d2 : list (string * V)) :
  dict_get k (d1 ++ d2) = if decide (k ∈ d1.*1) then dict_get k d1 else dict_get k d2.
Proof.
  unfold dict_get. induction d1 as [|[k' v'] d1 IH].
  - rewrite decide_False; [done|apply not_elem_of_nil].
  - rewrite fmap_cons, <- app_comm_cons. cbn [List.find fst].
    case_bool_decide as Hk.
    + subst k'. rewrite decide_True; [done|apply elem_of_cons; by left].
    + rewrite IH. destruct (decide (k ∈ d1.*1)) as [Hin|Hout].
      * rewrite decide_True; [done|apply elem_of_cons; by right].
      * rewrite decide_False; [done|].
        intros Hin. apply elem_of_cons in Hin as [->|Hin]; done.
Qed.

Lemma dict_get_missing {V} k (d : list (string * V)) :
  k ∉ d.*1 → dict_get k d = Raise (KeyError k).
Proof.
  unfold dict_get. induction d as [|[k' v'] d IH]; simpl; [done|].
  intros Hk. apply not_elem_of_cons in Hk as [Hne Hk].
  rewrite bool_decide_eq_false_2 by done. by apply IH.
Qed.

Lemma dict_update_disjoint {V} (d other : list (string * V)) :
  NoDup (d.*1 ++ other.*1) → dict_update d other = d ++ other.
Proof.
  unfold dict_update. revert d. induction other as [|[k v] other IH]; intros d Hnd; simpl.
  - by rewrite app_nil_r.
  - simpl in Hnd. rewrite dict_set_new.
    + rewrite IH; [by rewrite <- app_assoc|].
      rewrite fmap_app, <- app_assoc. done.
    + apply NoDup_app in Hnd as (_ & Hdis & _). intros Hin.
      apply (Hdis k Hin). by left.
Qed.

Lemma add_variable_Ok self var self' :
  add_variable self var = Ok self' →
  (enter_name var ∉ registered self) ∧
  self' = (if is_tensor_array var
           then mkLoopProperties (state_variables self)
                  (scan_variables self ++ [(enter_name var, var)])
                  (tensor_array_inputs self)
           else mkLoopProperties (state_variables self ++ [(enter_name var, var)])
                  (scan_variables self) (tensor_array_inputs self)).
Proof.
  unfold add_variable, dict_contains. intros H.
  apply bind_Ok in H as ([] & Hscan & H). apply make_sure_Ok in Hscan.
  apply bind_Ok in H as ([] & Hstate & H). apply make_sure_Ok in Hstate.
  apply negb_true_iff, bool_decide_eq_false in Hscan, Hstate.
  split.
  - unfold registered. intros Hin. apply elem_of_app in Hin as [Hin|Hin]; done.
  - destruct (is_tensor_array var); simpl in H; inversion H; subst;
      by rewrite dict_set_new.
Qed.

Lemma registered_add_variable self var self' :
  add_variable self var = Ok self' →
  registered self' ≡ₚ enter_name var :: registered self.
Proof.
  intros H. apply add_variable_Ok in H as [_ ->]. unfold registered.
  destruct (is_tensor_array var); simpl; rewrite fmap_app; simpl.
  - by rewrite app_assoc, <- Permutation_cons_append.
  - rewrite <- app_assoc. simpl. by rewrite <- Permutation_middle.
Qed.

(** X6.  Registering a variable under a new name makes it the variable
    found under that name among all the variables, where looking it up
    raised a KeyError before; every other name gives what it gave; and all
    the variables are the state variables followed by the scan variables. *)
Theorem registered_variable_is_found_by_name
    (self self' : LoopProperties) (var : LoopVariable) :
  NoDup (registered self) →
  add_variable self var = Ok self' →
  all_variables self' = state_variables self' ++ scan_variables self' ∧
  dict_get (enter_name var) (all_variables self) = Raise (KeyError (enter_name var)) ∧
  dict_get (enter_name var) (all_variables self') = Ok var ∧
  ∀ k, k ≠ enter_name var →
       dict_get k (all_variables self') = dict_get k (all_variables self).
Proof.
  intros Hnd Hadd.
  pose proof (registered_add_variable _ _ _ Hadd) as Hperm.
  apply add_variable_Ok in Hadd as [Hnew Hself'].
  assert (Hnd' : NoDup (registered self')).
  { rewrite Hself' in *. rewrite Hperm. by constructor. }
  unfold all_variables. rewrite (dict_update_disjoint _ _ Hnd), (dict_update_disjoint _ _ Hnd').
  unfold registered in Hnew. apply not_elem_of_app in Hnew as [Hst Hsc].
  split_and!; [done| | |].
  - apply dict_get_missing. rewrite fmap_app. by apply not_elem_of_app.
  - subst self'. destruct (is_tensor_array var); simpl.
    + rewrite dict_get_app, decide_False by done.
      rewrite dict_get_app, decide_False by done.
      unfold dict_get. simpl. by rewrite bool_decide_eq_true_2.
    + rewrite dict_get_app, decide_True.
      2: { rewrite fmap_app. apply elem_of_app. right. by left. }
      rewrite dict_get_app, decide_False by done.
      unfold dict_get. simpl. by rewrite bool_decide_eq_true_2.
  - intros k Hk. subst self'. destruct (is_tensor_array var); simpl.
    + rewrite !dict_get_app. case_decide; [done|].
      destruct (decide (k ∈ (scan_variables self).*1)); [done|].
      unfold dict_get at 1. simpl. rewrite bool_decide_eq_false_2 by done. simpl.
      by rewrite dict_get_missing.
    + rewrite (dict_get_app k (state_variables self ++ _)),
        (dict_get_app k (state_variables self) (scan_variables self)).
      rewrite fmap_app. simpl.
      destruct (decide (k ∈ (state_variables self).*1)) as [Hin|Hout].
      * rewrite decide_True by (apply elem_of_app; by left).
        by rewrite dict_get_app, decide_True.
      * rewrite decide_False.
        2: { intros Hin. apply elem_of_app in Hin as [Hin|Hin]; [done|].
             apply list_elem_of_singleton in Hin. done. }
        done.
Qed.

Lemma registered_variable_is_found_by_name_witness :
  add_variable LoopProperties__init__ counter =
    Ok (mkLoopProperties [("while/Enter", counter)] [] []) ∧
  dict_get "while/Enter"
    (all_variables (mkLoopProperties [("while/Enter", counter)] [] [])) = Ok counter.
Proof.
  assert (Hadd : add_variable LoopProperties__init__ counter =
                 Ok (mkLoopProperties [("while/Enter", counter)] [] [])) by reflexivity.
  split; [exact Hadd|].
  apply (registered_variable_is_found_by_name LoopProperties__init__
           (mkLoopProperties [("while/Enter", counter)] [] []) counter);
    [constructor|exact Hadd].
Defined.

(** ** The two buckets *)

Lemma bucketed_add_variable self var self' :
  bucketed self → add_variable self var = Ok self' → bucketed self'.
Proof.
  intros (Hnd & Hst & Hsc) Hadd.
  pose proof (registered_add_variable _ _ _ Hadd) as Hperm.
  apply add_variable_Ok in Hadd as [Hnew Hself'].
  split_and!.
  - rewrite Hperm. by constructor.
  - subst self'. destruct (is_tensor_array var) eqn:Hta; simpl; [done|].
    apply Forall_app. split; [done|]. by repeat constructor.
  - subst self'. destruct (is_tensor_array var) eqn:Hta; simpl; [|done].
    apply Forall_app. split; [done|]. by repeat constructor.
Qed.

Lemma get_variables_bucketed self :
  bucketed self →
  get_variables self None =
    dict_values (state_variables self) ++ dict_values (scan_variables self) ∧
  get_variables self (Some is_tensor_array) = dict_values (scan_variables self) ∧
  get_variables self (Some (λ v, negb (is_tensor_array v))) =
    dict_values (state_variables self).
Proof.
  intros (Hnd & Hst & Hsc).
  unfold get_variables, all_variables, dict_values.
  rewrite (dict_update_disjoint _ _ Hnd), fmap_app.
  split_and!; [done| |].
  - rewrite filter_app.
    rewrite (filter_none (λ v, is_tensor_array v = true) (state_variables self).*2).
    2: { apply Forall_fmap. eapply Forall_impl; [exact Hst|].
         intros [k v] [_ Hv]. simpl in *. congruence. }
    rewrite filter_all; [done|].
    apply Forall_fmap. eapply Forall_impl; [exact Hsc|]. by intros [k v] [_ Hv].
  - rewrite filter_app.
    rewrite (filter_none (λ v, negb (is_tensor_array v) = true) (scan_variables self).*2).
    2: { apply Forall_fmap. eapply Forall_impl; [exact Hsc|].
         intros [k v] [_ Hv]. simpl in *. by rewrite Hv. }
    rewrite app_nil_r. apply filter_all.
    apply Forall_fmap. eapply Forall_impl; [exact Hst|].
    intros [k v] [_ Hv]. simpl in *. by rewrite Hv.
Qed.

(** X7.  When every variable is kept under its own name, the tensor
    arrays in the scan bucket and the others in the state bucket, then
    registering a variable keeps it so; [get_variables] without a checker
    lists the state variables and then the scan variables, with the
    tensor-array test as checker it lists the scan bucket, and with the
    negated test the state bucket. *)
Theorem buckets_sort_variables_by_the_tensor_array_flag (self : LoopProperties) :
  bucketed self →
  (∀ var self', add_variable self var = Ok self' → bucketed self') ∧
  get_variables self None =
    dict_values (state_variables self) ++ dict_values (scan_variables self) ∧
  get_variables self (Some is_tensor_array) = dict_values (scan_variables self) ∧
  get_variables self (Some (λ v, negb (is_tensor_array v))) =
    dict_values (state_variables self).
Proof.
  intros Hb. split; [intros var self'; by apply bucketed_add_variable|].
  by apply get_variables_bucketed.
Qed.

Lemma buckets_sort_variables_by_the_tensor_array_flag_witness :
  bucketed counter_and_accumulator ∧
  get_variables counter_and_accumulator None = [counter; accumulator] ∧
  get_variables counter_and_accumulator (Some is_tensor_array) = [accumulator] ∧
  get_variables counter_and_accumulator (Some (λ v, negb (is_tensor_array v))) = [counter].
Proof.
  assert (Hb : bucketed counter_and_accumulator).
  { split_and!.
    - apply (bool_decide_unpack _). reflexivity.
    - repeat constructor.
    - repeat constructor. }
  split; [exact Hb|].
  apply (buckets_sort_variables_by_the_tensor_array_flag counter_and_accumulator Hb).
Defined.

(** ** The lists read off the buckets *)

(** X18.  Registering a variable that is not a tensor array appends its
    body-entry tensor, its initial value, its next-iteration tensor and its
    exit to the four state lists, which so stay in step, and leaves the two
    scan-output lists alone; registering a tensor array appends to the two
    scan-output lists and leaves the state lists alone.  The scan inputs do
    not change either way. *)
Theorem state_and_scan_lists_grow_in_step (self self' : LoopProperties) (var : LoopVariable) :
  add_variable self var = Ok self' →
  scan_inputs self' = scan_inputs self ∧
  scan_inputs_initial_values self' = scan_inputs_initial_values self ∧
  if is_tensor_array var then
    scan_outputs self' = scan_outputs self ++ [next_iteration_input var] ∧
    scan_outputs_exits self' = scan_outputs_exits self ++ [exit_output var] ∧
    state_inputs self' = state_inputs self ∧
    state_inputs_initial_values self' = state_inputs_initial_values self ∧
    state_outputs self' = state_outputs self ∧
    state_outputs_exits self' = state_outputs_exits self
  else
    state_inputs self' = state_inputs self ++ [switch_true_identity_output var] ∧
    state_inputs_initial_values self' =
      state_inputs_initial_values self ++ [enter_input_id var] ∧
    state_outputs self' = state_outputs self ++ [next_iteration_input var] ∧
    state_outputs_exits self' = state_outputs_exits self ++ [exit_output var] ∧
    scan_outputs self' = scan_outputs self ∧
    scan_outputs_exits self' = scan_outputs_exits self.
Proof.
  intros H. apply add_variable_Ok in H as [_ ->].
  unfold scan_inputs, scan_inputs_initial_values, scan_outputs, scan_outputs_exits,
    state_inputs, state_inputs_initial_values, state_outputs, state_outputs_exits,
    dict_values.
  destruct (is_tensor_array var); simpl; rewrite !fmap_app; done.
Qed.

Lemma state_and_scan_lists_grow_in_step_witness :
  add_variable (mkLoopProperties [("while/Enter", counter)] [] []) accumulator =
    Ok counter_and_accumulator ∧
  scan_outputs counter_and_accumulator = [next_iteration_input accumulator] ∧
  state_inputs counter_and_accumulator = [switch_true_identity_output counter].
Proof.
  assert (H : add_variable (mkLoopProperties [("while/Enter", counter)] [] []) accumulator =
              Ok counter_and_accumulator) by reflexivity.
  split; [exact H|].
  destruct (state_and_scan_lists_grow_in_step _ _ _ H) as (_ & _ & Hrest).
  simpl in Hrest. destruct Hrest as (Hso & _ & Hsi & _). split; [exact Hso|exact Hsi].
Defined.

(** ** What classification returns *)

Lemma for_each_collect_Ok {A} (l : list (option A)) acc ps :
  for_each (λ acc o, let* p := not_none o in Ok (acc ++ [p])) l acc = Ok ps →
  Some <$> ps = (Some <$> acc) ++ l.
Proof.
  revert acc. induction l as [|o l IH]; intros acc H; simpl in H.
  - inversion H; subst. by rewrite app_nil_r.
  - apply bind_Ok in H as (acc' & Hstep & H).
    apply bind_Ok in Hstep as (p & Hp & Hstep). apply not_none_Ok in Hp. subst o.
    inversion Hstep; subst acc'. apply IH in H. rewrite H, fmap_app, <- app_assoc. done.
Qed.

(** The Python expression [[n for n in node.inputs if n.type == ty][0]],
    when it has a value: every input has a producer, and the value is the
    first producer of that type, a node of the graph. *)
Lemma first_input_of_type_Ok g n ty p :
  first_input_of_type g n ty = Ok p →
  type p = ty ∧ p ∈ nodes g ∧ Some p ∈ inputs g n ∧
  ∃ producers, inputs g n = Some <$> producers ∧
               head (filter (λ q, type q = ty) producers) = Some p.
Proof.
  unfold first_input_of_type. intros H.
  apply bind_Ok in H as (ps & Hps & H). apply index_Ok in H.
  apply for_each_collect_Ok in Hps. simpl in Hps. symmetry in Hps.
  assert (Hin : p ∈ filter (λ q, type q = ty) ps) by by eapply list_elem_of_lookup_2.
  apply list_elem_of_filter in Hin as [Hty Hin].
  assert (Hsome : Some p ∈ inputs g n) by (rewrite Hps; by apply list_elem_of_fmap_2).
  split_and!; [done| |done|].
  - unfold inputs in Hsome. apply list_elem_of_fmap in Hsome as (i & Hi & _).
    symmetry in Hi. by eapply get_node_by_output_elem.
  - exists ps. split; [done|]. by rewrite head_lookup.
Qed.

Lemma LoopVariable__init___fields nm init next sti ex ta idx v :
  LoopVariable__init__ nm init next sti ex ta idx = Ok v →
  truthy next = true ∧
  v = mkLoopVariable nm init (mkTensorValueInfo next) (mkTensorValueInfo sti)
                     (mkTensorValueInfo ex) ta idx.
Proof.
  unfold LoopVariable__init__. intros H.
  apply bind_Ok in H as ([] & Hsure & H). apply make_sure_Ok in Hsure.
  by inversion H.
Qed.

(** The steps behind a variable that [_get_loop_var_from_switch] returns. *)
Lemma _get_loop_var_from_switch_Ok g s v :
  _get_loop_var_from_switch g s = Ok (Some v) →
  ∃ m enter ni target last sti exit0 init,
    type s = "Switch" ∧ inputs g s !! 0 = Some (Some m) ∧ type m = "Merge" ∧
    switch_true_branch g s = Ok sti ∧
    first_input_of_type g m "Enter" = Ok enter ∧ input enter !! 0 = Some target ∧
    first_input_of_type g m "NextIteration" = Ok ni ∧ input ni !! 0 = Some last ∧
    switch_false_branch g s = Ok exit0 ∧
    get_node_by_output g target = Some init ∧
    truthy (utils.id (next_iteration_input v)) = true ∧
    enter_name v = name enter ∧ enter_input_id v = target ∧
    utils.id (switch_true_identity_output v) = sti ∧
    is_tensor_array v = is_tensor_array_op init ∧
    if is_tensor_array_op init then
      ∃ w, get_node_by_output g last = Some w ∧
           is_tensor_array_write_op w = true ∧
           input w !! 2 = Some (utils.id (next_iteration_input v)) ∧
           input w !! 1 = Some (ta_index_id v) ∧
           if truthy exit0 then
             ∃ e gather o,
               exit0 = Some e ∧
               head (filter (λ n, is_tensor_array_gather_op n = true)
                            (find_output_consumers g e)) = Some gather ∧
               output gather !! 0 = Some o ∧
               utils.id (exit_output v) = Some o
           else utils.id (exit_output v) = exit0
    else
      utils.id (next_iteration_input v) = last ∧
      utils.id (exit_output v) = exit0 ∧
      ta_index_id v = None.
Proof.
  unfold _get_loop_var_from_switch. intros H.
  destruct (decide (type s ≠ "Switch")) as [|Hs]; [discriminate|].
  apply dec_stable in Hs.
  apply bind_Ok in H as (om & Hom & H). apply index_Ok in Hom.
  apply bind_Ok in H as (m & Hm & H). apply not_none_Ok in Hm. subst om.
  destruct (decide (type m ≠ "Merge")) as [|Hmerge]; [discriminate|].
  apply dec_stable in Hmerge.
  apply bind_Ok in H as (sti & Hsti & H).
  apply bind_Ok in H as (enter & Henter & H).
  apply bind_Ok in H as (target & Htarget & H). apply index_Ok in Htarget.
  apply bind_Ok in H as (oin & _ & H).
  apply bind_Ok in H as (? & _ & H).
  apply bind_Ok in H as (ni & Hni & H).
  apply bind_Ok in H as (last & Hlast & H). apply index_Ok in Hlast.
  apply bind_Ok in H as (exit0 & Hexit & H).
  apply bind_Ok in H as (init & Hinit & H). apply not_none_Ok in Hinit.
  exists m, enter, ni, target, last, sti, exit0, init.
  destruct (is_tensor_array_op init) eqn:Hta.
  - apply bind_Ok in H as (w & Hw & H). apply not_none_Ok in Hw.
    apply bind_Ok in H as ([] & Hsure & H). apply make_sure_Ok in Hsure.
    apply bind_Ok in H as (value & Hvalue & H). apply index_Ok in Hvalue.
    apply bind_Ok in H as (idx & Hidx & H). apply index_Ok in Hidx.
    apply bind_Ok in H as (ex & Hex & H).
    apply bind_Ok in H as (v' & Hv & H). inversion H; subst v'.
    apply LoopVariable__init___fields in Hv as [Hnext ->]. simpl.
    split_and!; try done.
    exists w. split_and!; try done.
    destruct exit0 as [e|]; simpl in *; [|by inversion Hex].
    destruct (bool_decide (e ≠ EmptyString)); [|by inversion Hex].
    apply bind_Ok in Hex as (gather & Hgather & Hex). apply index_Ok in Hgather.
    apply bind_Ok in Hex as (o & Ho & Hex). apply index_Ok in Ho.
    inversion Hex; subst ex. exists e, gather, o.
    split_and!; try done. by rewrite head_lookup.
  - apply bind_Ok in H as (v' & Hv & H). inversion H; subst v'.
    apply LoopVariable__init___fields in Hv as [Hnext ->]. simpl.
    by split_and!.
Qed.

(** X8.  A variable classified from a switch has a next-iteration id that
    is neither [None] nor empty.  The switch reads a Merge node; an Enter
    node of the graph feeds that Merge node; the variable has the name of
    the Enter node and, as initial value, its first input; and it is a
    tensor array exactly when the producer of the initial value is a
    tensor-array op.  For a tensor array, the NextIteration node of the
    Merge node is fed by a TensorArrayWriteV3 node whose inputs 2 and 1 are
    the next-iteration id and the index id; otherwise the first input of
    the NextIteration node is the next-iteration id, and there is no index
    id. *)
Theorem classified_variable_is_well_formed (g : Graph) (s : Node) (v : LoopVariable) :
  _get_loop_var_from_switch g s = Ok (Some v) →
  truthy (utils.id (next_iteration_input v)) = true ∧
  (∃ m enter init,
     inputs g s !! 0 = Some (Some m) ∧ type m = "Merge" ∧
     enter ∈ nodes g ∧ type enter = "Enter" ∧ Some enter ∈ inputs g m ∧
     enter_name v = name enter ∧ input enter !! 0 = Some (enter_input_id v) ∧
     get_node_by_output g (enter_input_id v) = Some init ∧
     is_tensor_array v = is_tensor_array_op init ∧
     if is_tensor_array v then
       ∃ ni w, Some ni ∈ inputs g m ∧ type ni = "NextIteration" ∧
               (∃ fed, input ni !! 0 = Some fed ∧ get_node_by_output g fed = Some w) ∧
               type w = "TensorArrayWriteV3" ∧
               input w !! 2 = Some (utils.id (next_iteration_input v)) ∧
               input w !! 1 = Some (ta_index_id v)
     else
       ∃ ni, Some ni ∈ inputs g m ∧ type ni = "NextIteration" ∧
             input ni !! 0 = Some (utils.id (next_iteration_input v)) ∧
             ta_index_id v = None).
Proof.
  intros H. apply _get_loop_var_from_switch_Ok in H
    as (m & enter & ni & target & last & sti & exit0 & init & Hs & Hm & Hmerge & _
        & Henter & Htarget & Hni & Hlast & _ & Hinit & Hnext & Hname & Hin & _ & Hta & Hrest).
  split; [done|].
  apply first_input_of_type_Ok in Henter as (Hety & Hein & Hesome & _).
  apply first_input_of_type_Ok in Hni as (Hnty & _ & Hnsome & _).
  exists m, enter, init. rewrite Hin, Hta. split_and!; try done.
  destruct (is_tensor_array_op init).
  - destruct Hrest as (w & Hw & Hwrite & Hvalue & Hidx & _).
    exists ni, w. split_and!; try done; [by exists last|].
    unfold is_tensor_array_write_op in Hwrite. by apply bool_decide_eq_true in Hwrite.
  - destruct Hrest as (Hl & _ & Hnone). exists ni. split_and!; try done. by rewrite Hl.
Qed.

Lemma classified_variable_is_well_formed_witness :
  _get_loop_var_from_switch while_loop switch_node = Ok (Some counter) ∧
  truthy (utils.id (next_iteration_input counter)) = true.
Proof.
  assert (H : _get_loop_var_from_switch while_loop switch_node = Ok (Some counter))
    by reflexivity.
  split; [exact H|].
  apply (classified_variable_is_well_formed while_loop switch_node counter H).
Defined.

Lemma switch_false_branch_Ok g s exit0 :
  switch_false_branch g s = Ok exit0 →
  ∃ f, output s !! 0 = Some f ∧
       match find_output_consumers g f with
       | [] => exit0 = None
       | [c] => type c = "Exit" ∧ ∃ e, output c !! 0 = Some e ∧ exit0 = Some e
       | _ => False
       end.
Proof.
  unfold switch_false_branch. intros H.
  apply bind_Ok in H as (f & Hf & H). apply index_Ok in Hf. exists f. split; [done|].
  destruct (find_output_consumers g f) as [|c [|c' cs]].
  - by inversion H.
  - destruct (decide (type c ≠ "Exit")) as [|Hc]; [discriminate|]. apply dec_stable in Hc.
    apply bind_Ok in H as (e & He & H). apply index_Ok in He.
    split; [done|]. exists e. split; [done|]. by inversion H.
  - discriminate.
Qed.

(** X9.  The exit of a classified variable.  When nothing reads the false
    output of the switch there is none.  When one node reads it, that node
    is an Exit node, and the exit is its first output, or, for a tensor
    array whose Exit output has a non-empty name, the first output of the
    first of the readers of that output, in graph order, that is a
    tensor-array gather node.  A switch whose false output has two readers
    or more is never classified. *)
Theorem classified_variable_exit (g : Graph) (s : Node) (v : LoopVariable) :
  _get_loop_var_from_switch g s = Ok (Some v) →
  ∃ f, output s !! 0 = Some f ∧
       match find_output_consumers g f with
       | [] => utils.id (exit_output v) = None
       | [c] =>
           type c = "Exit" ∧
           ∃ e, output c !! 0 = Some e ∧
                if is_tensor_array v then
                  if bool_decide (e ≠ EmptyString) then
                    ∃ gather o,
                      head (filter (λ n, is_tensor_array_gather_op n = true)
                                   (find_output_consumers g e)) = Some gather ∧
                      gather ∈ find_output_consumers g e ∧
                      type gather = "TensorArrayGatherV3" ∧
                      output gather !! 0 = Some o ∧
                      utils.id (exit_output v) = Some o
                  else utils.id (exit_output v) = Some e
                else utils.id (exit_output v) = Some e
       | _ => False
       end.
Proof.
  intros H. apply _get_loop_var_from_switch_Ok in H
    as (m & enter & ni & target & last & sti & exit0 & init & _ & _ & _ & _
        & _ & _ & _ & _ & Hexit & _ & _ & _ & _ & _ & Hta & Hrest).
  apply switch_false_branch_Ok in Hexit as (f & Hf & Hshape).
  exists f. split; [done|]. rewrite Hta.
  destruct (find_output_consumers g f) as [|c [|c' cs]]; [| |done].
  - subst exit0. destruct (is_tensor_array_op init).
    + by destruct Hrest as (w & _ & _ & _ & _ & Hex).
    + by destruct Hrest as (_ & Hex & _).
  - destruct Hshape as (Hc & e & He & ->). split; [done|]. exists e. split; [done|].
    destruct (is_tensor_array_op init).
    + destruct Hrest as (w & _ & _ & _ & _ & Hex). simpl in Hex.
      destruct (bool_decide (e ≠ EmptyString)); [|done].
      destruct Hex as (e' & gather & o & [= <-] & Hgather & Ho & Hexit).
      exists gather, o.
      assert (Hin : gather ∈ filter (λ n, is_tensor_array_gather_op n = true)
                                    (find_output_consumers g e)).
      { rewrite head_lookup in Hgather. by eapply list_elem_of_lookup_2. }
      apply list_elem_of_filter in Hin as [Hty Hin].
      split_and!; try done.
      unfold is_tensor_array_gather_op in Hty. by apply bool_decide_eq_true in Hty.
    + by destruct Hrest as (_ & Hex & _).
Qed.

Lemma classified_variable_exit_witness :
  _get_loop_var_from_switch while_stack switch_1 = Ok (Some stacked) ∧
  name <$> find_output_consumers while_stack "while/Exit_1:0" =
    ["size"; "stack"; "stack_again"] ∧
  ∃ gather o,
    head (filter (λ n, is_tensor_array_gather_op n = true)
                 (find_output_consumers while_stack "while/Exit_1:0")) = Some gather ∧
    name gather = "stack" ∧
    output gather !! 0 = Some o ∧
    utils.id (exit_output stacked) = Some o.
Proof.
  assert (H : _get_loop_var_from_switch while_stack switch_1 = Ok (Some stacked))
    by reflexivity.
  split; [exact H|]. split; [reflexivity|].
  destruct (classified_variable_exit while_stack switch_1 stacked H) as (f & Hf & Hshape).
  inversion Hf; subst f.
  change (find_output_consumers while_stack "while/Switch_1:0")
    with [node "while/Exit_1" "Exit" ["while/Switch_1:0"] ["while/Exit_1:0"]] in Hshape.
  destruct Hshape as (_ & e & He & Hexit). inversion He; subst e.
  change (is_tensor_array stacked) with true in Hexit.
  change (bool_decide ("while/Exit_1:0" ≠ EmptyString)) with true in Hexit.
  cbv iota in Hexit.
  destruct Hexit as (gather & o & Hhead & _ & _ & Ho & Hexit).
  exists gather, o. split_and!; [exact Hhead| |exact Ho|exact Hexit].
  change (head (filter (λ n, is_tensor_array_gather_op n = true)
                       (find_output_consumers while_stack "while/Exit_1:0")))
    with (Some stack) in Hhead.
  by inversion Hhead.
Defined.

(** ** One variable for every switch *)

Lemma parse_switch_Ok g context s context' :
  parse_switch g context s = Ok context' →
  type s = "Switch" ∧
  ∃ v, _get_loop_var_from_switch g s = Ok (Some v) ∧
       add_variable (loop_properties context) v = Ok (loop_properties context') ∧
       while_context_scope context' = while_context_scope context ∧
       loop_cond context' = loop_cond context ∧
       cell_graph context' = cell_graph context ∧
       cond_graph context' = cond_graph context.
Proof.
  unfold parse_switch. intros H.
  destruct (decide (type s ≠ "Switch")) as [|Hs]; [discriminate|]. apply dec_stable in Hs.
  apply bind_Ok in H as (ov & Hov & H).
  apply bind_Ok in H as (v & Hv & H). apply not_none_Ok in Hv. subst ov.
  apply bind_Ok in H as (p & Hp & H). inversion H; subst context'. simpl.
  split; [done|]. by exists v.
Qed.

Lemma values_add_variable self var self' :
  add_variable self var = Ok self' →
  dict_values (state_variables self') ++ dict_values (scan_variables self') ≡ₚ
    var :: (dict_values (state_variables self) ++ dict_values (scan_variables self)) ∧
  tensor_array_inputs self' = tensor_array_inputs self.
Proof.
  intros H. apply add_variable_Ok in H as [_ ->]. unfold dict_values.
  destruct (is_tensor_array var); simpl; rewrite fmap_app; simpl.
  - split; [|done]. by rewrite app_assoc, <- Permutation_cons_append.
  - split; [|done]. rewrite <- app_assoc. simpl. by rewrite <- Permutation_middle.
Qed.

Lemma for_each_parse_switch g l context context' :
  for_each (parse_switch g) l context = Ok context' →
  bucketed (loop_properties context) →
  ∃ vs,
    Forall2 (λ s v, type s = "Switch" ∧ _get_loop_var_from_switch g s = Ok (Some v)) l vs ∧
    bucketed (loop_properties context') ∧
    get_variables (loop_properties context') None ≡ₚ
      vs ++ get_variables (loop_properties context) None ∧
    tensor_array_inputs (loop_properties context') =
      tensor_array_inputs (loop_properties context) ∧
    while_context_scope context' = while_context_scope context ∧
    loop_cond context' = loop_cond context.
Proof.
  revert context. induction l as [|s l IH]; intros context H Hb; simpl in H.
  - inversion H; subst. exists []. by split_and!.
  - apply bind_Ok in H as (c1 & Hstep & H).
    apply parse_switch_Ok in Hstep as (Hs & v & Hv & Hadd & Hscope & Hcond & _ & _).
    pose proof (bucketed_add_variable _ _ _ Hb Hadd) as Hb1.
    destruct (IH c1 H Hb1) as (vs & Hvs & Hb' & Hperm & Hta & Hscope' & Hcond').
    exists (v :: vs). split_and!; try done; try congruence.
    + by constructor.
    + rewrite Hperm.
      destruct (get_variables_bucketed _ Hb1) as (-> & _).
      destruct (get_variables_bucketed _ Hb) as (-> & _).
      apply values_add_variable in Hadd as [-> _]. by rewrite <- Permutation_middle.
    + apply values_add_variable in Hadd as [_ <-]. done.
Qed.

(** X10.  Parsing the loop variables, from properties that hold none,
    succeeds only when every reader of the first output of the LoopCond
    node is a Switch node that classifies to a variable.  The variables
    then registered are these, one for every switch, under distinct names,
    each in its bucket; no input tensor array is recorded; the LoopCond node
    of the context is kept, and the scope is the name of that node up to
    its last slash. *)
Theorem every_switch_yields_one_variable (g : Graph) (context context' : Context) :
  loop_properties context = LoopProperties__init__ →
  _parse_loop_variables g context = Ok context' →
  ∃ cond_node o vs,
    loop_cond context = Some cond_node ∧ loop_cond context' = Some cond_node ∧
    output cond_node !! 0 = Some o ∧
    Forall2 (λ s v, type s = "Switch" ∧ _get_loop_var_from_switch g s = Ok (Some v))
            (find_output_consumers g o) vs ∧
    get_variables (loop_properties context') None ≡ₚ vs ∧
    NoDup (enter_name <$> vs) ∧
    bucketed (loop_properties context') ∧
    tensor_array_inputs (loop_properties context') = [] ∧
    while_context_scope context' = Some (scope_of (name cond_node)).
Proof.
  intros Hlp H. unfold _parse_loop_variables in H.
  apply bind_Ok in H as (lc & Hlc & H). apply not_none_Ok in Hlc.
  apply bind_Ok in H as (o & Ho & H). apply index_Ok in Ho.
  assert (Hb : bucketed LoopProperties__init__) by (split_and!; constructor).
  apply for_each_parse_switch in H as (vs & Hvs & Hb' & Hperm & Hta & Hscope & Hcond);
    [|simpl; by rewrite Hlp].
  cbn [loop_properties while_context_scope loop_cond] in *.
  rewrite Hlp in Hperm, Hta.
  assert (Hnone : get_variables LoopProperties__init__ None = []) by reflexivity.
  rewrite Hnone, app_nil_r in Hperm.
  exists lc, o, vs. split_and!; try done; [congruence|].
  destruct Hb' as (Hnd & Hst & Hsc).
  assert (Hnames : enter_name <$> get_variables (loop_properties context') None =
                   registered (loop_properties context')).
  { destruct (get_variables_bucketed (loop_properties context')) as (-> & _);
      [by split_and!|].
    unfold registered, dict_values. rewrite fmap_app, <- !list_fmap_compose. f_equal.
    - apply list_fmap_ext. intros i [k v] Hkv. simpl.
      apply list_elem_of_lookup_2 in Hkv.
      destruct (proj1 (Forall_forall _ _) Hst _ Hkv) as [Hk _]. simpl in Hk. by subst k.
    - apply list_fmap_ext. intros i [k v] Hkv. simpl.
      apply list_elem_of_lookup_2 in Hkv.
      destruct (proj1 (Forall_forall _ _) Hsc _ Hkv) as [Hk _]. simpl in Hk. by subst k. }
  apply (fmap_Permutation enter_name) in Hperm. rewrite <- Hperm, Hnames. done.
Qed.

Lemma every_switch_yields_one_variable_witness :
  _parse_loop_variables while_loop while_context = Ok while_context_parsed ∧
  ∃ vs, get_variables (loop_properties while_context_parsed) None ≡ₚ vs ∧
        NoDup (enter_name <$> vs).
Proof.
  assert (H : _parse_loop_variables while_loop while_context = Ok while_context_parsed)
    by reflexivity.
  split; [exact H|].
  destruct (every_switch_yields_one_variable while_loop while_context
              while_context_parsed eq_refl H)
    as (lc & o & vs & _ & _ & _ & _ & Hperm & Hnd & _).
  by exists vs.
Defined.

(** ** The scope label *)

Lemma up_to_last_slash_no_slash s : has_slash s = false → up_to_last_slash s = None.
Proof.
  induction s as [|c r IH]; simpl; [done|]. intros H.
  apply orb_false_iff in H as [Hc Hr]. rewrite (IH Hr).
  apply bool_decide_eq_false in Hc. by rewrite decide_False.
Qed.

Lemma up_to_last_slash_append prefix leaf :
  has_slash leaf = false →
  up_to_last_slash (String.append prefix (String "/" leaf)) =
    Some (String.append prefix "/").
Proof.
  intros Hleaf. induction prefix as [|c p IH]; simpl.
  - by rewrite (up_to_last_slash_no_slash leaf Hleaf).
  - by rewrite IH.
Qed.

(** X11.  The scope of a name without a slash is a single slash, and the
    scope of [prefix/leaf], where [leaf] has no slash, is [prefix/]. *)
Theorem scope_is_the_name_up_to_its_last_slash (prefix leaf : string) :
  has_slash leaf = false →
  scope_of leaf = "/" ∧
  scope_of (String.append prefix (String "/" leaf)) = String.append prefix "/".
Proof.
  intros Hleaf. unfold scope_of.
  by rewrite up_to_last_slash_no_slash, up_to_last_slash_append.
Qed.

Lemma scope_is_the_name_up_to_its_last_slash_witness :
  scope_of "LoopCond" = "/" ∧ scope_of "outer/while/LoopCond" = "outer/while/".
Proof.
  apply (scope_is_the_name_up_to_its_last_slash "outer/while" "LoopCond"). reflexivity.
Defined.

(** ** Input tensor arrays *)

Lemma for_each_keep_matches (graph_inputs : list tensor_id) l acc res :
  for_each (λ acc r,
              let* o := index (output (ta_index r)) 0 in
              Ok (if decide (Some o ∈ graph_inputs) then acc ++ [r] else acc))
           l acc = Ok res →
  Forall (λ r, is_Some (output (ta_index r) !! 0)) l ∧
  res = acc ++ filter (λ r, head (output (ta_index r)) ∈ graph_inputs) l.
Proof.
  revert acc. induction l as [|r l IH]; intros acc H; simpl in H.
  - inversion H; subst. split; [constructor|]. by rewrite app_nil_r.
  - apply bind_Ok in H as (acc' & Hstep & H).
    apply bind_Ok in Hstep as (o & Ho & Hstep). apply index_Ok in Ho.
    inversion Hstep; subst acc'. apply IH in H as (Hall & ->).
    split; [constructor; [by exists o|done]|].
    rewrite filter_cons, head_lookup, Ho.
    destruct (decide (Some o ∈ graph_inputs)); [|done].
    by rewrite <- app_assoc.
Qed.

Lemma for_each_add_scan_inputs ms context context' :
  for_each (λ context m,
              let* data_input_id := index (input (ta_input_scatter m)) 2 in
              let* index_input_id := index (input (ta_read m)) 1 in
              let* unstacked_ta_consumer := index (output (ta_read m)) 0 in
              let ta := InputTensorArray__init__ data_input_id index_input_id
                          (Some unstacked_ta_consumer) in
              Ok (with_loop_properties context
                    (add_scan_input (loop_properties context) ta)))
           ms context = Ok context' →
  state_variables (loop_properties context') = state_variables (loop_properties context) ∧
  scan_variables (loop_properties context') = scan_variables (loop_properties context) ∧
  loop_cond context' = loop_cond context ∧
  while_context_scope context' = while_context_scope context ∧
  ∃ new, tensor_array_inputs (loop_properties context') =
           tensor_array_inputs (loop_properties context) ++ new ∧
         Forall2 read_off ms new.
Proof.
  revert context. induction ms as [|m ms IH]; intros context H; simpl in H.
  - inversion H; subst. split_and!; try done. exists []. by rewrite app_nil_r.
  - apply bind_Ok in H as (c1 & Hstep & H).
    apply bind_Ok in Hstep as (d & Hd & Hstep). apply index_Ok in Hd.
    apply bind_Ok in Hstep as (i & Hi & Hstep). apply index_Ok in Hi.
    apply bind_Ok in Hstep as (o & Ho & Hstep). apply index_Ok in Ho.
    inversion Hstep; subst c1. clear Hstep.
    apply IH in H as (Hst & Hsc & Hcond & Hscope & new & Hnew & Hall).
    simpl in *. split_and!; try done.
    exists (InputTensorArray__init__ d i (Some o) :: new). split.
    + by rewrite Hnew, <- app_assoc.
    + constructor; [|done]. split_and!; try done. by exists o.
Qed.

(** X12.  Parsing the input tensor arrays succeeds only when the index
    node of every match of the read pattern has an output.  It leaves the
    variables and the LoopCond node of the context alone and appends one
    input tensor array for every match it keeps, in the order of the
    matches.  The matches kept are exactly the matches of the read pattern,
    in graph order, whose index node has as first output the body-entry
    tensor of a registered variable.  The data id is input 2 of the scatter
    node, the index id is input 1 of the read node, and the consumer is the
    first output of the read node. *)
Theorem input_tensor_arrays_come_from_matches (g : Graph) (context context' : Context) :
  _parse_input_ta g context = Ok context' →
  state_variables (loop_properties context') = state_variables (loop_properties context) ∧
  scan_variables (loop_properties context') = scan_variables (loop_properties context) ∧
  loop_cond context' = loop_cond context ∧
  Forall (λ m, is_Some (output (ta_index m) !! 0)) (match_ops g) ∧
  ∃ ms new,
    ms = filter (λ m, head (output (ta_index m)) ∈ body_entries (loop_properties context))
                (match_ops g) ∧
    tensor_array_inputs (loop_properties context') =
      tensor_array_inputs (loop_properties context) ++ new ∧
    ms `sublist_of` match_ops g ∧
    Forall2 read_off ms new ∧
    Forall (λ m, ∃ o v, output (ta_index m) !! 0 = Some o ∧
                        v ∈ get_variables (loop_properties context) None ∧
                        utils.id (switch_true_identity_output v) = Some o) ms.
Proof.
  unfold _parse_input_ta. intros H.
  apply bind_Ok in H as (ms & Hms & H).
  apply for_each_keep_matches in Hms as (Hindex & ->). simpl in H.
  apply for_each_add_scan_inputs in H as (Hst & Hsc & Hcond & _ & new & Hnew & Hall).
  split_and!; try done. eexists _, new. split_and!; [reflexivity|done| |done|].
  - apply sublist_filter.
  - apply Forall_forall. intros m Hm. apply list_elem_of_filter in Hm as [Hin Hm].
    pose proof (proj1 (Forall_forall _ _) Hindex m Hm) as [o Ho].
    rewrite head_lookup, Ho in Hin.
    apply list_elem_of_filter in Hin as [_ Hin].
    apply list_elem_of_fmap in Hin as (v & Hv & Hin).
    exists o, v. by split_and!.
Qed.

Lemma input_tensor_arrays_come_from_matches_witness :
  _parse_input_ta while_scan while_context_parsed = Ok while_context_scanned ∧
  ∃ new,
    tensor_array_inputs (loop_properties while_context_scanned) = [] ++ new ∧
    Forall2 read_off
      (filter (λ m, head (output (ta_index m)) ∈
                      body_entries (loop_properties while_context_parsed))
              (match_ops while_scan)) new.
Proof.
  assert (H : _parse_input_ta while_scan while_context_parsed = Ok while_context_scanned)
    by reflexivity.
  split; [exact H|].
  destruct (input_tensor_arrays_come_from_matches while_scan while_context_parsed
              while_context_scanned H)
    as (_ & _ & _ & _ & ms & new & -> & Hnew & _ & Hread & _).
  by exists new.
Defined.

(** The one match of [while_scan] reads at the loop counter and is kept;
    with no variable registered it is dropped. *)
Example matches_are_kept_by_their_index :
  length (match_ops while_scan) = 1 ∧
  length (filter (λ m, head (output (ta_index m)) ∈
                         body_entries (loop_properties while_context_parsed))
                 (match_ops while_scan)) = 1 ∧
  length (filter (λ m, head (output (ta_index m)) ∈
                         body_entries LoopProperties__init__)
                 (match_ops while_scan)) = 0.
Proof. repeat split. Qed.

(** ** Cutting the cell off *)

Lemma remove_node_unread_by kind x nm g :
  unread_by kind x g → unread_by kind x (remove_node nm g).
Proof. unfold unread_by, remove_node. simpl. apply Forall_filter_keep. Qed.

Lemma replace_all_inputs_keeps_unread_by kind ops old new x g :
  (∀ n m, type n = type m → kind n = kind m) →
  x ≠ new → unread_by kind x g →
  unread_by kind x (replace_all_inputs ops old new g).
Proof.
  intros Hkind Hne Hun. unfold unread_by, replace_all_inputs. simpl.
  apply Forall_fmap. eapply Forall_impl; [exact Hun|]. simpl. intros n Hn.
  case_decide; [|done]. intros Hk Hin.
  apply replace_input_inputs in Hin as [->|[_ Hin]]; [done|].
  apply Hn; [|done]. rewrite <- Hk. by apply Hkind.
Qed.

Lemma replace_all_inputs_cuts kind old new g :
  (∀ n m, type n = type m → kind n = kind m) →
  old ≠ new →
  unread_by kind old
    (replace_all_inputs (name <$> filter (λ n, kind n = true) (nodes g)) old new g).
Proof.
  intros Hkind Hne. unfold unread_by, replace_all_inputs. simpl.
  apply Forall_fmap. apply Forall_forall. intros n Hn. simpl.
  destruct (kind n) eqn:Hk.
  - rewrite decide_True.
    + intros _ Hin. apply replace_input_inputs in Hin as [->|[Hold _]]; done.
    + apply list_elem_of_fmap_2, list_elem_of_filter. by split.
  - case_decide.
    + intros Hk'. exfalso.
      assert (kind (replace_input old new n) = kind n) as Heq by by apply Hkind.
      congruence.
    + intros Hk'. congruence.
Qed.

Lemma kind_write_by_type n m :
  type n = type m → is_tensor_array_write_op n = is_tensor_array_write_op m.
Proof. unfold is_tensor_array_write_op. by intros ->. Qed.

Lemma kind_next_iteration_by_type (n m : Node) :
  type n = type m →
  bool_decide (type n = "NextIteration") = bool_decide (type m = "NextIteration").
Proof. by intros ->. Qed.

Lemma filter_bool_decide {A} (P : A → Prop) `{∀ x, Decision (P x)} (l : list A) :
  filter (λ x, bool_decide (P x) = true) l = filter P l.
Proof.
  induction l as [|x l IH]; [done|]. rewrite !filter_cons, IH.
  destruct (decide (P x)) as [Hx|Hx].
  - by rewrite decide_True by by apply bool_decide_eq_true_2.
  - rewrite decide_False; [done|]. intros Hb. by apply bool_decide_eq_true in Hb.
Qed.

Lemma cut_off_variable_Ok g val g' :
  cut_off_variable g val = Ok g' →
  ∃ g1, name <$> nodes g1 `sublist_of` name <$> nodes g ∧
        (∀ kind x, unread_by kind x g → unread_by kind x g1) ∧
        g' = if is_tensor_array val
             then replace_all_inputs
                    (name <$> filter (λ n, is_tensor_array_write_op n = true) (get_nodes g1))
                    (utils.id (next_iteration_input val)) (Some INVALID_INPUT_ID) g1
             else replace_all_inputs
                    (name <$> filter (λ n, type n = "NextIteration") (get_nodes g1))
                    (utils.id (next_iteration_input val)) (Some INVALID_INPUT_ID) g1.
Proof.
  unfold cut_off_variable. intros H. apply bind_Ok in H as (g1 & Hg1 & H).
  exists g1. split_and!.
  - destruct (truthy _); [|by inversion Hg1].
    apply bind_Ok in Hg1 as (n & _ & Hg1). inversion Hg1; subst g1. simpl.
    apply fmap_sublist, sublist_filter.
  - intros kind x Hun. destruct (truthy _); [|by inversion Hg1; subst].
    apply bind_Ok in Hg1 as (n & _ & Hg1). inversion Hg1; subst g1.
    by apply remove_node_unread_by.
  - destruct (is_tensor_array val); by inversion H.
Qed.

Lemma names_replace_all_inputs ops old new g :
  name <$> nodes (replace_all_inputs ops old new g) = name <$> nodes g.
Proof. apply name_of_shell, replace_all_inputs_shells. Qed.

Lemma cut_off_variable_cuts g val g' :
  cut_off_variable g val = Ok g' →
  name <$> nodes g' `sublist_of` name <$> nodes g ∧
  (utils.id (next_iteration_input val) ≠ Some INVALID_INPUT_ID → feedback_cut val g') ∧
  (∀ w, utils.id (next_iteration_input w) ≠ Some INVALID_INPUT_ID →
        feedback_cut w g → feedback_cut w g').
Proof.
  intros H. apply cut_off_variable_Ok in H as (g1 & Hsub & Hkeep & ->).
  split_and!.
  - destruct (is_tensor_array val); by rewrite names_replace_all_inputs.
  - intros Hne. unfold feedback_cut. destruct (is_tensor_array val).
    + apply replace_all_inputs_cuts; [apply kind_write_by_type|done].
    + rewrite <- (filter_bool_decide (λ n, type n = "NextIteration")).
      apply (replace_all_inputs_cuts (λ n, bool_decide (type n = "NextIteration")));
        [apply kind_next_iteration_by_type|done].
  - intros w Hw Hcut. unfold feedback_cut in *.
    destruct (is_tensor_array w), (is_tensor_array val);
      apply replace_all_inputs_keeps_unread_by;
      try apply kind_write_by_type; try apply kind_next_iteration_by_type;
      try done; by apply Hkeep.
Qed.

Lemma for_each_cut_off_variable vals g g' :
  for_each cut_off_variable vals g = Ok g' →
  name <$> nodes g' `sublist_of` name <$> nodes g ∧
  (∀ w, utils.id (next_iteration_input w) ≠ Some INVALID_INPUT_ID →
        feedback_cut w g ∨ w ∈ vals → feedback_cut w g').
Proof.
  revert g. induction vals as [|val vals IH]; intros g H; simpl in H.
  - inversion H; subst. split; [done|]. intros w _ [Hw|Hw]; [done|by apply elem_of_nil in Hw].
  - apply bind_Ok in H as (g1 & Hstep & H).
    apply cut_off_variable_cuts in Hstep as (Hsub1 & Hcut & Hkeep).
    apply IH in H as (Hsub & Hall). split; [by etransitivity|].
    intros w Hw Hor. apply Hall; [done|].
    destruct Hor as [Hc|Hin]; [left; by apply Hkeep|].
    apply elem_of_cons in Hin as [->|Hin]; [left; by apply Hcut|by right].
Qed.

(** X13.  After the cell has been cut off, the feedback edge of every
    variable of the loop is cut, when its next-iteration id is not the
    sentinel itself: no TensorArrayWriteV3 node (for a tensor array) or
    NextIteration node (otherwise) reads that id.  The cut adds no node and
    keeps the declared outputs. *)
Theorem cutting_the_cell_cuts_every_feedback_edge
    (g : Graph) (context : Context) (g' : Graph) (val : LoopVariable) :
  _cut_off_connection_for_cell g context = Ok g' →
  val ∈ get_variables (loop_properties context) None →
  utils.id (next_iteration_input val) ≠ Some INVALID_INPUT_ID →
  feedback_cut val g' ∧
  name <$> nodes g' `sublist_of` name <$> nodes g ∧
  outputs g' = outputs g.
Proof.
  intros H Hval Hne.
  pose proof (_cut_off_connection_for_cell_outputs _ _ _ H) as Houts.
  unfold _cut_off_connection_for_cell in H.
  apply bind_Ok in H as (g1 & Hg1 & H).
  apply for_each_cut_off_variable in Hg1 as (Hsub1 & Hcut).
  assert (Hrest : feedback_cut val g' ∧ name <$> nodes g' `sublist_of` name <$> nodes g1).
  { assert (Hc1 : feedback_cut val g1) by (apply Hcut; [done|by right]).
    revert Hc1 H. generalize (scan_inputs (loop_properties context)). intros l.
    clear. revert g1. induction l as [|si l IH]; intros g1 Hc1 H; simpl in H.
    - by inversion H; subst.
    - apply bind_Ok in H as (g2 & Hstep & H).
      apply bind_Ok in Hstep as (n & _ & Hstep). inversion Hstep; subst g2.
      destruct (IH (remove_node (name n) g1)) as [Hc Hsub]; [|done|].
      + unfold feedback_cut in *. destruct (is_tensor_array val);
          by apply remove_node_unread_by.
      + split; [done|]. etransitivity; [exact Hsub|]. simpl.
        apply fmap_sublist, sublist_filter. }
  destruct Hrest as [Hc Hsub]. split_and!; [done| |done]. by etransitivity.
Qed.

Lemma cutting_the_cell_cuts_every_feedback_edge_witness :
  _cut_off_connection_for_cell while_loop while_context_parsed = Ok while_loop_cut ∧
  feedback_cut counter while_loop_cut ∧
  name <$> nodes while_loop_cut `sublist_of` name <$> nodes while_loop ∧
  outputs while_loop_cut = outputs while_loop.
Proof.
  assert (H : _cut_off_connection_for_cell while_loop while_context_parsed =
              Ok while_loop_cut) by reflexivity.
  split; [exact H|].
  apply (cutting_the_cell_cuts_every_feedback_edge while_loop while_context_parsed
           while_loop_cut counter H).
  - apply (bool_decide_unpack _). reflexivity.
  - discriminate.
Defined.

(** ** What a search finds *)

Lemma work_full g (res proc : list Node) :
  NoDup res → Forall (λ n, n ∈ nodes g) res → work_ok g res proc →
  length (nodes g) ≤ length res → proc = [].
Proof.
  intros Hnd Hres [Hpnd Hproc] Hlen.
  destruct proc as [|top rest]; [done|]. exfalso.
  inversion Hproc as [|? ? [Htop Hnot] _]; subst.
  assert (NoDup (top :: res)) as Hnd' by by constructor.
  assert (top :: res ⊆ nodes g) as Hsub.
  { intros x Hx. apply elem_of_cons in Hx as [->|Hx]; [done|].
    by eapply Forall_forall in Hres. }
  pose proof (submseteq_length _ _ (NoDup_submseteq _ _ Hnd' (λ x Hx, Hsub x Hx))).
  simpl in *. lia.
Qed.

Section extract_closed.
Context {St : Type} (g : Graph) (input_checker : Node → St → bool * St).
Context (through : Node → bool).
Hypothesis checker_pure : ∀ n s, (input_checker n s).1 = through n.

(** After the inputs [ins] have been visited: the work set has only grown,
    by nodes the search goes on through, and the producers of [ins] that
    the search goes on through are in the result or in the work set. *)
Lemma foldl_visit_input_closed res_set ins acc :
  Forall (λ n, through n = true) acc.1 →
  let out := foldl (visit_input g input_checker res_set) acc ins in
  Forall (λ n, through n = true) out.1 ∧
  acc.1 ⊆ out.1 ∧
  ∀ i p, i ∈ ins → get_node_by_output g i = Some p → through p = true →
         p ∈ res_set ∨ p ∈ out.1.
Proof.
  revert acc. induction ins as [|i0 ins IH]; intros acc Hacc; simpl.
  { split_and!; [done|done|]. intros i p Hi. by apply elem_of_nil in Hi. }
  set (acc1 := visit_input g input_checker res_set acc i0).
  assert (Hstep : Forall (λ n, through n = true) acc1.1 ∧ acc.1 ⊆ acc1.1 ∧
                  ∀ p, get_node_by_output g i0 = Some p → through p = true →
                       p ∈ res_set ∨ p ∈ acc1.1).
  { unfold acc1, visit_input.
    destruct (get_node_by_output g i0) as [n|] eqn:Hn; [|by split_and!].
    case_decide as Hin.
    { split_and!; [done|done|]. intros p [= <-] _. by left. }
    pose proof (checker_pure n acc.2) as Hpure.
    destruct (input_checker n acc.2) as [[|] s]; simpl in *.
    - split_and!.
      + by apply set_add_Forall.
      + intros x Hx. apply elem_of_set_add. by right.
      + intros p [= <-] _. right. apply elem_of_set_add. by left.
    - split_and!; [done|done|]. intros p [= <-] Hp. congruence. }
  destruct Hstep as (Hall1 & Hsub1 & Hprod1).
  destruct (IH acc1 Hall1) as (Hall & Hsub & Hprod).
  split_and!; [done|by etransitivity|].
  intros i p Hi Hp Hthrough. apply elem_of_cons in Hi as [->|Hi]; [|by eapply Hprod].
  destruct (Hprod1 p Hp Hthrough) as [Hl|Hr]; [by left|right; by apply Hsub].
Qed.

Lemma extract_loop_closed turns processing_set res_set s :
  NoDup res_set → Forall (λ n, n ∈ nodes g) res_set →
  work_ok g res_set processing_set →
  length (nodes g) ≤ length res_set + turns →
  Forall (λ n, through n = true) processing_set →
  Forall (λ n, through n = true) res_set →
  (∀ n i p, n ∈ res_set → i ∈ input n → get_node_by_output g i = Some p →
            through p = true → p ∈ res_set ∨ p ∈ processing_set) →
  let out := (extract_loop g input_checker turns processing_set res_set s).1 in
  Forall (λ n, through n = true ∧ n ∈ nodes g) out ∧
  closed_under_inputs g through out ∧
  res_set ⊆ out ∧ processing_set ⊆ out.
Proof.
  revert processing_set res_set s.
  induction turns as [|turns IH]; intros proc res s Hnd Hres Hwork Hlen Hproc Hthr Hclosed.
  - rewrite (work_full g res proc) in * by (done || lia). simpl.
    split_and!; [| |done|by intros x Hx; apply elem_of_nil in Hx].
    + apply Forall_forall. intros n Hn. split.
      * by eapply Forall_forall in Hthr.
      * by eapply Forall_forall in Hres.
    + intros n i p Hn Hi Hp Hthrough.
      destruct (Hclosed n i p Hn Hi Hp Hthrough) as [H|H]; [done|by apply elem_of_nil in H].
  - destruct proc as [|top rest].
    { simpl. split_and!; [| |done|by intros x Hx; apply elem_of_nil in Hx].
      + apply Forall_forall. intros n Hn. split.
        * by eapply Forall_forall in Hthr.
        * by eapply Forall_forall in Hres.
      + intros n i p Hn Hi Hp Hthrough.
        destruct (Hclosed n i p Hn Hi Hp Hthrough) as [H|H]; [done|by apply elem_of_nil in H]. }
    simpl.
    destruct Hwork as [Hpnd Hwproc].
    inversion Hwproc as [|? ? [Htop Hnot] Hrest]; subst.
    inversion Hproc as [|? ? Htopthr Hrestthr]; subst.
    apply NoDup_cons in Hpnd as [Htop' Hpnd].
    assert (Hadd : set_add top res = res ++ [top]).
    { unfold set_add. by rewrite decide_False. }
    assert (Hwork' : work_ok g (set_add top res) rest).
    { split; [done|]. apply Forall_forall. intros x Hx.
      pose proof (proj1 (Forall_forall _ _) Hrest x Hx) as [Hxg Hxr].
      split; [done|]. rewrite elem_of_set_add. intros [->|]; done. }
    pose proof (foldl_visit_input_work_ok g input_checker (set_add top res)
                  (input top) (rest, s) Hwork') as Hnext.
    pose proof (foldl_visit_input_closed (set_add top res) (input top) (rest, s) Hrestthr)
      as (Hnthr & Hnsub & Hnprod).
    destruct (foldl (visit_input g input_checker (set_add top res)) (rest, s) (input top))
      as [proc' s'] eqn:Hfold. simpl in *.
    destruct (IH proc' (set_add top res) s') as (Hall & Hcl & Hrsub & Hpsub); try done.
    + by apply set_add_NoDup.
    + apply set_add_Forall; done.
    + rewrite Hadd, length_app. simpl. lia.
    + by apply set_add_Forall.
    + intros n i p Hn Hi Hp Hthrough. apply elem_of_set_add in Hn as [->|Hn].
      * by eapply Hnprod.
      * destruct (Hclosed n i p Hn Hi Hp Hthrough) as [H|H].
        -- left. apply elem_of_set_add. by right.
        -- apply elem_of_cons in H as [->|H].
           ++ left. apply elem_of_set_add. by left.
           ++ right. by apply Hnsub.
    + split_and!; [done|done| |].
      * intros x Hx. apply Hrsub, elem_of_set_add. by right.
      * intros x Hx. apply elem_of_cons in Hx as [->|Hx].
        -- apply Hrsub, elem_of_set_add. by left.
        -- by apply Hpsub, Hnsub.
Qed.

Lemma extract_from_closed dest_node s :
  (∀ n, dest_node = Some n → n ∈ nodes g) →
  let out := (extract_from g input_checker dest_node s).1 in
  Forall (λ n, through n = true ∧ n ∈ nodes g) out ∧
  closed_under_inputs g through out ∧
  (∀ n, dest_node = Some n → through n = true → n ∈ out).
Proof.
  intros Hdest. unfold extract_from. destruct dest_node as [n|].
  2: { simpl. split_and!; [constructor| |done].
       intros n i p Hn. by apply elem_of_nil in Hn. }
  pose proof (checker_pure n s) as Hpure.
  destruct (input_checker n s) as [[|] s']; simpl in *.
  - destruct (extract_loop_closed (length (nodes g)) [n] [] s') as (Hall & Hcl & _ & Hsub).
    + constructor.
    + constructor.
    + split; [apply NoDup_singleton|]. repeat constructor; [by apply Hdest|apply not_elem_of_nil].
    + simpl. lia.
    + by repeat constructor.
    + constructor.
    + intros m i p Hm. by apply elem_of_nil in Hm.
    + split_and!; [done|done|]. intros m [= <-] _. apply Hsub. by left.
  - split_and!; [constructor| |]. 
    + intros m i p Hm. by apply elem_of_nil in Hm.
    + intros m [= <-] Hm. congruence.
Qed.

Lemma elem_of_foldl_set_add (found acc : list Node) x :
  x ∈ foldl (λ res n, set_add n res) acc found ↔ x ∈ acc ∨ x ∈ found.
Proof.
  revert acc. induction found as [|n found IH]; intros acc; simpl.
  - split; [by left|]. intros [H|H]; [done|by apply elem_of_nil in H].
  - rewrite IH, elem_of_set_add, elem_of_cons. tauto.
Qed.

Lemma extract_sub_graph_nodes_closed outputs_name s :
  let out := (extract_sub_graph_nodes g input_checker outputs_name s).1 in
  Forall (λ n, through n = true ∧ n ∈ nodes g) out ∧
  closed_under_inputs g through out ∧
  (∀ o p, o ∈ outputs_name → get_node_by_output g o = Some p → through p = true →
          p ∈ out).
Proof.
  unfold extract_sub_graph_nodes.
  assert (H : ∀ outs (acc : list Node * St),
            Forall (λ n, through n = true ∧ n ∈ nodes g) acc.1 →
            closed_under_inputs g through acc.1 →
            let out := (foldl (λ acc output,
                          let '(found, s) :=
                            extract_from g input_checker (get_node_by_output g output) acc.2 in
                          (foldl (λ res n, set_add n res) acc.1 found, s)) acc outs).1 in
            Forall (λ n, through n = true ∧ n ∈ nodes g) out ∧
            closed_under_inputs g through out ∧
            acc.1 ⊆ out ∧
            (∀ o p, o ∈ outs → get_node_by_output g o = Some p → through p = true →
                    p ∈ out)).
  { induction outs as [|o outs IH]; intros acc Hall Hcl; simpl.
    { split_and!; [done|done|done|]. intros o p Ho. by apply elem_of_nil in Ho. }
    pose proof (extract_from_closed (get_node_by_output g o) acc.2
                  (λ n Hn, get_node_by_output_elem _ _ _ Hn)) as (Hfall & Hfcl & Hfdest).
    destruct (extract_from g input_checker (get_node_by_output g o) acc.2)
      as [found s1]. simpl in *.
    destruct (IH (foldl (λ res n, set_add n res) acc.1 found, s1))
      as (Hall' & Hcl' & Hsub' & Hout'); simpl.
    - apply Forall_forall. intros x Hx. apply elem_of_foldl_set_add in Hx as [Hx|Hx].
      + by eapply Forall_forall in Hall.
      + by eapply Forall_forall in Hfall.
    - intros n i p Hn Hi Hp Hthrough. apply elem_of_foldl_set_add.
      apply elem_of_foldl_set_add in Hn as [Hn|Hn].
      + left. by eapply Hcl.
      + right. by eapply Hfcl.
    - split_and!; [done|done| |].
      + intros x Hx. apply Hsub', elem_of_foldl_set_add. by left.
      + intros o' p Ho' Hp Hthrough. apply elem_of_cons in Ho' as [->|Ho'].
        * apply Hsub', elem_of_foldl_set_add. right. by apply Hfdest.
        * by eapply Hout'. }
  destruct (H outputs_name ([], s)) as (Hall & Hcl & _ & Hout).
  - constructor.
  - intros n i p Hn. by apply elem_of_nil in Hn.
  - by split_and!.
Qed.
End extract_closed.

Lemma find_input_boundary_pure input_ids merge_as_end n s :
  (find_input_boundary input_ids merge_as_end n s).1 = inside input_ids merge_as_end n.
Proof.
  unfold inside, find_input_boundary.
  case_decide; [done|].
  destruct (merge_as_end && bool_decide (type n = "Merge")); [done|].
  destruct (is_const n); [done|]. by case_bool_decide.
Qed.

Lemma inside_true input_ids merge_as_end n :
  inside input_ids merge_as_end n = true →
  type n ≠ "Enter" ∧ (merge_as_end = true → type n ≠ "Merge") ∧
  is_const n = false ∧ Forall (λ o, Some o ∉ input_ids) (output n).
Proof.
  unfold inside, find_input_boundary.
  case_decide as Henter; [discriminate|].
  destruct merge_as_end; simpl.
  - case_bool_decide as Hmerge; [discriminate|].
    destruct (is_const n); [discriminate|].
    case_bool_decide as Hin; [discriminate|]. intros _.
    split_and!; try done. by apply not_Exists_Forall in Hin; [|apply _].
  - destruct (is_const n); [discriminate|].
    case_bool_decide as Hin; [discriminate|]. intros _.
    split_and!; try done. by apply not_Exists_Forall in Hin; [|apply _].
Qed.

(** X14.  The nodes [find_subgraph] returns are nodes of the graph, none
    of them an Enter node, a Merge node (when Merge nodes end the search),
    a constant, or the producer of an input id.  The set holds, with every
    node, the producers of its inputs that are none of these, and it holds
    the producers of the output ids that are none of these. *)
Theorem find_subgraph_is_closed_within_its_boundary
    (input_ids output_ids : list tensor_id) (g : Graph) (merge_as_end : bool)
    (ops enter_nodes merge_nodes : list Node) :
  find_subgraph input_ids output_ids g merge_as_end = (ops, enter_nodes, merge_nodes) →
  Forall (λ n, n ∈ nodes g ∧ type n ≠ "Enter" ∧
               (merge_as_end = true → type n ≠ "Merge") ∧
               is_const n = false ∧
               Forall (λ o, Some o ∉ input_ids) (output n)) ops ∧
  closed_under_inputs g (inside input_ids merge_as_end) ops ∧
  (∀ o p, o ∈ output_ids → get_node_by_output g o = Some p →
          inside input_ids merge_as_end p = true → p ∈ ops).
Proof.
  unfold find_subgraph.
  pose proof (extract_sub_graph_nodes_closed g
                (find_input_boundary input_ids merge_as_end)
                (inside input_ids merge_as_end)
                (find_input_boundary_pure input_ids merge_as_end)
                output_ids ([], [])) as (Hall & Hcl & Hout).
  destruct (extract_sub_graph_nodes g _ output_ids ([], [])) as [ns [es ms]].
  intros [= <- <- <-]. simpl in *. split_and!; [|done|done].
  eapply Forall_impl; [exact Hall|]. simpl. intros n [Hin Hn].
  split; [done|]. by apply inside_true.
Qed.

Lemma find_subgraph_is_closed_within_its_boundary_witness :
  name <$> (find_subgraph [Some "while/Identity:0"] [Some "while/add:0"] while_loop false).1.1
    = ["while/add"] ∧
  closed_under_inputs while_loop (inside [Some "while/Identity:0"] false)
    (find_subgraph [Some "while/Identity:0"] [Some "while/add:0"] while_loop false).1.1.
Proof.
  split; [reflexivity|].
  apply (find_subgraph_is_closed_within_its_boundary
           [Some "while/Identity:0"] [Some "while/add:0"] while_loop false _ _ _ eq_refl).
Defined.

(** ** A rewriter that declines, and a rewrite that fails *)

Lemma handle_loop_cond_Ok (self : LoopRewriter) g op g' :
  handle_loop_cond self g op = Ok g' →
  ∃ context,
    _check_in_read_only_mode g (context_of op) = Ok context ∧
    ((need_rewrite context g = false ∧ g' = g) ∨
     (need_rewrite context g = true ∧
      ∃ context' g1 r, rewrite context' g1 = Ok (r, g') ∧ r ≠ FAIL ∧
                       loop_properties context' = loop_properties context ∧
                       loop_cond context' = loop_cond context)).
Proof.
  unfold handle_loop_cond. intros H.
  apply bind_Ok in H as (context & Hcheck & H).
  exists context. split; [exact Hcheck|].
  destruct (need_rewrite context g) eqn:Hneed.
  - right. split; [done|].
    apply bind_Ok in H as (g0 & _ & H).
    apply bind_Ok in H as ([g1 cell] & _ & H).
    apply bind_Ok in H as ([g2 cond] & _ & H).
    apply bind_Ok in H as ([r g3] & Hrw & H).
    eexists _, g2, r. destruct r; inversion H; subst; by split_and!.
  - left. by inversion H.
Qed.

(** X15.  With a rewriter that declines every loop, [run_internal]
    returns only when the classification of every LoopCond node of the
    graph succeeded, and what it leaves is the graph it was given, cleaned
    up: nothing else has changed. *)
Theorem declining_rewriter_only_cleans_up
    (self : LoopRewriter) (g : Graph) (r : Graph * list Node) :
  (∀ context g, need_rewrite context g = false) →
  run_internal self g = Ok r →
  r = (clean_up g, get_nodes (clean_up g)) ∧
  Forall (λ op, ∃ context, _check_in_read_only_mode g (context_of op) = Ok context)
         (filter (λ op, is_loopcond_op op = true) (get_nodes g)).
Proof.
  intros Hdecline. unfold run_internal. intros H.
  apply bind_Ok in H as (g1 & Hloops & H). inversion H; subst r. clear H.
  unfold handle_loop_conds in Hloops. revert Hloops.
  generalize (filter (λ op, is_loopcond_op op = true) (get_nodes g)). intros ops.
  induction ops as [|op ops IH]; simpl; intros H.
  - inversion H; subst. by split.
  - apply bind_Ok in H as (g2 & Hop & H).
    apply handle_loop_cond_Ok in Hop as (context & Hcheck & [[_ ->]|[Hneed _]]).
    + destruct (IH H) as [Heq Hall]. split; [done|]. constructor; [|done]. by exists context.
    + by rewrite Hdecline in Hneed.
Qed.

Lemma declining_rewriter_only_cleans_up_witness :
  run_internal LoopRewriterBase while_loop =
    Ok (clean_up while_loop, get_nodes (clean_up while_loop)) ∧
  Forall (λ op, ∃ context,
            _check_in_read_only_mode while_loop (context_of op) = Ok context)
         (filter (λ op, is_loopcond_op op = true) (get_nodes while_loop)).
Proof.
  assert (H : run_internal LoopRewriterBase while_loop =
              Ok (clean_up while_loop, get_nodes (clean_up while_loop))) by reflexivity.
  split; [exact H|].
  apply (declining_rewriter_only_cleans_up LoopRewriterBase while_loop _ (λ _ _, eq_refl) H).
Defined.

(** X16.  With a rewriter whose [rewrite] only ever reports FAIL, the
    loop handling returns only when no loop needed rewriting, and then it
    leaves the graph as it was: a failed rewrite is never passed over. *)
Theorem failed_rewrite_is_never_swallowed
    (self : LoopRewriter) (g g' : Graph) :
  (∀ context g r g', rewrite context g = Ok (r, g') → r = FAIL) →
  handle_loop_conds self g = Ok g' →
  g' = g ∧
  Forall (λ op, ∃ context, _check_in_read_only_mode g (context_of op) = Ok context ∧
                           need_rewrite context g = false)
         (filter (λ op, is_loopcond_op op = true) (get_nodes g)).
Proof.
  intros Hfail. unfold handle_loop_conds.
  generalize (filter (λ op, is_loopcond_op op = true) (get_nodes g)). intros ops.
  induction ops as [|op ops IH]; simpl; intros H.
  - inversion H; subst. by split.
  - apply bind_Ok in H as (g2 & Hop & H).
    apply handle_loop_cond_Ok in Hop as (context & Hcheck & [[Hneed ->]|[_ Hrw]]).
    + destruct (IH H) as [Heq Hall]. split; [done|]. constructor; [|done].
      by exists context.
    + destruct Hrw as (c' & g1 & r & Hrw & Hr & _). by apply Hfail in Hrw.
Qed.

Lemma failed_rewrite_is_never_swallowed_witness :
  handle_loop_conds LoopRewriterBase while_loop = Ok while_loop ∧
  Forall (λ op, ∃ context,
            _check_in_read_only_mode while_loop (context_of op) = Ok context ∧
            @need_rewrite LoopRewriterBase context while_loop = false)
         (filter (λ op, is_loopcond_op op = true) (get_nodes while_loop)).
Proof.
  assert (H : handle_loop_conds LoopRewriterBase while_loop = Ok while_loop)
    by reflexivity.
  split; [exact H|].
  apply (failed_rewrite_is_never_swallowed LoopRewriterBase while_loop while_loop).
  - intros context g r g' Hrw. simpl in Hrw. by inversion Hrw.
  - exact H.
Defined.

(** A rewriter that takes the loop and fails on it stops the pass. *)
Example failed_rewrite_stops_the_pass :
  run_internal fail_all while_loop =
    Raise (ValueError "rewrite failed, so just fast fail it" []).
Proof. reflexivity. Qed.

(** ** Cropping only rewires inputs *)

Lemma replace_all_inputs_others ops old new g n :
  n ∈ nodes g → name n ∉ ops → n ∈ nodes (replace_all_inputs ops old new g).
Proof.
  intros Hn Hout. unfold replace_all_inputs. simpl.
  apply list_elem_of_fmap. exists n. split; [|done]. by rewrite decide_False.
Qed.

Lemma for_each_connect_enter ops enters g g' :
  for_each (connect_enter ops) enters g = Ok g' →
  shell <$> nodes g' = shell <$> nodes g ∧
  ∀ n, n ∈ nodes g → name n ∉ name <$> ops → n ∈ nodes g'.
Proof.
  apply (for_each_invariant
           (λ s, shell <$> nodes s = shell <$> nodes g ∧
                 ∀ n, n ∈ nodes g → name n ∉ name <$> ops → n ∈ nodes s)); [|done].
  intros s e s' [Hshell Hothers] He. unfold connect_enter in He.
  repeat bind_inv He. inversion He; subst. split.
  - by rewrite replace_all_inputs_shells.
  - intros n Hn Hout. apply replace_all_inputs_others; [by apply Hothers|done].
Qed.

Lemma for_each_cut_off_merge_shells context merges s s' :
  for_each (cut_off_merge context) merges s = Ok s' →
  shell <$> nodes s'.1 = shell <$> nodes s.1.
Proof.
  apply (for_each_invariant (λ t, shell <$> nodes t.1 = shell <$> nodes s.1)); [|done].
  intros [g deps] m t Hs Hm. unfold cut_off_merge in Hm.
  repeat bind_inv Hm. inversion Hm; subst. cbn [fst] in *.
  by rewrite replace_all_inputs_shells.
Qed.

(** X19.  Cropping adds and removes no node and changes no name, type,
    output or attribute: it only rewires inputs.  Cropping the body leaves
    every node alone whose name is not that of a body node, and records as
    inputs the state inputs and then the scan inputs, as outputs the state
    outputs and then the scan outputs, and no dependent variables.
    Cropping the condition records no inputs and, as only output, the first
    input of the LoopCond node. *)
Theorem cropping_only_rewires_inputs (g : Graph) (context : Context) :
  (∀ g' cell,
     _crop_loop_body_sub_graph g context = Ok (g', cell) →
     shell <$> nodes g' = shell <$> nodes g ∧
     (∀ n, n ∈ nodes g → name n ∉ name <$> GraphInfo.nodes cell → n ∈ nodes g') ∧
     GraphInfo.inputs cell =
       state_inputs (loop_properties context) ++ scan_inputs (loop_properties context) ∧
     GraphInfo.outputs cell =
       state_outputs (loop_properties context) ++ scan_outputs (loop_properties context) ∧
     GraphInfo.dependent_vars cell = None) ∧
  (∀ g' cond,
     _crop_loop_condition_sub_graph g context = Ok (g', cond) →
     shell <$> nodes g' = shell <$> nodes g ∧
     GraphInfo.inputs cond = [] ∧
     ∃ cond_node i,
       loop_cond context = Some cond_node ∧
       input (current g cond_node) !! 0 = Some i ∧
       GraphInfo.outputs cond = [mkTensorValueInfo i]).
Proof.
  split.
  - intros g' cell H. unfold _crop_loop_body_sub_graph in H.
    destruct (find_subgraph _ _ _ _) as [[ops enters] merges].
    bind_inv H. inversion H; subst. simpl.
    apply for_each_connect_enter in Ha as [Hshell Hothers]. by split_and!.
  - intros g' cond H. unfold _crop_loop_condition_sub_graph in H.
    apply bind_Ok in H as (lc & Hlc & H). apply not_none_Ok in Hlc.
    apply bind_Ok in H as (i & Hi & H). apply index_Ok in Hi.
    destruct (find_subgraph _ _ _ _) as [[ops enters] merges].
    apply bind_Ok in H as (g1 & Hg1 & H).
    apply bind_Ok in H as ([g2 deps] & Hg2 & H).
    apply bind_Ok in H as (g3 & Hg3 & H).
    inversion H; subst. simpl.
    apply for_each_connect_enter in Hg1 as [Hshell1 _].
    apply for_each_cut_off_merge_shells in Hg2. simpl in Hg2.
    unfold cut_off_loop_cond in Hg3. bind_inv Hg3. inversion Hg3; subst.
    split_and!; [|done|by exists lc, i].
    rewrite replace_all_inputs_shells. congruence.
Qed.
